(** * Vivliostyle core: incremental styler, slip map and break resolution

    A shallow embedding of [src/vivliostyle/break.ts] and of the [SlipMap],
    [Box], [BoxStack] and [Styler.registerForcedBreakOffset] parts of
    [src/vivliostyle/css-styler.ts], with [Display.isBlock] from
    [src/vivliostyle/display.ts].

    Conventions.  A JavaScript [string | null] is an [option string]; a
    JavaScript number holding a document offset is a [Z]; an object used as a
    dictionary is a [gmap] of its own properties ([JsObject] lists the names
    such an object inherits, for the dictionaries the code reads under
    strings that come from the document); an array is a [list] in source
    order (index 0 first, [push] appends at the end).  A method that can
    throw returns an [option], [None] standing for the exception. *)

From Stdlib Require Import ZArith Lia Bool Ascii.
From stdpp Require Import base option list gmap strings fin_maps.

Set Warnings "-register-all".

Local Open Scope Z_scope.

(** ** Plain objects used as dictionaries *)

Module JsObject.

Local Open Scope string_scope.

(** The names every object written [{}] or [{ key: value, ... }] inherits
    from [Object.prototype] (ECMAScript, with the additions of its Annex B).
    Each of them holds a function, and [__proto__] the prototype object:
    reading one of them from a dictionary that has no own property of that
    name gives a truthy value that is not an entry of the dictionary. *)
Definition prototypeNames : list string :=
  ["constructor"; "hasOwnProperty"; "isPrototypeOf"; "propertyIsEnumerable";
   "toLocaleString"; "toString"; "valueOf"; "__proto__";
   "__defineGetter__"; "__defineSetter__"; "__lookupGetter__";
   "__lookupSetter__"].

Definition inherited (key : string) : bool :=
  bool_decide (key ∈ prototypeNames).

End JsObject.

(** ** break.ts *)

Module Break.

Local Open Scope string_scope.

(** JavaScript turns the value used in [table[value]] into a property key;
    [null] becomes the key [null]. *)
Definition propertyKey (value : option string) : string :=
  match value with
  | Some s => s
  | None => "null"
  end.

(** [!value] on a [string | null]: [null] and the empty string are falsy. *)
Definition falsy (value : option string) : bool :=
  match value with
  | None => true
  | Some s => bool_decide (s = EmptyString)
  end.

(** [!!table[value]] for a table of type [{[key: string]: boolean | null}]
    written as an object literal: the entry of the table under that key,
    and, when the table has none, the truthy value the key names on
    [Object.prototype], if any. *)
Definition truthyEntry (table : gmap string bool) (value : option string) : bool :=
  match table !! propertyKey value with
  | Some entry => entry
  | None => JsObject.inherited (propertyKey value)
  end.

Definition forcedBreakValues : gmap string bool :=
  list_to_map
    [("page", true); ("left", true); ("right", true); ("recto", true);
     ("verso", true); ("column", true); ("region", true)].

Definition isForcedBreakValue (value : option string) : bool :=
  truthyEntry forcedBreakValues value.

Definition spreadBreakValues : gmap string bool :=
  list_to_map
    [("left", true); ("right", true); ("recto", true); ("verso", true)].

Definition isSpreadBreakValue (value : option string) : bool :=
  truthyEntry spreadBreakValues value.

Definition avoidBreakValues : gmap string bool :=
  list_to_map
    [("avoid", true); ("avoid-page", true); ("avoid-column", true);
     ("avoid-region", true)].

Definition isAvoidBreakValue (value : option string) : bool :=
  truthyEntry avoidBreakValues value.

Definition resolveEffectiveBreakValue (first second : option string)
  : option string :=
  if falsy first then second
  else if falsy second then first
  else if isSpreadBreakValue second then second
  else if isSpreadBreakValue first then first
  else
    let firstIsForcedBreakValue := isForcedBreakValue first in
    let secondIsForcedBreakValue := isForcedBreakValue second in
    if firstIsForcedBreakValue && secondIsForcedBreakValue then
      if bool_decide (second = Some "column") then
        (* "column" is the weakest value *)
        first
      else if bool_decide (second = Some "region") then
        (* "region" is stronger than "column" but weaker than page values *)
        if bool_decide (first = Some "column") then second else first
      else
        (* page values are strongest *)
        second
    else if secondIsForcedBreakValue then second
    else if firstIsForcedBreakValue then first
    else if isAvoidBreakValue second then second
    else if isAvoidBreakValue first then first
    else second.

(** The twelve directive values of the break domain; [none] is the absent
    value. *)
Inductive BreakIdent :=
| avoid | avoid_page | avoid_column | avoid_region
| page | left | right | recto | verso | column | region.

Definition cssText (b : BreakIdent) : string :=
  match b with
  | avoid => "avoid"
  | avoid_page => "avoid-page"
  | avoid_column => "avoid-column"
  | avoid_region => "avoid-region"
  | page => "page"
  | left => "left"
  | right => "right"
  | recto => "recto"
  | verso => "verso"
  | column => "column"
  | region => "region"
  end.

Definition directive (d : option BreakIdent) : option string := cssText <$> d.

(** The combination rule in the words of the specification (rules 1 to 5 in
    priority order), parameterised by what rule 2 answers when [second] is
    [region]. *)
Definition rulesInPriorityOrder
    (regionCase : option string -> option string -> option string)
    (first second : option string) : option string :=
  if isSpreadBreakValue first || isSpreadBreakValue second then
    if isSpreadBreakValue second then second else first
  else if isForcedBreakValue first && isForcedBreakValue second then
    if bool_decide (second = Some "column") then first
    else if bool_decide (second = Some "region") then regionCase first second
    else second
  else if isForcedBreakValue first || isForcedBreakValue second then
    if isForcedBreakValue second then second else first
  else if isAvoidBreakValue first || isAvoidBreakValue second then
    if isAvoidBreakValue second then second else first
  else
    match second with
    | Some _ => second
    | None => first
    end.

(** Rule 2 as the specification words it: return [second] unless
    [first == column], in which case return [first]. *)
Definition regionCaseAsSpecified (first second : option string) : option string :=
  if bool_decide (first = Some "column") then first else second.

(** Rule 2 as the source has it: [region] wins over [column] only. *)
Definition regionCaseOfSource (first second : option string) : option string :=
  if bool_decide (first = Some "column") then second else first.

End Break.

(** ** base.ts *)

Module Base.

(** Modelled from the spec: [Base.binarySearch] ([base.ts] is not among the
    sources).  The specification describes its two uses as a binary search
    for the first index whose range satisfies the predicate; the loop keeps
    a window [l, h], probes the midpoint, and moves [h] down to a good
    midpoint or [l] past a bad one, until the window is a single index.
    With no good index the result is [high].  The window shrinks at every
    turn, so [S high] turns always suffice. *)
Fixpoint binarySearchLoop (turns l h : nat) (good : nat -> bool) : nat :=
  match turns with
  | O => l
  | S turns' =>
      if (l =? h)%nat then l
      else
        let m := ((l + h) / 2)%nat in
        if good m then binarySearchLoop turns' l m good
        else binarySearchLoop turns' (m + 1)%nat h good
  end.

Definition binarySearch (high : nat) (good : nat -> bool) : nat :=
  binarySearchLoop (S high) 0%nat high good.

End Base.

(** ** css-styler.ts: SlipRange and SlipMap *)

Module Slip.

Record SlipRange := mkSlipRange {
  endStuckFixed : Z;
  endFixed : Z;
  endSlipped : Z
}.

(** The [map] field of a [SlipMap]: the ranges in array order. *)
Abbreviation SlipMap := (list SlipRange).

Definition getMaxFixed (map : SlipMap) : Z :=
  match last map with
  | None => 0
  | Some range => endFixed range
  end.

Definition getMaxSlipped (map : SlipMap) : Z :=
  match last map with
  | None => 0
  | Some range => endSlipped range
  end.

(** [this.map[this.map.length - 1] = r], for a non-empty [map]. *)
Definition setLast (map : SlipMap) (r : SlipRange) : SlipMap :=
  <[pred (length map) := r]> map.

Definition addStuckRange (endFixed0 : Z) (map : SlipMap) : SlipMap :=
  match last map with
  | None => map ++ [mkSlipRange endFixed0 endFixed0 endFixed0]
  | Some range =>
      let endSlipped0 := endSlipped range + endFixed0 - endFixed range in
      if bool_decide (endFixed range = endStuckFixed range) then
        setLast map (mkSlipRange endFixed0 endFixed0 endSlipped0)
      else
        map ++ [mkSlipRange endFixed0 endFixed0 endSlipped0]
  end.

Definition addSlippedRange (endFixed0 : Z) (map : SlipMap) : SlipMap :=
  match last map with
  | None => map ++ [mkSlipRange endFixed0 0 0]
  | Some range =>
      setLast map
        (mkSlipRange (endStuckFixed range) endFixed0 (endSlipped range))
  end.

(** The predicate handed to [binarySearch]; it is only ever probed below
    [map.length]. *)
Definition probe (map : SlipMap) (test : SlipRange -> bool) (index : nat) : bool :=
  match map !! index with
  | Some range => test range
  | None => false
  end.

(** [None]: [this.map[index]] is [undefined] and reading its field throws. *)
Definition slippedByFixed (fixed : Z) (map : SlipMap) : option Z :=
  let index :=
    Base.binarySearch (length map)
      (probe map (fun range => bool_decide (fixed <= endFixed range))) in
  match map !! index with
  | Some range =>
      Some (endSlipped range - Z.max 0 (endStuckFixed range - fixed))
  | None => None
  end.

Definition fixedBySlipped (slipped : Z) (map : SlipMap) : option Z :=
  let index :=
    Base.binarySearch (length map)
      (probe map (fun range => bool_decide (slipped <= endSlipped range))) in
  match map !! index with
  | Some range =>
      Some (endStuckFixed range - (endSlipped range - slipped))
  | None => None
  end.

(** A call on the map, as the styler issues them while it advances. *)
Inductive Call :=
| AddStuckRange (endFixed0 : Z)
| AddSlippedRange (endFixed0 : Z).

Definition argument (c : Call) : Z :=
  match c with
  | AddStuckRange f => f
  | AddSlippedRange f => f
  end.

Definition perform (map : SlipMap) (c : Call) : SlipMap :=
  match c with
  | AddStuckRange f => addStuckRange f map
  | AddSlippedRange f => addSlippedRange f map
  end.

(** The map after a sequence of calls on a fresh [SlipMap]. *)
Definition built (calls : list Call) : SlipMap :=
  foldl perform [] calls.

End Slip.

(** ** css.ts (as declared in [lib/vivliostyle/css.d.ts]) *)

Module Css.

Local Open Scope string_scope.

(** A [Css.Val].  Identifiers are interned by [getName], so [===] on two
    identifiers is equality of their names; [Other] stands for every value
    that is not an identifier and carries its CSS text. *)
Inductive Val :=
| Ident (name : string)
| Other (text : string).

#[global] Instance Val_eq_dec : EqDecision Val.
Proof. solve_decision. Defined.

Definition toString (v : Val) : string :=
  match v with
  | Ident name => name
  | Other text => text
  end.

Definition getName (name : string) : Val := Ident name.

Module ident.
Definition none := Ident "none".
Definition inline := Ident "inline".
Definition block := Ident "block".
Definition absolute := Ident "absolute".
Definition fixed := Ident "fixed".
Definition normal := Ident "normal".
End ident.

End Css.

(** ** display.ts *)

Module Display.

Local Open Scope string_scope.

Definition blockifiedStr (displayStr : string) : string :=
  if bool_decide (displayStr = "inline-flex") then "flex"
  else if bool_decide (displayStr = "inline-grid") then "grid"
  else if bool_decide (displayStr = "inline-table") then "table"
  else if bool_decide
            (displayStr ∈ ["inline"; "table-row-group"; "table-column";
                           "table-column-group"; "table-header-group";
                           "table-footer-group"; "table-row"; "table-cell";
                           "table-caption"; "inline-block"])
  then "block"
  else displayStr.

(** [None]: [display] is [null] and [display.toString()] throws. *)
Definition blockify (display : option Css.Val) : option Css.Val :=
  d ← display;
  Some (Css.getName (blockifiedStr (Css.toString d))).

Definition isAbsolutelyPositioned (position : option Css.Val) : bool :=
  bool_decide (position = Some Css.ident.absolute)
  || bool_decide (position = Some Css.ident.fixed).

Record Computed := mkComputed {
  display : option Css.Val;
  position : option Css.Val;
  float : option Css.Val
}.

Definition getComputedDislayValue
    (display position float : option Css.Val) (isRoot : bool)
  : option Computed :=
  if bool_decide (display = Some Css.ident.none) then
    Some (mkComputed display position float)
  else if isAbsolutelyPositioned position then
    d ← blockify display;
    Some (mkComputed (Some d) position (Some Css.ident.none))
  else if (bool_decide (is_Some float)
           && bool_decide (float ≠ Some Css.ident.none)) || isRoot then
    d ← blockify display;
    Some (mkComputed (Some d) position float)
  else
    Some (mkComputed display position float).

Definition isBlock (display position float : option Css.Val) (isRoot : bool)
  : option bool :=
  c ← getComputedDislayValue display position float isRoot;
  Some (bool_decide (Display.display c = Some Css.ident.block)).

End Display.

(** ** vtree.ts: the parts the styler uses *)

Module FlowChunk.

(** Modelled from the spec: the class [Vtree.FlowChunk] ([vtree.ts] is not
    among the sources).  The fields are those of the data model: flow name,
    originating node, start offset, priority, linger count, exclusive flag,
    repeated flag, last flag and inherited break-before value, in the order
    [Styler.encounteredFlowElement] passes them to the constructor.  The
    node is named by a number; [linger] is [None] for positive infinity. *)
Record t := mk {
  flowName : string;
  element : nat;
  startOffset : Z;
  priority : Z;
  linger : option Z;
  exclusive : bool;
  repeated : bool;
  last : bool;
  breakBefore : option string
}.

Definition setBreakBefore (value : option string) (c : t) : t :=
  mk (flowName c) (element c) (startOffset c) (priority c) (linger c)
     (exclusive c) (repeated c) (last c) value.

End FlowChunk.

Module Flow.

(** Modelled from the spec: the class [Vtree.Flow]: name, parent flow name,
    and the ordered list of forced-break offsets, empty at creation. *)
Record t := mk {
  flowName : string;
  parentFlowName : option string;
  forcedBreakOffsets : list Z
}.

Definition create (flowName : string) (parentFlowName : option string) : t :=
  mk flowName parentFlowName [].

End Flow.

Module Vtree.

(** Modelled from the spec: [Vtree.nonTrivialContent]; content is trivial
    when it is absent, [none] or [normal]. *)
Definition nonTrivialContent (val : option Css.Val) : bool :=
  match val with
  | None => false
  | Some v =>
      bool_decide (v ≠ Css.ident.normal) && bool_decide (v ≠ Css.ident.none)
  end.

End Vtree.

(** ** css-cascade.ts: element styles as the styler reads them *)

Module CssCascade.

(** An [ElementStyle]: for each property name the value its cascaded entry
    evaluates to (the cascade itself is a collaborator), and under
    [_pseudos] the styles of the [before] and [after] pseudo-elements. *)
Inductive ElementStyle := mkElementStyle {
  declarations : gmap string Css.Val;
  pseudoBefore : option ElementStyle;
  pseudoAfter : option ElementStyle
}.

End CssCascade.

(** The objects the core mutates through shared references: the flow chunks,
    kept as [Styler.flowChunks] keeps them (a chunk is referred to by its
    index there, chunks are only ever appended), and the number of boxes
    created so far, which gives each new [Box] its identity. *)
Module Objects.

Record t := mk {
  flowChunks : list FlowChunk.t;
  boxesCreated : nat
}.

Definition allocateBox (o : t) : nat * t :=
  (boxesCreated o, mk (flowChunks o) (S (boxesCreated o))).

Definition chunk (ref : nat) (o : t) : option FlowChunk.t :=
  flowChunks o !! ref.

(** [chunk.breakBefore = value], for the chunk at [ref]. *)
Definition writeBreakBefore (ref : nat) (value : option string) (o : t) : t :=
  mk (alter (FlowChunk.setBreakBefore value) ref (flowChunks o))
     (boxesCreated o).

End Objects.

(** ** css-styler.ts: Box *)

Module Box.

Local Open Scope string_scope.
Import CssCascade.

(** A [Box].  [self] is the identity of the object ([===] on boxes compares
    it).  The constructor's [readonly] parameters come first, then the
    mutable fields: the three write-once caches, the pseudo-element boxes
    and the break-before value.  [styleValues] maps a name that is [in] the
    cache to its value or [null]. *)
Inductive t := mk {
  self : nat;
  style : ElementStyle;
  offset : Z;
  isRoot : bool;
  flowChunk : nat;
  atBlockStart : bool;
  atFlowStart : bool;
  isParentBoxDisplayed : bool;
  flowName : string;
  isBlockValue : option bool;
  hasBoxValue : option bool;
  styleValues : gmap string (option Css.Val);
  beforeBox : option t;
  afterBox : option t;
  breakBefore : option string
}.

Definition setIsBlockValue (v : option bool) (b : t) : t :=
  mk (self b) (style b) (offset b) (isRoot b) (flowChunk b) (atBlockStart b)
     (atFlowStart b) (isParentBoxDisplayed b) (flowName b)
     v (hasBoxValue b) (styleValues b) (beforeBox b) (afterBox b)
     (breakBefore b).

Definition setHasBoxValue (v : option bool) (b : t) : t :=
  mk (self b) (style b) (offset b) (isRoot b) (flowChunk b) (atBlockStart b)
     (atFlowStart b) (isParentBoxDisplayed b) (flowName b)
     (isBlockValue b) v (styleValues b) (beforeBox b) (afterBox b)
     (breakBefore b).

Definition setStyleValues (v : gmap string (option Css.Val)) (b : t) : t :=
  mk (self b) (style b) (offset b) (isRoot b) (flowChunk b) (atBlockStart b)
     (atFlowStart b) (isParentBoxDisplayed b) (flowName b)
     (isBlockValue b) (hasBoxValue b) v (beforeBox b) (afterBox b)
     (breakBefore b).

Definition setBeforeBox (v : option t) (b : t) : t :=
  mk (self b) (style b) (offset b) (isRoot b) (flowChunk b) (atBlockStart b)
     (atFlowStart b) (isParentBoxDisplayed b) (flowName b)
     (isBlockValue b) (hasBoxValue b) (styleValues b) v (afterBox b)
     (breakBefore b).

Definition setAfterBox (v : option t) (b : t) : t :=
  mk (self b) (style b) (offset b) (isRoot b) (flowChunk b) (atBlockStart b)
     (atFlowStart b) (isParentBoxDisplayed b) (flowName b)
     (isBlockValue b) (hasBoxValue b) (styleValues b) (beforeBox b) v
     (breakBefore b).

Definition setBreakBefore (v : option string) (b : t) : t :=
  mk (self b) (style b) (offset b) (isRoot b) (flowChunk b) (atBlockStart b)
     (atFlowStart b) (isParentBoxDisplayed b) (flowName b)
     (isBlockValue b) (hasBoxValue b) (styleValues b) (beforeBox b)
     (afterBox b) v.

(** Every method that fills a cache returns the box it leaves behind. *)

Definition styleValue (name : string) (defaultValue : option Css.Val) (b : t)
  : option Css.Val * t :=
  match styleValues b !! name with
  | Some cached => (cached, b)
  | None =>
      let value :=
        match declarations (style b) !! name with
        | Some cv => Some cv
        | None => defaultValue
        end in
      (value, setStyleValues (<[name := value]> (styleValues b)) b)
  end.

Definition displayValue (b : t) : option Css.Val * t :=
  styleValue "display" (Some Css.ident.inline) b.

(** [None]: [Display.isBlock] threw. *)
Definition isBlock (b : t) : option (bool * t) :=
  match isBlockValue b with
  | Some v => Some (v, b)
  | None =>
      let '(display, b) := displayValue b in
      let '(position, b) := styleValue "position" None b in
      let '(float, b) := styleValue "float" None b in
      v ← Display.isBlock display position float (isRoot b);
      Some (v, setIsBlockValue (Some v) b)
  end.

Definition hasBox (b : t) : bool * t :=
  match hasBoxValue b with
  | Some v => (v, b)
  | None =>
      if isParentBoxDisplayed b then
        let '(display, b) := displayValue b in
        let v := bool_decide (display ≠ Some Css.ident.none) in
        (v, setHasBoxValue (Some v) b)
      else
        (false, setHasBoxValue (Some false) b)
  end.

Definition getBreakValue (edge : string) (b : t)
  : option (option string * t) :=
  '(block, b) ← isBlock b;
  if (block : bool) then
    let '(val, b) := styleValue ("break-" +:+ edge) None b in
    Some (Css.toString <$> val, b)
  else
    Some (None, b).

(** [new Box(context, style, offset, isRoot, flowChunk, atBlockStart,
    atFlowStart, isParentBoxDisplayed)].  [None]: the constructor threw. *)
Fixpoint construct (style : ElementStyle) (offset : Z) (isRoot : bool)
    (flowChunk : nat) (atBlockStart atFlowStart isParentBoxDisplayed : bool)
    (o : Objects.t) {struct style} : option (t * Objects.t) :=
  let '(self, o) := Objects.allocateBox o in
  chunk ← Objects.chunk flowChunk o;
  let this :=
    mk self style offset isRoot flowChunk atBlockStart atFlowStart
       isParentBoxDisplayed (FlowChunk.flowName chunk)
       None None ∅ None None None in
  let '(has, this) := hasBox this in
  '(this, o) ←
    (if has then
       match pseudoBefore style with
       | Some beforeStyle =>
           '(block, this) ← isBlock this;
           '(beforeBox, o) ←
             construct beforeStyle offset false flowChunk block atFlowStart
                       true o;
           let '(beforeContent, beforeBox) :=
             styleValue "content" None beforeBox in
           if Vtree.nonTrivialContent beforeContent then
             Some (setBreakBefore (breakBefore beforeBox)
                     (setBeforeBox (Some beforeBox) this), o)
           else Some (this, o)
       | None => Some (this, o)
       end
     else Some (this, o));
  '(own, this) ← getBreakValue "before" this;
  let this :=
    setBreakBefore
      (Break.resolveEffectiveBreakValue own (breakBefore this)) this in
  if Box.atFlowStart this && Break.isForcedBreakValue (breakBefore this) then
    chunk ← Objects.chunk flowChunk o;
    Some (this,
          Objects.writeBreakBefore flowChunk
            (Break.resolveEffectiveBreakValue
               (FlowChunk.breakBefore chunk) (breakBefore this)) o)
  else Some (this, o).

Definition buildAfterPseudoElementBox (offset : Z)
    (atBlockStart atFlowStart : bool) (b : t) (o : Objects.t)
  : option (t * Objects.t) :=
  let '(has, b) := hasBox b in
  if has then
    match pseudoAfter (style b) with
    | Some afterStyle =>
        '(afterBox, o) ←
          construct afterStyle offset false (flowChunk b) atBlockStart
                    atFlowStart true o;
        let '(afterContent, afterBox) := styleValue "content" None afterBox in
        if Vtree.nonTrivialContent afterContent then
          Some (setAfterBox (Some afterBox) b, o)
        else Some (b, o)
    | None => Some (b, o)
    end
  else Some (b, o).




End Box.

(** ** css-styler.ts: BoxStack *)

Module BoxStack.

(** [atStartStack] holds the saved [(atBlockStart, atFlowStart)] pairs. *)
Record t := mk {
  stack : list Box.t;
  atBlockStart : bool;
  atFlowStart : bool;
  atStartStack : list (bool * bool)
}.

(** [new BoxStack(context)]. *)
Definition create : t := mk [] true true [].

Definition empty (s : t) : bool := bool_decide (length (stack s) = 0%nat).

Definition lastBox (s : t) : option Box.t := last (stack s).

Definition lastFlowName (s : t) (o : Objects.t) : option string :=
  box ← lastBox s;
  chunk ← Objects.chunk (Box.flowChunk box) o;
  Some (FlowChunk.flowName chunk).

(** [stack.every(box => box.displayValue() !== Css.ident.none)]: [every]
    stops at the first box that fails the test; the boxes it visited keep
    the cache entry [displayValue] may have written. *)
Fixpoint everyDisplayed (stack : list Box.t) : bool * list Box.t :=
  match stack with
  | [] => (true, [])
  | box :: rest =>
      let '(display, box) := Box.displayValue box in
      if bool_decide (display ≠ Some Css.ident.none) then
        let '(r, rest) := everyDisplayed rest in (r, box :: rest)
      else (false, box :: rest)
  end.

Definition isCurrentBoxDisplayed (s : t) : bool * t :=
  let '(r, stack) := everyDisplayed (stack s) in
  (r, mk stack (atBlockStart s) (atFlowStart s) (atStartStack s)).

(** [push(style, offset, isRoot, newFlowChunk?)].  [None]: it threw (no
    chunk was given and the stack has no last box, or the constructor
    threw). *)
Definition push (style : CssCascade.ElementStyle) (offset : Z)
    (isRoot : bool) (newFlowChunk : option nat) (s : t) (o : Objects.t)
  : option (Box.t * t * Objects.t) :=
  let lastBox := lastBox s in
  atStartStack' ←
    match newFlowChunk, lastBox with
    | Some new, Some lastBox =>
        chunk ← Objects.chunk new o;
        if bool_decide (FlowChunk.flowName chunk ≠ Box.flowName lastBox) then
          Some (atStartStack s ++ [(atBlockStart s, atFlowStart s)])
        else Some (atStartStack s)
    | _, _ => Some (atStartStack s)
    end;
  flowChunk ←
    match newFlowChunk with
    | Some new => Some new
    | None => Box.flowChunk <$> lastBox
    end;
  let isAtFlowStart := atFlowStart s || bool_decide (is_Some newFlowChunk) in
  let '(isParentBoxDisplayed, s) := isCurrentBoxDisplayed s in
  '(box, o) ←
    Box.construct style offset isRoot flowChunk
      (isAtFlowStart || atBlockStart s) isAtFlowStart isParentBoxDisplayed o;
  let '(has, box) := Box.hasBox box in
  '(atBlockStart', box) ←
    (if has then
       if bool_decide (is_Some (Box.beforeBox box)) then Some (false, box)
       else Box.isBlock box
     else Some (atBlockStart s, box));
  let '(has, box) := Box.hasBox box in
  let atFlowStart' :=
    if has then
      negb (bool_decide (is_Some (Box.beforeBox box))) && isAtFlowStart
    else atFlowStart s in
  Some (box, mk (stack s ++ [box]) atBlockStart' atFlowStart' atStartStack', o).

(** [encounteredTextNode(node)]; [canIgnore] is what
    [Vtree.canIgnore(node, whitespace)] answers for the node.  [None]: it
    threw (the stack has no last box to ask, or the cached [white-space]
    value is [null]). *)
Definition encounteredTextNode (canIgnore : bool) (s : t) : option t :=
  if atBlockStart s || atFlowStart s then
    box ← lastBox s;
    let '(has, box) := Box.hasBox box in
    if has then
      let '(whitespaceValue, box) :=
        Box.styleValue "white-space"%string (Some Css.ident.normal) box in
      _ ← Css.toString <$> whitespaceValue;
      let stack := <[pred (length (stack s)) := box]> (stack s) in
      if negb canIgnore then Some (mk stack false false (atStartStack s))
      else Some (mk stack (atBlockStart s) (atFlowStart s) (atStartStack s))
    else
      Some (mk (<[pred (length (stack s)) := box]> (stack s))
              (atBlockStart s) (atFlowStart s) (atStartStack s))
  else Some s.

(** [pop(offset)].  [None]: it threw (empty stack, or no saved pair to
    restore, or the constructor of the after-box threw). *)
Definition pop (offset : Z) (s : t) (o : Objects.t)
  : option (Box.t * t * Objects.t) :=
  box ← last (stack s);
  let stack := removelast (stack s) in
  '(box, o) ←
    Box.buildAfterPseudoElementBox offset (atBlockStart s) (atFlowStart s)
      box o;
  '(box, o) ←
    match Box.afterBox box with
    | Some afterBox =>
        if atFlowStart s then
          '(breakBefore, afterBox) ← Box.getBreakValue "before"%string afterBox;
          chunk ← Objects.chunk (Box.flowChunk box) o;
          Some (Box.setAfterBox (Some afterBox) box,
                Objects.writeBreakBefore (Box.flowChunk box)
                  (Break.resolveEffectiveBreakValue
                     (FlowChunk.breakBefore chunk) breakBefore) o)
        else Some (box, o)
    | None => Some (box, o)
    end;
  match last stack with
  | Some parent =>
      if bool_decide (Box.flowName parent = Box.flowName box) then
        let '(has, box) := Box.hasBox box in
        if has then Some (box, mk stack false false (atStartStack s), o)
        else Some (box, mk stack (atBlockStart s) (atFlowStart s)
                           (atStartStack s), o)
      else
        atStart ← last (atStartStack s);
        Some (box, mk stack atStart.1 atStart.2
                      (removelast (atStartStack s)), o)
  | None =>
      Some (box, mk stack (atBlockStart s) (atFlowStart s) (atStartStack s), o)
  end.

(** The loop of [nearestBlockStartOffset], with [n] standing for [i + 1]:
    [parent] is [stack[i]], and the loop ends by [throw] when [i < 0]. *)
Fixpoint walkUp (stack : list Box.t) (n : nat) (box : Box.t) : option Z :=
  match n with
  | O => None
  | S i =>
      parent ← stack !! i;
      if bool_decide (Box.flowName parent ≠ Box.flowName box) then
        Some (Box.offset box)
      else if negb (Box.atBlockStart parent) then Some (Box.offset parent)
      else if Box.isRoot parent then Some (Box.offset parent)
      else walkUp stack i parent
  end.

(** [None]: [throw new Error("No block start offset found!")]. *)
Definition nearestBlockStartOffset (box : Box.t) (s : t) : option Z :=
  if negb (Box.atBlockStart box) then Some (Box.offset box)
  else
    let n := length (stack s) in
    let n :=
      match last (stack s) with
      | Some parent =>
          if bool_decide (Box.self parent = Box.self box) then pred n else n
      | None => n
      end in
    walkUp (stack s) n box.

End BoxStack.

(** ** css-styler.ts: Styler *)

Module Styler.

(** The fields of a [Styler] that flow discovery and break registration
    read and write; the chunk array [flowChunks] lives in [objects]. *)
Record t := mk {
  flows : gmap string Flow.t;
  breakBeforeValues : gmap Z (option string);
  boxStack : BoxStack.t;
  objects : Objects.t
}.

(** [encounteredFlowElement(flowName, style, elem, startOffset)].  What it
    reads from [flow-options], [flow-linger] and [flow-priority] through
    [CssProp] is taken as arguments; the listener call and the seek target
    are left out.  It returns the reference of the new chunk.
    [this.flows[flowName]] is truthy when [flows] holds a flow under the
    name, and also when the name is one [flows] inherits from
    [Object.prototype]: in both cases no flow is created. *)
Definition encounteredFlowElement (flowName : string) (elem : nat)
    (startOffset priority : Z) (linger : option Z)
    (exclusive repeated last : bool) (s : t) : nat * t :=
  let breakBefore :=
    match breakBeforeValues s !! startOffset with
    | Some (Some v) => if Break.falsy (Some v) then None else Some v
    | _ => None
    end in
  let flows :=
    match flows s !! flowName with
    | Some _ => flows s
    | None =>
        if JsObject.inherited flowName then flows s
        else
          <[flowName :=
              Flow.create flowName
                (BoxStack.lastFlowName (boxStack s) (objects s))]> (flows s)
    end in
  let flowChunk :=
    FlowChunk.mk flowName elem startOffset priority linger exclusive
      repeated last breakBefore in
  let chunks := Objects.flowChunks (objects s) in
  (length chunks,
   mk flows (breakBeforeValues s) (boxStack s)
      (Objects.mk (chunks ++ [flowChunk])
         (Objects.boxesCreated (objects s)))).

(** [None]: the break value is forced and [flows] holds no flow under the
    name ([this.flows[flowName]] is [undefined], or the value the name has
    on [Object.prototype], which has no [forcedBreakOffsets]: reading
    [length] throws). *)
Definition registerForcedBreakOffset (breakValue : option string)
    (offset : Z) (flowName : string) (s : t) : option t :=
  flows' ←
    (if Break.isForcedBreakValue breakValue then
       flow ← flows s !! flowName;
       let forcedBreakOffsets := Flow.forcedBreakOffsets flow in
       if bool_decide (length forcedBreakOffsets = 0%nat)
          || bool_decide (default 0 (last forcedBreakOffsets) < offset)
       then
         Some (<[flowName :=
                   Flow.mk (Flow.flowName flow) (Flow.parentFlowName flow)
                     (forcedBreakOffsets ++ [offset])]> (flows s))
       else Some (flows s)
     else Some (flows s));
  let previousValue := default None (breakBeforeValues s !! offset) in
  Some (mk flows'
          (<[offset :=
               Break.resolveEffectiveBreakValue previousValue breakValue]>
             (breakBeforeValues s))
          (boxStack s) (objects s)).

(** The operations of the core on a styler. *)
Inductive Operation :=
| EncounteredFlowElement (flowName : string) (elem : nat)
    (startOffset priority : Z) (linger : option Z)
    (exclusive repeated last : bool)
| Push (style : CssCascade.ElementStyle) (offset : Z) (isRoot : bool)
    (newFlowChunk : option nat)
| EncounteredTextNode (canIgnore : bool)
| Pop (offset : Z)
| RegisterForcedBreakOffset (breakValue : option string) (offset : Z)
    (flowName : string).

Definition run (op : Operation) (s : t) : option t :=
  match op with
  | EncounteredFlowElement flowName elem startOffset priority linger
      exclusive repeated last =>
      Some (encounteredFlowElement flowName elem startOffset priority linger
              exclusive repeated last s).2
  | Push style offset isRoot newFlowChunk =>
      '(_, boxStack, objects) ←
        BoxStack.push style offset isRoot newFlowChunk (boxStack s)
          (objects s);
      Some (mk (flows s) (breakBeforeValues s) boxStack objects)
  | EncounteredTextNode canIgnore =>
      boxStack ← BoxStack.encounteredTextNode canIgnore (boxStack s);
      Some (mk (flows s) (breakBeforeValues s) boxStack (objects s))
  | Pop offset =>
      '(_, boxStack, objects) ←
        BoxStack.pop offset (boxStack s) (objects s);
      Some (mk (flows s) (breakBeforeValues s) boxStack objects)
  | RegisterForcedBreakOffset breakValue offset flowName =>
      registerForcedBreakOffset breakValue offset flowName s
  end.

Fixpoint runAll (ops : list Operation) (s : t) : option t :=
  match ops with
  | [] => Some s
  | op :: rest => s' ← run op s; runAll rest s'
  end.

End Styler.

(** ** break.ts: page-break aliases and start sides *)

Module BreakAlias.

Local Open Scope string_scope.

(** The declaration a [SIMPLE_PROPERTY] hook receives. *)
Record Declaration := mkDeclaration {
  name : string;
  value : Css.Val;
  important : bool
}.

(** [s] without the prefix, when [s] starts with it. *)
Fixpoint stripPrefix (prefix s : string) : option string :=
  match prefix with
  | EmptyString => Some s
  | String a prefix' =>
      match s with
      | String b s' =>
          if bool_decide (a = b) then stripPrefix prefix' s' else None
      | EmptyString => None
      end
  end.

(** [s.replace(/^prefix/, "")] for a literal prefix. *)
Definition replaceLeading (prefix s : string) : string :=
  default s (stripPrefix prefix s).

(** [Css.ident.always] and [Css.ident.page] are the interned identifiers
    [always] and [page]. *)
Definition convertPageBreakAliases (original : Declaration) : Declaration :=
  let name := name original in
  let value := value original in
  if bool_decide (name = "page-break-before")
     || bool_decide (name = "page-break-after")
     || bool_decide (name = "page-break-inside")
  then
    mkDeclaration (replaceLeading "page-" name)
      (if bool_decide (value = Css.Ident "always") then Css.Ident "page"
       else value)
      (important original)
  else original.

Definition breakValueToStartSideValue (breakValue : option string) : string :=
  match breakValue with
  | Some v =>
      if bool_decide (v = "left") || bool_decide (v = "right")
         || bool_decide (v = "recto") || bool_decide (v = "verso")
      then v
      else "any"
  | None => "any"
  end.

Definition startSideValueToBreakValue (startSideValue : string)
  : option string :=
  if bool_decide (startSideValue = "left")
     || bool_decide (startSideValue = "right")
     || bool_decide (startSideValue = "recto")
     || bool_decide (startSideValue = "verso")
  then Some startSideValue
  else None.

End BreakAlias.

(** ** display.ts: display classes and formatting contexts *)

Module DisplayContext.

Local Open Scope string_scope.

Definition isInlineLevel (display : Css.Val) : bool :=
  bool_decide
    (Css.toString display
       ∈ ["inline"; "inline-block"; "inline-list-item"; "inline-flex";
          "inline-grid"; "ruby"; "inline-table"]).

Definition isRubyInternalDisplay (display : Css.Val) : bool :=
  bool_decide
    (Css.toString display
       ∈ ["ruby-base"; "ruby-text"; "ruby-base-container";
          "ruby-text-container"]).

(** [establishesBFC(display, position, float, overflow, writingMode,
    parentWritingMode, isFlowRoot)]; an omitted [isFlowRoot] counts as
    [false], an omitted writing mode is [None].  The identifiers of
    [Css.ident] that [Css.ident] of this development does not list are
    written out ([horizontal_tb] is [horizontal-tb], and so on). *)
Definition establishesBFC
    (display position float overflow writingMode parentWritingMode
       : option Css.Val) (isFlowRoot : bool) : bool :=
  let writingMode :=
    match writingMode with
    | Some w => Some w
    | None =>
        match parentWritingMode with
        | Some w => Some w
        | None => Some (Css.Ident "horizontal-tb")
        end
    end in
  isFlowRoot
  || (bool_decide (is_Some float)
      && bool_decide (float ≠ Some Css.ident.none))
  || Display.isAbsolutelyPositioned position
  || bool_decide (display = Some (Css.Ident "inline-block"))
  || bool_decide (display = Some (Css.Ident "table-cell"))
  || bool_decide (display = Some (Css.Ident "table-caption"))
  || bool_decide (display = Some (Css.Ident "flex"))
  || ((bool_decide (display = Some Css.ident.block)
       || bool_decide (display = Some (Css.Ident "list-item")))
      && bool_decide (is_Some overflow)
      && bool_decide (overflow ≠ Some (Css.Ident "visible")))
  || (bool_decide (is_Some parentWritingMode)
      && bool_decide (writingMode ≠ parentWritingMode)).

Definition establishesCBForAbsolute (position : option Css.Val) : bool :=
  bool_decide (position = Some (Css.Ident "relative"))
  || bool_decide (position = Some Css.ident.absolute)
  || bool_decide (position = Some Css.ident.fixed).

End DisplayContext.

(** ** cfi.ts (the second unnamed source): escaping *)

Module Cfi.

Local Open Scope string_scope.

(** The characters of the class [[\[\]\(\),=;^]]. *)
Definition special (c : Ascii.ascii) : bool :=
  bool_decide
    (c ∈ ["["%char; "]"%char; "("%char; ")"%char; ","%char; "="%char;
          ";"%char; "^"%char]).

Definition escapeChar (ch : string) : string := "^" +:+ ch.

(** [str.replace(/[\[\]\(\),=;^]/g, escapeChar)]. *)
Fixpoint escape (str : string) : string :=
  match str with
  | EmptyString => EmptyString
  | String c rest =>
      if special c then escapeChar (String c EmptyString) +:+ escape rest
      else String c (escape rest)
  end.

(** [str.substr(1)]. *)
Definition unescapeChar (str : string) : string :=
  match str with
  | EmptyString => EmptyString
  | String _ rest => rest
  end.

(** [str.replace(/\^[\[\]\(\),=;^]/g, unescapeChar)], matches taken from
    left to right; an empty [str] is returned as it is. *)
Fixpoint unescape (str : string) : string :=
  match str with
  | EmptyString => EmptyString
  | String c rest =>
      match rest with
      | String d rest' =>
          if bool_decide (c = "^"%char) && special d then
            unescapeChar (String c (String d EmptyString)) +:+ unescape rest'
          else String c (unescape rest)
      | EmptyString => String c EmptyString
      end
  end.

End Cfi.

(** * Vocabulary of the properties *)

Import Slip.

(** ** SlipMap *)

(** [Linked R l]: [R] relates every element of the array to the next one. *)
Definition Linked {A : Type} (R : A -> A -> Prop) (l : list A) : Prop :=
  forall i a b, l !! i = Some a -> l !! S i = Some b -> R a b.

(** The arguments of the calls never decrease, starting from [prev]. *)
Fixpoint nonDecreasingFrom (prev : Z) (calls : list Call) : Prop :=
  match calls with
  | [] => True
  | c :: rest => prev <= argument c /\ nonDecreasingFrom (argument c) rest
  end.

(** The well-ordered shape of a map: in each range the stuck part ends no
    later than the range, and from one range to the next none of the three
    fields decreases. *)
Definition wellShaped (map : SlipMap) : Prop :=
  Forall (fun r => endStuckFixed r <= endFixed r) map
  /\ Linked (fun a b => endStuckFixed a <= endStuckFixed b
                       /\ endFixed a <= endFixed b
                       /\ endSlipped a <= endSlipped b) map.

(** [addStuckRange] as the specification words it: extend the three fields
    of a pure-primary last range by the same delta, otherwise open a range
    whose three fields all equal [endFixed]. *)
Definition addStuckRangeAsSpecified (endFixed0 : Z) (map : SlipMap) : SlipMap :=
  match last map with
  | Some range =>
      if bool_decide (endFixed range = endStuckFixed range) then
        let delta := endFixed0 - endFixed range in
        setLast map
          (mkSlipRange (endStuckFixed range + delta) (endFixed range + delta)
             (endSlipped range + delta))
      else map ++ [mkSlipRange endFixed0 endFixed0 endFixed0]
  | None => map ++ [mkSlipRange endFixed0 endFixed0 endFixed0]
  end.

(** [fixedBySlipped(slippedByFixed(f)) == f], both calls returning. *)
Definition roundTrips (map : SlipMap) (f : Z) : Prop :=
  exists s, slippedByFixed f map = Some s /\ fixedBySlipped s map = Some f.

(** The call opens a new range behind a range that has a slipped tail. *)
Definition opensRangeAfterSlip (c : Call) (map : SlipMap) : bool :=
  match c, last map with
  | AddStuckRange _, Some range =>
      bool_decide (endFixed range <> endStuckFixed range)
  | _, _ => false
  end.

(** The arguments never decrease, starting from [prev], and every
    [addStuckRange] that opens a range behind a slipped tail passes an
    offset beyond [getMaxFixed()]. *)
Fixpoint advancing (prev : Z) (map : SlipMap) (calls : list Call) : Prop :=
  match calls with
  | [] => True
  | c :: rest =>
      prev <= argument c
      /\ (opensRangeAfterSlip c map = true -> getMaxFixed map < argument c)
      /\ advancing (argument c) (perform map c) rest
  end.

(** What links consecutive ranges of any map built with non-negative,
    non-decreasing arguments. *)
Definition climbs (a b : SlipRange) : Prop :=
  endFixed a <= endFixed b
  /\ endSlipped a <= endSlipped b
  /\ endSlipped a - endFixed a <= endSlipped b - endStuckFixed b.

(** What links consecutive ranges when every new range starts beyond the
    end of the one before it. *)
Definition rises (a b : SlipRange) : Prop :=
  endFixed a < endFixed b /\ endSlipped a < endSlipped b.

(** The offset [f] lies in the stuck part of some range of the map, beyond
    the range before it. *)
Definition registered (map : SlipMap) (f : Z) : Prop :=
  exists i r,
    map !! i = Some r
    /\ f <= endStuckFixed r
    /\ f <= endFixed r
    /\ forall j a, S j = i -> map !! j = Some a ->
         endFixed a < f
         /\ endSlipped a < endSlipped r - (endStuckFixed r - f).

(** ** Flow and FlowChunk *)

(** Two states of a chunk that agree on every field except [breakBefore]. *)
Definition sameButBreakBefore (c c' : FlowChunk.t) : Prop :=
  FlowChunk.flowName c' = FlowChunk.flowName c
  /\ FlowChunk.element c' = FlowChunk.element c
  /\ FlowChunk.startOffset c' = FlowChunk.startOffset c
  /\ FlowChunk.priority c' = FlowChunk.priority c
  /\ FlowChunk.linger c' = FlowChunk.linger c
  /\ FlowChunk.exclusive c' = FlowChunk.exclusive c
  /\ FlowChunk.repeated c' = FlowChunk.repeated c
  /\ FlowChunk.last c' = FlowChunk.last c.

(** Every chunk that exists in [o] still exists in [o'], with at most its
    [breakBefore] changed. *)
Definition chunksKept (o o' : Objects.t) : Prop :=
  forall ref c,
    Objects.chunk ref o = Some c ->
    exists c', Objects.chunk ref o' = Some c' /\ sameButBreakBefore c c'.

(** Every flow still exists under its name, with the same name and parent
    and a list of forced-break offsets that extends the old one. *)
Definition flowsGrow (flows flows' : gmap string Flow.t) : Prop :=
  forall name flow,
    flows !! name = Some flow ->
    exists flow',
      flows' !! name = Some flow'
      /\ Flow.flowName flow' = Flow.flowName flow
      /\ Flow.parentFlowName flow' = Flow.parentFlowName flow
      /\ Flow.forcedBreakOffsets flow `prefix_of` Flow.forcedBreakOffsets flow'.

(** The chunk [c] after the assignment [chunk.breakBefore =
    resolveEffectiveBreakValue(chunk.breakBefore, v)] has run for each [v] of
    [values] in turn: no other field differs. *)
Definition resolvedInto (values : list (option string)) (c : FlowChunk.t)
  : FlowChunk.t :=
  FlowChunk.setBreakBefore
    (foldl Break.resolveEffectiveBreakValue (FlowChunk.breakBefore c) values)
    c.

(** Every value is a forced break value. *)
Definition allForced (values : list (option string)) : Prop :=
  Forall (fun v => Break.isForcedBreakValue v = true) values.

(** Every chunk of [o] is in [o'] what a run of such assignments makes of
    it, for values that [P] accepts. *)
Definition foldedBy (P : list (option string) -> Prop) (o o' : Objects.t)
  : Prop :=
  forall ref c,
    Objects.chunk ref o = Some c ->
    exists values,
      P values /\ Objects.chunk ref o' = Some (resolvedInto values c).

(** The values one operation of the core may fold into the [breakBefore]
    of a chunk that exists: flow discovery, a text node and a break
    registration fold none; a push folds forced values only (the [Box]
    constructor does); a pop folds forced values (the constructor of the
    [::after] box does) and then at most one value of any kind (the
    break-before of the [::after] box, in [BoxStack.pop] itself). *)
Definition foldsInto (op : Styler.Operation) (values : list (option string))
  : Prop :=
  match op with
  | Styler.Push _ _ _ _ => allForced values
  | Styler.Pop _ =>
      exists forced rest,
        values = forced ++ rest /\ allForced forced /\ (length rest <= 1)%nat
  | _ => values = []
  end.

(** Every chunk that exists in [o] still exists in [o'] after the
    operations [ops], with every field but [breakBefore] as it was, and its
    [breakBefore] is the old one with the values the operations folded into
    it, in order, each by [resolveEffectiveBreakValue(old, new)]. *)
Definition chunksResolved (ops : list Styler.Operation) (o o' : Objects.t)
  : Prop :=
  forall ref c,
    Objects.chunk ref o = Some c ->
    exists c' writes,
      Objects.chunk ref o' = Some c'
      /\ sameButBreakBefore c c'
      /\ Forall2 foldsInto ops writes
      /\ FlowChunk.breakBefore c'
         = foldl Break.resolveEffectiveBreakValue (FlowChunk.breakBefore c)
             (concat writes).

(** A call [registerForcedBreakOffset(breakValue, offset, flowName)]. *)
Record RegisterCall := mkRegisterCall {
  callBreakValue : option string;
  callOffset : Z;
  callFlowName : string
}.

Fixpoint registerAll (calls : list RegisterCall) (s : Styler.t)
  : option Styler.t :=
  match calls with
  | [] => Some s
  | c :: rest =>
      s' ← Styler.registerForcedBreakOffset (callBreakValue c) (callOffset c)
             (callFlowName c) s;
      registerAll rest s'
  end.

(** The list of the flow called [name] after the calls, as the rule words
    it: a call appends its offset exactly when it names the flow, its break
    value is forced and its offset is beyond the last entry, if any. *)
Fixpoint offsetsAfter (name : string) (calls : list RegisterCall)
    (offsets : list Z) : list Z :=
  match calls with
  | [] => offsets
  | c :: rest =>
      offsetsAfter name rest
        (if bool_decide (callFlowName c = name)
            && Break.isForcedBreakValue (callBreakValue c)
            && match last offsets with
               | None => true
               | Some l => bool_decide (l < callOffset c)
               end
         then offsets ++ [callOffset c]
         else offsets)
  end.

(** ** BoxStack *)

(** The boxes above which [box] sits, nearest first: the stack without
    [box] itself when it is the last box. *)
Definition ancestorsOf (box : Box.t) (s : BoxStack.t) : list Box.t :=
  reverse
    (match last (BoxStack.stack s) with
     | Some top =>
         if bool_decide (Box.self top = Box.self box)
         then removelast (BoxStack.stack s)
         else BoxStack.stack s
     | None => BoxStack.stack s
     end).

(** The upward walk in the words of the specification: go on while the
    ancestor shares the flow and is at block start, answer the offset of an
    ancestor that is not at block start or is the root; [atFlowBoundary]
    says what to answer at an ancestor of another flow, given the box just
    below it in the walk. *)
Fixpoint walkAncestors (atFlowBoundary : Box.t -> Box.t -> Z) (flow : string)
    (below : Box.t) (ancestors : list Box.t) : option Z :=
  match ancestors with
  | [] => None
  | ancestor :: rest =>
      if bool_decide (Box.flowName ancestor <> flow) then
        Some (atFlowBoundary below ancestor)
      else if negb (Box.atBlockStart ancestor) then Some (Box.offset ancestor)
      else if Box.isRoot ancestor then Some (Box.offset ancestor)
      else walkAncestors atFlowBoundary flow ancestor rest
  end.

Definition nearestByRule (atFlowBoundary : Box.t -> Box.t -> Z) (box : Box.t)
    (s : BoxStack.t) : option Z :=
  if negb (Box.atBlockStart box) then Some (Box.offset box)
  else walkAncestors atFlowBoundary (Box.flowName box) box (ancestorsOf box s).

(** The specification answers the offset of the first ancestor that breaks a
    condition, also when the condition is the shared flow. *)
Definition boundaryAsSpecified (below ancestor : Box.t) : Z :=
  Box.offset ancestor.

(** The source answers the offset of the box just below an ancestor of
    another flow. *)
Definition boundaryOfSource (below ancestor : Box.t) : Z :=
  Box.offset below.

(** ** Box *)

(** The value [styleValue(name, defaultValue)] computes from the style when
    the name is not cached yet. *)
Definition declared (style : CssCascade.ElementStyle) (name : string)
    (defaultValue : option Css.Val) : option Css.Val :=
  match CssCascade.declarations style !! name with
  | Some cv => Some cv
  | None => defaultValue
  end.

(** What [hasBox()] computes from the constructor's inputs. *)
Definition hasBoxOf (style : CssCascade.ElementStyle)
    (isParentBoxDisplayed : bool) : bool :=
  isParentBoxDisplayed
  && bool_decide (declared style "display" (Some Css.ident.inline)
                  <> Some Css.ident.none).

(** What [isBlock()] computes from the constructor's inputs; [None] when
    [Display.isBlock] throws. *)
Definition isBlockOf (style : CssCascade.ElementStyle) (isRoot : bool)
  : option bool :=
  Display.isBlock (declared style "display" (Some Css.ident.inline))
    (declared style "position" None) (declared style "float" None) isRoot.

(** The cached [display], [position] and [float] values, when present, are
    the ones the style gives. *)
Definition coherent (b : Box.t) : Prop :=
  (forall v, Box.styleValues b !! "display"%string = Some v ->
             v = declared (Box.style b) "display" (Some Css.ident.inline))
  /\ (forall v, Box.styleValues b !! "position"%string = Some v ->
                v = declared (Box.style b) "position" None)
  /\ (forall v, Box.styleValues b !! "float"%string = Some v ->
                v = declared (Box.style b) "float" None).

(** The caches [hasBoxValue] and [isBlockValue], when filled, hold what the
    constructor's inputs give. *)
Definition memoFromInputs (b : Box.t) : Prop :=
  (forall v, Box.hasBoxValue b = Some v ->
             v = hasBoxOf (Box.style b) (Box.isParentBoxDisplayed b))
  /\ (forall v, Box.isBlockValue b = Some v ->
                Some v = isBlockOf (Box.style b) (Box.isRoot b)).

(** What [styleValue(name, defaultValue)] returns, and the cache it leaves. *)
Definition valueRead (b : Box.t) (name : string)
    (defaultValue : option Css.Val) : option Css.Val :=
  match Box.styleValues b !! name with
  | Some cached => cached
  | None => declared (Box.style b) name defaultValue
  end.

Definition cacheAfter (b : Box.t) (name : string)
    (defaultValue : option Css.Val) : gmap string (option Css.Val) :=
  match Box.styleValues b !! name with
  | Some _ => Box.styleValues b
  | None =>
      <[name := declared (Box.style b) name defaultValue]> (Box.styleValues b)
  end.

(** The three names whose cached values feed [hasBox] and [isBlock], each
    with the default its reader passes. *)
Definition readerDefault (name : string) : option (option Css.Val) :=
  if bool_decide (name = "display"%string) then Some (Some Css.ident.inline)
  else if bool_decide (name = "position"%string) then Some None
  else if bool_decide (name = "float"%string) then Some None
  else None.

(** [b'] is a later state of the box [b]: the inputs [hasBox] and [isBlock]
    read are the same, and a cache that was filled holds the same value. *)
Definition settled (b b' : Box.t) : Prop :=
  Box.style b' = Box.style b
  /\ Box.isRoot b' = Box.isRoot b
  /\ Box.isParentBoxDisplayed b' = Box.isParentBoxDisplayed b
  /\ (forall v, Box.hasBoxValue b = Some v -> Box.hasBoxValue b' = Some v)
  /\ (forall v, Box.isBlockValue b = Some v -> Box.isBlockValue b' = Some v).

(** [b'] is a later state of [b] that keeps the caches true to the inputs
    whenever they were. *)
Definition wellCached (b b' : Box.t) : Prop :=
  settled b b'
  /\ (coherent b /\ memoFromInputs b -> coherent b' /\ memoFromInputs b').

(** ** Examples *)

Definition exampleBlockStyle : CssCascade.ElementStyle :=
  CssCascade.mkElementStyle {[ "display"%string := Css.ident.block ]}
    None None.

Definition examplePageStyle : CssCascade.ElementStyle :=
  CssCascade.mkElementStyle
    (<[ "break-before"%string := Css.Ident "page" ]>
       {[ "display"%string := Css.ident.block ]})
    None None.

(** Two chunks as [encounteredFlowElement] creates them, for the flows
    [body] and [footnote]. *)
Definition exampleChunks : Objects.t :=
  Objects.mk
    [FlowChunk.mk "body" 0 0 0 None false false false None;
     FlowChunk.mk "footnote" 1 1 0 None false false false None]
    0.

(** A styler that has seen nothing yet. *)
Definition exampleStyler : Styler.t :=
  Styler.mk ∅ ∅ BoxStack.create (Objects.mk [] 0).

(** A styler that knows the flow [body], with no forced break yet. *)
Definition exampleBodyStyler : Styler.t :=
  Styler.mk {[ "body"%string := Flow.create "body" None ]} ∅ BoxStack.create
    exampleChunks.

(** ** Start sides *)

(** The four values the [switch] statements of [breakValueToStartSideValue]
    and [startSideValueToBreakValue] list. *)
Definition startSides : list string :=
  ["left"; "right"; "recto"; "verso"]%string.

(** ** SlipMap behind a first [addStuckRange] *)

(** What links consecutive ranges of a map the styler builds (its
    constructor calls [addStuckRange] first): a range starts no earlier
    than the one before it ends, and its stuck part ends as far from its
    slipped end as the range before it does at its end. *)
Definition tight (a b : SlipRange) : Prop :=
  endFixed a <= endStuckFixed b
  /\ endSlipped b - endStuckFixed b = endSlipped a - endFixed a.

(** In every range the slipped end is no later than the end of the stuck
    part, which is no later than the end of the range, and consecutive
    ranges are [tight]. *)
Definition ordered (map : SlipMap) : Prop :=
  Forall (fun r => endSlipped r <= endStuckFixed r
                   /\ endStuckFixed r <= endFixed r) map
  /\ Linked tight map.

(** ** Stylers the operations reach *)

(** The number of places in a stack, given by the flow names of its boxes,
    where a box's flow differs from the flow of the box below it. *)
Fixpoint flowChanges (names : list string) : nat :=
  match names with
  | [] => 0
  | a :: rest =>
      match rest with
      | [] => 0
      | b :: _ => if bool_decide (a <> b) then 1 else 0
      end + flowChanges rest
  end.

(** The flow names of the chunks, in the order of [Styler.flowChunks]. *)
Definition chunkNames (o : Objects.t) : list string :=
  FlowChunk.flowName <$> Objects.flowChunks o.

(** What the methods of a box leave as it is: its chunk, its flow name and
    its [::after] box. *)
Definition sameFrame (b b' : Box.t) : Prop :=
  Box.flowChunk b' = Box.flowChunk b
  /\ Box.flowName b' = Box.flowName b
  /\ Box.afterBox b' = Box.afterBox b.

(** A box as it sits on the stack: its chunk exists and carries the box's
    flow name, and it has no [::after] box yet. *)
Definition stacked (o : Objects.t) (box : Box.t) : Prop :=
  (exists chunk,
     Objects.chunk (Box.flowChunk box) o = Some chunk
     /\ FlowChunk.flowName chunk = Box.flowName box)
  /\ Box.afterBox box = None.

(** What holds of every styler the operations of the core reach from a
    fresh one: the boxes on the stack are [stacked], [atStartStack] holds
    one saved pair for each flow change in the stack, every chunk's flow is
    registered unless its name is one that [flows] inherits from
    [Object.prototype], no flow is registered under such a name, and every
    offset in a flow's list of forced-break offsets has a forced
    break-before value registered. *)
Definition consistent (s : Styler.t) : Prop :=
  Forall (stacked (Styler.objects s)) (BoxStack.stack (Styler.boxStack s))
  /\ length (BoxStack.atStartStack (Styler.boxStack s))
     = flowChanges (Box.flowName <$> BoxStack.stack (Styler.boxStack s))
  /\ (Forall (fun name =>
                JsObject.inherited name = false ->
                is_Some (Styler.flows s !! name))
         (chunkNames (Styler.objects s))
      /\ forall name,
           is_Some (Styler.flows s !! name) ->
           JsObject.inherited name = false)
  /\ (forall name flow offset,
        Styler.flows s !! name = Some flow ->
        offset ∈ Flow.forcedBreakOffsets flow ->
        exists v,
          Styler.breakBeforeValues s !! offset = Some v
          /\ Break.isForcedBreakValue v = true).

(** The operations run one after the other while the stack stays deeper
    than [depth]: what the styler does between the push of an element at
    depth [depth] and the pop of that element.  [None]: an operation threw,
    or the stack got as short as [depth]. *)
Fixpoint runAbove (depth : nat) (ops : list Styler.Operation) (s : Styler.t)
  : option Styler.t :=
  match ops with
  | [] => Some s
  | op :: rest =>
      s' ← Styler.run op s;
      if bool_decide
           (depth < length (BoxStack.stack (Styler.boxStack s')))%nat
      then runAbove depth rest s'
      else None
  end.

(** The constructor's parameters that place a box: no method changes
    them. *)
Definition sameParams (b b' : Box.t) : Prop :=
  Box.offset b' = Box.offset b
  /\ Box.atBlockStart b' = Box.atBlockStart b
  /\ Box.atFlowStart b' = Box.atFlowStart b.

(** Two boxes of the flow [body], as they sit on a stack: the root box at
    offset 0 and a child at block start at offset 1. *)
Definition exampleRootBox : Box.t :=
  Box.mk 0 exampleBlockStyle 0 true 0 true true true "body" None None ∅
    None None None.

Definition exampleChildBox : Box.t :=
  Box.mk 1 exampleBlockStyle 1 false 0 true false true "body" None None ∅
    None None None.

(** * Properties *)

(** ** Binary search *)

Section BinarySearch.

Variable good : nat -> bool.

(** The loop returns [i] when the window contains [i], nothing below [i]
    is good and everything from [i] up to [high] is. *)
Lemma binarySearchLoop_first (high i : nat) :
  (forall j, (j < i)%nat -> good j = false) ->
  (forall j, (i <= j < high)%nat -> good j = true) ->
  forall turns l h,
    (l <= i <= h)%nat -> (h <= high)%nat -> (h - l < turns)%nat ->
    Base.binarySearchLoop turns l h good = i.
Proof.
  intros Hbelow Habove.
  induction turns as [|turns IH]; intros l h Hwin Hh Hturns; [lia|].
  cbn [Base.binarySearchLoop].
  destruct (Nat.eqb_spec l h) as [->|Hne]; [lia|].
  set (m := ((l + h) / 2)%nat).
  assert (Hm : (l <= m < h)%nat).
  { subst m. split.
    - apply Nat.div_le_lower_bound; lia.
    - apply Nat.Div0.div_lt_upper_bound; lia. }
  destruct (good m) eqn:Hgood.
  - apply IH; try lia.
    destruct (Nat.le_gt_cases i m) as [?|Hlt]; [lia|].
    rewrite (Hbelow _ Hlt) in Hgood. discriminate.
  - apply IH; try lia.
    destruct (Nat.le_gt_cases i m) as [Hle|?]; [|lia].
    rewrite Habove in Hgood by lia. discriminate.
Qed.

Lemma binarySearch_first (high i : nat) :
  (i <= high)%nat ->
  (forall j, (j < i)%nat -> good j = false) ->
  (forall j, (i <= j < high)%nat -> good j = true) ->
  Base.binarySearch high good = i.
Proof.
  intros Hi Hbelow Habove. unfold Base.binarySearch.
  apply (binarySearchLoop_first high i Hbelow Habove); lia.
Qed.

End BinarySearch.

(** ** SlipMap: how the two mutators act on a map given by its last range *)

Lemma setLast_snoc (init : SlipMap) (r r' : SlipRange) :
  setLast (init ++ [r]) r' = init ++ [r'].
Proof.
  unfold setLast. rewrite length_app. simpl.
  replace (pred (length init + 1)) with (length init) by lia.
  rewrite insert_app_r_alt by lia.
  rewrite Nat.sub_diag. reflexivity.
Qed.

Lemma addStuckRange_nil (g : Z) :
  addStuckRange g [] = [mkSlipRange g g g].
Proof. reflexivity. Qed.

Lemma addStuckRange_snoc (g : Z) (init : SlipMap) (r : SlipRange) :
  addStuckRange g (init ++ [r]) =
    if bool_decide (endFixed r = endStuckFixed r) then
      init ++ [mkSlipRange g g (endSlipped r + g - endFixed r)]
    else
      init ++ [r; mkSlipRange g g (endSlipped r + g - endFixed r)].
Proof.
  unfold addStuckRange. rewrite last_snoc.
  case_bool_decide.
  - apply setLast_snoc.
  - rewrite <- app_assoc. reflexivity.
Qed.

Lemma addSlippedRange_nil (g : Z) :
  addSlippedRange g [] = [mkSlipRange g 0 0].
Proof. reflexivity. Qed.

Lemma addSlippedRange_snoc (g : Z) (init : SlipMap) (r : SlipRange) :
  addSlippedRange g (init ++ [r]) =
    init ++ [mkSlipRange (endStuckFixed r) g (endSlipped r)].
Proof.
  unfold addSlippedRange. rewrite last_snoc. apply setLast_snoc.
Qed.

Lemma getMaxFixed_snoc (init : SlipMap) (r : SlipRange) :
  getMaxFixed (init ++ [r]) = endFixed r.
Proof. unfold getMaxFixed. rewrite last_snoc. reflexivity. Qed.

Lemma SlipMap_cases (map : SlipMap) :
  map = [] \/ exists init r, map = init ++ [r].
Proof.
  destruct (last map) as [r|] eqn:Hlast.
  - right. apply last_Some in Hlast as [init ->]. eauto.
  - left. apply last_None in Hlast. exact Hlast.
Qed.

(** ** SlipMap: searching a map whose ranges are ordered *)

Section Linked.

Context {A : Type} (R : A -> A -> Prop).

Lemma Linked_nil : Linked R [].
Proof. intros i a b H. discriminate. Qed.

Lemma Linked_singleton r : Linked R [r].
Proof. intros i a b _ H. destruct i; discriminate. Qed.

Lemma Linked_setLast init r r' :
  Linked R (init ++ [r]) ->
  (forall a, R a r -> R a r') ->
  Linked R (init ++ [r']).
Proof.
  intros HL Hrr' i a b Ha Hb.
  apply lookup_snoc_Some in Ha as [[Hi Ha]|[Hi ->]];
    apply lookup_snoc_Some in Hb as [[Hj Hb]|[Hj ->]]; try lia.
  - apply (HL i); rewrite lookup_app_l by lia; assumption.
  - apply Hrr'. apply (HL i).
    + rewrite lookup_app_l by lia. assumption.
    + rewrite Hj. apply list_lookup_middle. reflexivity.
Qed.

Lemma Linked_snoc l r x :
  Linked R l -> last l = Some r -> R r x -> Linked R (l ++ [x]).
Proof.
  intros HL Hlast Hrx i a b Ha Hb.
  apply lookup_snoc_Some in Ha as [[Hi Ha]|[Hi ->]];
    apply lookup_snoc_Some in Hb as [[Hj Hb]|[Hj ->]]; try lia.
  - apply (HL i); assumption.
  - rewrite last_lookup in Hlast.
    replace (pred (length l)) with i in Hlast by lia.
    rewrite Hlast in Ha. injection Ha as <-. exact Hrx.
Qed.

(** A transitive consequence of the link relation holds between any two
    elements in array order. *)
Lemma Linked_global (T : A -> A -> Prop) l :
  Linked R l ->
  (forall a b, R a b -> T a b) ->
  (forall a b c, T a b -> T b c -> T a c) ->
  forall i j a b,
    (i < j)%nat -> l !! i = Some a -> l !! j = Some b -> T a b.
Proof.
  intros HL HRT Htrans i j.
  induction j as [|j IH]; intros a b Hij Ha Hb; [lia|].
  destruct (lookup_lt_is_Some_2 l j) as [c Hc].
  { apply lookup_lt_Some in Hb. lia. }
  destruct (decide (i = j)) as [->|Hne].
  - rewrite Ha in Hc. injection Hc as ->. apply HRT, (HL j); assumption.
  - apply (Htrans a c b).
    + apply IH; [lia|assumption..].
    + apply HRT, (HL j); assumption.
Qed.

End Linked.

(** The search of [slippedByFixed] and [fixedBySlipped]: when a range at
    index [i] passes a test that nothing before it passes and everything
    after it passes, the binary search returns [i]. *)
Lemma search_first (map : SlipMap) (test : SlipRange -> bool) i r :
  map !! i = Some r ->
  (forall j a, (j < i)%nat -> map !! j = Some a -> test a = false) ->
  (forall j a, (i <= j)%nat -> map !! j = Some a -> test a = true) ->
  Base.binarySearch (length map) (probe map test) = i.
Proof.
  intros Hr Hbelow Habove.
  pose proof (lookup_lt_Some _ _ _ Hr) as Hlen.
  apply binarySearch_first; [lia| |].
  - intros j Hj. unfold probe.
    destruct (map !! j) as [a|] eqn:Ha; [|reflexivity].
    apply (Hbelow j); assumption.
  - intros j Hj. unfold probe.
    destruct (lookup_lt_is_Some_2 map j) as [a Ha]; [lia|].
    rewrite Ha. apply (Habove j); [lia|assumption].
Qed.

(** ** SlipMap: invariants of the maps the calls build *)

Lemma foldl_perform_cons (map : SlipMap) c calls :
  foldl perform map (c :: calls) = foldl perform (perform map c) calls.
Proof. reflexivity. Qed.

Ltac slip_cases map :=
  let init := fresh "init" in
  let r := fresh "r" in
  destruct (SlipMap_cases map) as [->|(init & r & ->)].

Ltac slip_step :=
  repeat first
    [ rewrite addStuckRange_nil
    | rewrite addStuckRange_snoc
    | rewrite addSlippedRange_nil
    | rewrite addSlippedRange_snoc
    | rewrite getMaxFixed_snoc
    | rewrite last_snoc ].

Lemma getMaxFixed_singleton (r : SlipRange) : getMaxFixed [r] = endFixed r.
Proof. reflexivity. Qed.

Lemma snoc_two (init : SlipMap) (r x : SlipRange) :
  init ++ [r; x] = (init ++ [r]) ++ [x].
Proof. rewrite <- app_assoc. reflexivity. Qed.

Lemma perform_climbs c prev (map : SlipMap) :
  0 <= prev -> getMaxFixed map <= prev -> prev <= argument c ->
  Linked climbs map ->
  getMaxFixed (perform map c) <= argument c /\ Linked climbs (perform map c).
Proof.
  intros Hprev Hmax Harg HL.
  destruct c as [g|g]; simpl in *; slip_cases map; slip_step.
  - rewrite getMaxFixed_singleton. split; [simpl; lia|apply Linked_singleton].
  - rewrite getMaxFixed_snoc in Hmax. case_bool_decide as Hpure.
    + rewrite getMaxFixed_snoc. split; [simpl; lia|].
      eapply Linked_setLast; [exact HL|].
      unfold climbs. simpl. intros a (? & ? & ?). lia.
    + rewrite snoc_two, getMaxFixed_snoc. split; [simpl; lia|].
      eapply Linked_snoc; [exact HL|apply last_snoc|].
      unfold climbs. simpl. lia.
  - rewrite getMaxFixed_singleton. split; [simpl; lia|apply Linked_singleton].
  - rewrite getMaxFixed_snoc in Hmax. split; [simpl; lia|].
    eapply Linked_setLast; [exact HL|].
    unfold climbs. simpl. intros a (? & ? & ?). lia.
Qed.

Lemma built_climbs calls : forall prev (map : SlipMap),
  0 <= prev -> getMaxFixed map <= prev -> Linked climbs map ->
  nonDecreasingFrom prev calls ->
  Linked climbs (foldl perform map calls).
Proof.
  induction calls as [|c calls IH]; intros prev map Hprev Hmax HL Hcalls.
  - exact HL.
  - destruct Hcalls as [Harg Hrest]. rewrite foldl_perform_cons.
    destruct (perform_climbs c prev map Hprev Hmax Harg HL) as [Hmax' HL'].
    apply (IH (argument c)); [lia|assumption..].
Qed.

Lemma perform_nonempty (map : SlipMap) c : perform map c <> [].
Proof.
  destruct c as [g|g]; simpl; slip_cases map; slip_step;
    try case_bool_decide; try discriminate;
    intros Hnil; apply app_eq_nil in Hnil as [_ Hnil]; discriminate.
Qed.

Lemma foldl_perform_nonempty calls : forall map : SlipMap,
  map <> [] -> foldl perform map calls <> [].
Proof.
  induction calls as [|c calls IH]; intros map Hmap; [exact Hmap|].
  rewrite foldl_perform_cons. apply IH, perform_nonempty.
Qed.

Lemma climbs_global (map : SlipMap) :
  Linked climbs map ->
  forall i j a b,
    (i <= j)%nat -> map !! i = Some a -> map !! j = Some b ->
    endFixed a <= endFixed b /\ endSlipped a <= endSlipped b.
Proof.
  intros HL i j a b Hij Ha Hb.
  destruct (decide (i = j)) as [->|Hne].
  - rewrite Ha in Hb. injection Hb as <-. lia.
  - apply (Linked_global climbs
             (fun a b => endFixed a <= endFixed b
                         /\ endSlipped a <= endSlipped b) map HL)
      with (i := i) (j := j).
    + unfold climbs. intros ? ? (? & ? & _). split; assumption.
    + intros ? ? ? [? ?] [? ?]. lia.
    + lia.
    + exact Ha.
    + exact Hb.
Qed.

(** ** SlipMap: the first range whose end reaches an offset *)

Lemma first_reaching (map : SlipMap) (f : Z) :
  map <> [] -> f <= getMaxFixed map ->
  Linked climbs map ->
  exists i r,
    map !! i = Some r /\ f <= endFixed r
    /\ (forall j a, (j < i)%nat -> map !! j = Some a -> endFixed a < f)
    /\ slippedByFixed f map
       = Some (endSlipped r - Z.max 0 (endStuckFixed r - f)).
Proof.
  intros Hne Hmax HL.
  destruct (list_find (fun r => f <= endFixed r) map) as [[i r]|] eqn:Hfind.
  - apply list_find_Some in Hfind as (Hr & Hf & Hbelow).
    exists i, r. split; [exact Hr|]. split; [exact Hf|]. split.
    + intros j a Hj Ha. specialize (Hbelow j a Ha Hj). lia.
    + unfold slippedByFixed.
      rewrite (search_first map _ i r Hr).
      * rewrite Hr. reflexivity.
      * intros j a Hj Ha. specialize (Hbelow j a Ha Hj).
        apply bool_decide_eq_false. exact Hbelow.
      * intros j a Hj Ha. apply bool_decide_eq_true.
        destruct (decide (i = j)) as [->|Hij].
        { rewrite Hr in Ha. injection Ha as <-. exact Hf. }
        destruct (climbs_global map HL i j r a) as [? _];
          [lia|assumption..|lia].
  - exfalso. apply list_find_None in Hfind.
    slip_cases map; [congruence|].
    rewrite getMaxFixed_snoc in Hmax.
    rewrite Forall_app, Forall_singleton in Hfind. destruct Hfind as [_ Hr].
    apply Hr. exact Hmax.
Qed.

Lemma built_nonempty c calls : built (c :: calls) <> [].
Proof.
  unfold built. rewrite foldl_perform_cons.
  apply foldl_perform_nonempty, perform_nonempty.
Qed.

(** C7.  For every map built by a non-empty sequence of [addStuckRange] and
    [addSlippedRange] calls whose arguments are non-negative offsets that
    never decrease, and for all offsets [f1 <= f2 <= getMaxFixed()], both
    [slippedByFixed(f1)] and [slippedByFixed(f2)] return, and
    [slippedByFixed(f1) <= slippedByFixed(f2)]. *)
Theorem slippedByFixed_monotone (calls : list Call) (f1 f2 : Z) :
  calls <> [] ->
  nonDecreasingFrom 0 calls ->
  f1 <= f2 ->
  f2 <= getMaxFixed (built calls) ->
  exists s1 s2,
    slippedByFixed f1 (built calls) = Some s1
    /\ slippedByFixed f2 (built calls) = Some s2
    /\ s1 <= s2.
Proof.
  intros Hcalls Hargs H12 Hmax.
  assert (Hne : built calls <> []).
  { destruct calls as [|c calls]; [congruence|apply built_nonempty]. }
  assert (HL : Linked climbs (built calls)).
  { apply (built_climbs calls 0 []); [lia|reflexivity|apply Linked_nil|exact Hargs]. }
  destruct (first_reaching (built calls) f2 Hne Hmax HL)
    as (i2 & r2 & Hr2 & Hf2 & Hbelow2 & ->).
  destruct (first_reaching (built calls) f1 Hne ltac:(lia) HL)
    as (i1 & r1 & Hr1 & Hf1 & Hbelow1 & ->).
  eexists _, _. split; [reflexivity|]. split; [reflexivity|].
  destruct (lt_eq_lt_dec i1 i2) as [[Hlt|Heq]|Hgt].
  - destruct (lookup_lt_is_Some_2 (built calls) (pred i2)) as [a Ha].
    { apply lookup_lt_Some in Hr2. lia. }
    pose proof (Hbelow2 (pred i2) a ltac:(lia) Ha) as Hlow.
    assert (Hlink : climbs a r2).
    { apply (HL (pred i2)); [exact Ha|].
      replace (S (pred i2)) with i2 by lia. exact Hr2. }
    destruct (climbs_global _ HL i1 (pred i2) r1 a ltac:(lia) Hr1 Ha) as [_ HE].
    destruct Hlink as (_ & HE2 & Hgap). lia.
  - subst i2. rewrite Hr1 in Hr2. injection Hr2 as <-. lia.
  - pose proof (Hbelow1 i2 r2 Hgt Hr2). lia.
Qed.

Lemma slippedByFixed_monotone_witness :
  exists s1 s2,
    slippedByFixed 2
      (built [AddStuckRange 0; AddStuckRange 1; AddSlippedRange 3;
              AddStuckRange 4]) = Some s1
    /\ slippedByFixed 4
         (built [AddStuckRange 0; AddStuckRange 1; AddSlippedRange 3;
                 AddStuckRange 4]) = Some s2
    /\ s1 <= s2.
Proof.
  apply (slippedByFixed_monotone
           [AddStuckRange 0; AddStuckRange 1; AddSlippedRange 3;
            AddStuckRange 4] 2 4).
  - discriminate.
  - simpl. lia.
  - lia.
  - vm_compute. discriminate.
Defined.

(** ** SlipMap: offsets registered as primary *)

Lemma rises_global (map : SlipMap) :
  Linked rises map ->
  forall i j a b,
    (i <= j)%nat -> map !! i = Some a -> map !! j = Some b ->
    endFixed a <= endFixed b /\ endSlipped a <= endSlipped b.
Proof.
  intros HL i j a b Hij Ha Hb.
  destruct (decide (i = j)) as [->|Hne].
  - rewrite Ha in Hb. injection Hb as <-. lia.
  - apply (Linked_global rises
             (fun a b => endFixed a <= endFixed b
                         /\ endSlipped a <= endSlipped b) map HL)
      with (i := i) (j := j).
    + unfold rises. intros ? ? [? ?]. lia.
    + intros ? ? ? [? ?] [? ?]. lia.
    + lia.
    + exact Ha.
    + exact Hb.
Qed.

Lemma perform_rises c prev (map : SlipMap) :
  0 <= prev -> getMaxFixed map <= prev -> prev <= argument c ->
  (opensRangeAfterSlip c map = true -> getMaxFixed map < argument c) ->
  Linked rises map ->
  getMaxFixed (perform map c) <= argument c /\ Linked rises (perform map c).
Proof.
  intros Hprev Hmax Harg Hopen HL.
  destruct c as [g|g]; simpl in *; slip_cases map; slip_step.
  - rewrite getMaxFixed_singleton. split; [simpl; lia|apply Linked_singleton].
  - rewrite getMaxFixed_snoc in Hmax. unfold opensRangeAfterSlip in Hopen.
    rewrite last_snoc, getMaxFixed_snoc in Hopen.
    destruct (decide (endFixed r = endStuckFixed r)) as [Hpure|Hpure].
    + rewrite (bool_decide_eq_true_2 _ Hpure), getMaxFixed_snoc.
      split; [simpl; lia|].
      eapply Linked_setLast; [exact HL|].
      unfold rises. simpl. intros a [? ?]. lia.
    + rewrite (bool_decide_eq_false_2 _ Hpure), snoc_two, getMaxFixed_snoc.
      split; [simpl; lia|].
      eapply Linked_snoc; [exact HL|apply last_snoc|].
      rewrite bool_decide_eq_true_2 in Hopen by exact Hpure.
      specialize (Hopen eq_refl).
      unfold rises. simpl. lia.
  - rewrite getMaxFixed_singleton. split; [simpl; lia|apply Linked_singleton].
  - rewrite getMaxFixed_snoc in Hmax. split; [simpl; lia|].
    eapply Linked_setLast; [exact HL|].
    unfold rises. simpl. intros a [? ?]. lia.
Qed.

Lemma registered_snoc (map : SlipMap) x f :
  registered map f -> registered (map ++ [x]) f.
Proof.
  intros (i & r & Hr & HS & HF & Hpred).
  pose proof (lookup_lt_Some _ _ _ Hr) as Hi.
  exists i, r. split; [rewrite lookup_app_l by lia; exact Hr|].
  split; [exact HS|]. split; [exact HF|].
  intros j a Hj Ha. rewrite lookup_app_l in Ha by lia.
  apply (Hpred j a Hj Ha).
Qed.

Lemma registered_setLast (init : SlipMap) r r' f :
  registered (init ++ [r]) f ->
  (f <= endStuckFixed r -> f <= endFixed r ->
   f <= endStuckFixed r' /\ f <= endFixed r'
   /\ endSlipped r - (endStuckFixed r - f)
      <= endSlipped r' - (endStuckFixed r' - f)) ->
  registered (init ++ [r']) f.
Proof.
  intros (i & r0 & Hr & HS & HF & Hpred) Hkeep.
  apply lookup_snoc_Some in Hr as [[Hi Hr]|[Hi ->]].
  - exists i, r0. split; [rewrite lookup_app_l by lia; exact Hr|].
    split; [exact HS|]. split; [exact HF|].
    intros j a Hj Ha. rewrite lookup_app_l in Ha by lia.
    apply (Hpred j a Hj). rewrite lookup_app_l by lia. exact Ha.
  - destruct (Hkeep HS HF) as (HS' & HF' & HE).
    exists i, r'. split; [rewrite Hi; apply list_lookup_middle; reflexivity|].
    split; [exact HS'|]. split; [exact HF'|].
    intros j a Hj Ha. rewrite lookup_app_l in Ha by lia.
    destruct (Hpred j a Hj) as [? ?]; [rewrite lookup_app_l by lia; exact Ha|].
    lia.
Qed.

Lemma perform_registered c prev (map : SlipMap) f :
  getMaxFixed map <= prev -> prev <= argument c ->
  registered map f -> registered (perform map c) f.
Proof.
  intros Hmax Harg Hreg.
  destruct c as [g|g]; simpl in *; slip_cases map; slip_step;
    try (destruct Hreg as (i & r0 & Hr0 & _); destruct i; discriminate);
    rewrite getMaxFixed_snoc in Hmax.
  - case_bool_decide as Hpure.
    + eapply registered_setLast; [exact Hreg|]. simpl. lia.
    + rewrite snoc_two. apply registered_snoc. exact Hreg.
  - eapply registered_setLast; [exact Hreg|]. simpl. lia.
Qed.

Lemma addStuckRange_registers g prev (map : SlipMap) :
  getMaxFixed map <= prev -> prev <= g ->
  (opensRangeAfterSlip (AddStuckRange g) map = true -> getMaxFixed map < g) ->
  Linked rises map ->
  registered (addStuckRange g map) g.
Proof.
  intros Hmax Harg Hopen HL. slip_cases map; slip_step.
  - exists 0%nat, (mkSlipRange g g g). simpl.
    split; [reflexivity|]. split; [lia|]. split; [lia|].
    intros j a Hj. discriminate.
  - rewrite getMaxFixed_snoc in Hmax. unfold opensRangeAfterSlip in Hopen.
    rewrite last_snoc, getMaxFixed_snoc in Hopen.
    destruct (decide (endFixed r = endStuckFixed r)) as [Hpure|Hpure];
      [rewrite (bool_decide_eq_true_2 _ Hpure)
      |rewrite (bool_decide_eq_false_2 _ Hpure)].
    + exists (length init), (mkSlipRange g g (endSlipped r + g - endFixed r)).
      split; [apply list_lookup_middle; reflexivity|]. simpl.
      split; [lia|]. split; [lia|].
      intros j a Hj Ha. rewrite lookup_app_l in Ha by lia.
      assert (Hlink : rises a r).
      { apply (HL j); [rewrite lookup_app_l by lia; exact Ha|].
        rewrite Hj. apply list_lookup_middle. reflexivity. }
      destruct Hlink as [? ?]. lia.
    + rewrite bool_decide_eq_true_2 in Hopen by exact Hpure.
      specialize (Hopen eq_refl).
      exists (S (length init)),
        (mkSlipRange g g (endSlipped r + g - endFixed r)).
      split.
      { rewrite snoc_two.
        replace (S (length init)) with (length (init ++ [r]))
          by (rewrite length_app; simpl; lia).
        apply list_lookup_middle. reflexivity. }
      simpl. split; [lia|]. split; [lia|].
      intros j a Hj Ha. injection Hj as ->.
      rewrite (list_lookup_middle init [_] r (length init) eq_refl) in Ha.
      injection Ha as <-. lia.
Qed.

Lemma built_registered calls : forall prev (map : SlipMap),
  0 <= prev -> getMaxFixed map <= prev -> Linked rises map ->
  advancing prev map calls ->
  Linked rises (foldl perform map calls)
  /\ (forall f, registered map f -> registered (foldl perform map calls) f)
  /\ (forall f, In (AddStuckRange f) calls ->
                registered (foldl perform map calls) f).
Proof.
  induction calls as [|c calls IH]; intros prev map Hprev Hmax HL Hadv.
  - split; [exact HL|]. split; [auto|]. intros f [].
  - destruct Hadv as (Harg & Hopen & Hrest). rewrite foldl_perform_cons.
    destruct (perform_rises c prev map Hprev Hmax Harg Hopen HL)
      as [Hmax' HL'].
    destruct (IH (argument c) (perform map c) ltac:(lia) Hmax' HL' Hrest)
      as (HLend & Hkeep & Hnew).
    split; [exact HLend|]. split.
    + intros f Hf. apply Hkeep.
      apply (perform_registered c prev); assumption.
    + intros f [->|Hin]; [|apply Hnew; exact Hin].
      apply Hkeep. simpl in *.
      apply (addStuckRange_registers f prev); assumption.
Qed.

Lemma registered_roundTrips (map : SlipMap) f :
  Linked rises map -> registered map f -> roundTrips map f.
Proof.
  intros HL (i & r & Hr & HS & HF & Hpred).
  assert (Hbelow : forall j a, (j < i)%nat -> map !! j = Some a ->
            endFixed a < f
            /\ endSlipped a < endSlipped r - (endStuckFixed r - f)).
  { intros j a Hj Ha.
    destruct (lookup_lt_is_Some_2 map (pred i)) as [p Hp].
    { apply lookup_lt_Some in Hr. lia. }
    destruct (Hpred (pred i) p ltac:(lia) Hp) as [? ?].
    destruct (rises_global map HL j (pred i) a p ltac:(lia) Ha Hp). lia. }
  assert (Habove : forall j a, (i <= j)%nat -> map !! j = Some a ->
            endFixed r <= endFixed a /\ endSlipped r <= endSlipped a).
  { intros j a Hj Ha. apply (rises_global map HL i j); assumption. }
  exists (endSlipped r - (endStuckFixed r - f)). split.
  - unfold slippedByFixed. rewrite (search_first map _ i r Hr).
    + rewrite Hr. f_equal. lia.
    + intros j a Hj Ha. apply bool_decide_eq_false.
      destruct (Hbelow j a Hj Ha). lia.
    + intros j a Hj Ha. apply bool_decide_eq_true.
      destruct (Habove j a Hj Ha). lia.
  - unfold fixedBySlipped. rewrite (search_first map _ i r Hr).
    + rewrite Hr. f_equal. lia.
    + intros j a Hj Ha. apply bool_decide_eq_false.
      destruct (Hbelow j a Hj Ha). lia.
    + intros j a Hj Ha. apply bool_decide_eq_true.
      destruct (Habove j a Hj Ha). lia.
Qed.

(** C1, as stated, fails: after [addStuckRange(1)], [addSlippedRange(3)],
    [addStuckRange(3)] the arguments never decrease and 3 was passed to
    [addStuckRange], yet [fixedBySlipped(slippedByFixed(3))] is 1. *)
Lemma roundTrip_lost_behind_slipped_tail :
  nonDecreasingFrom 0 [AddStuckRange 1; AddSlippedRange 3; AddStuckRange 3]
  /\ In (AddStuckRange 3) [AddStuckRange 1; AddSlippedRange 3; AddStuckRange 3]
  /\ slippedByFixed 3
       (built [AddStuckRange 1; AddSlippedRange 3; AddStuckRange 3]) = Some 1
  /\ fixedBySlipped 1
       (built [AddStuckRange 1; AddSlippedRange 3; AddStuckRange 3]) = Some 1
  /\ ~ roundTrips
         (built [AddStuckRange 1; AddSlippedRange 3; AddStuckRange 3]) 3.
Proof.
  split; [simpl; lia|]. split; [simpl; tauto|].
  split; [reflexivity|]. split; [reflexivity|].
  intros (s & Hs & Hf). vm_compute in Hs. injection Hs as <-.
  vm_compute in Hf. discriminate.
Qed.

(** C1, amended.  For every sequence of [addStuckRange] and
    [addSlippedRange] calls on a fresh map whose arguments are non-negative
    offsets that never decrease, and in which every [addStuckRange] call
    that opens a new range behind a slipped tail (the last range has
    [endFixed != endStuckFixed]) passes an offset strictly greater than
    [getMaxFixed()], every offset [f] passed to [addStuckRange] satisfies
    [fixedBySlipped(slippedByFixed(f)) == f] on the resulting map. *)
Theorem roundTrip_of_registered_offsets (calls : list Call) (f : Z) :
  advancing 0 [] calls ->
  In (AddStuckRange f) calls ->
  roundTrips (built calls) f.
Proof.
  intros Hadv Hin.
  destruct (built_registered calls 0 [] ltac:(lia) ltac:(reflexivity)
              (Linked_nil _) Hadv) as (HL & _ & Hreg).
  apply registered_roundTrips; [exact HL|]. apply Hreg. exact Hin.
Qed.

Lemma roundTrip_of_registered_offsets_witness :
  roundTrips
    (built [AddStuckRange 0; AddStuckRange 1; AddSlippedRange 3;
            AddStuckRange 4; AddSlippedRange 4; AddStuckRange 6]) 4.
Proof.
  apply roundTrip_of_registered_offsets.
  - vm_compute. repeat split; try discriminate; try (intros _; reflexivity).
  - simpl. tauto.
Defined.

(** ** SlipMap: addStuckRange *)

(** C3, as stated, fails: on the map left by [addStuckRange(1)],
    [addSlippedRange(3)], whose last range has a slipped tail,
    [addStuckRange(4)] opens the range (4, 4, 2), not (4, 4, 4). *)
Lemma addStuckRange_new_range_keeps_slipped_count :
  addStuckRange 4 (built [AddStuckRange 1; AddSlippedRange 3])
    = [mkSlipRange 1 3 1; mkSlipRange 4 4 2]
  /\ addStuckRangeAsSpecified 4 (built [AddStuckRange 1; AddSlippedRange 3])
     = [mkSlipRange 1 3 1; mkSlipRange 4 4 4]
  /\ addStuckRange 4 (built [AddStuckRange 1; AddSlippedRange 3])
     <> addStuckRangeAsSpecified 4 (built [AddStuckRange 1; AddSlippedRange 3]).
Proof.
  split; [reflexivity|]. split; [reflexivity|].
  intros H. vm_compute in H. discriminate.
Qed.

(** C3, amended.  [addStuckRange(endFixed)] on an empty map opens the range
    (endFixed, endFixed, endFixed).  On a map whose last range has
    [endFixed == endStuckFixed] it extends the three fields of that range by
    the same delta [endFixed - old endFixed].  Otherwise it appends a range
    whose [endStuckFixed] and [endFixed] equal [endFixed] and whose
    [endSlipped] is the old last [endSlipped] plus that delta. *)
Theorem addStuckRange_extends_or_opens (g : Z) (init : SlipMap) (r : SlipRange) :
  addStuckRange g [] = [mkSlipRange g g g]
  /\ addStuckRange g (init ++ [r]) =
       let delta := g - endFixed r in
       if bool_decide (endFixed r = endStuckFixed r) then
         init ++ [mkSlipRange (endStuckFixed r + delta) (endFixed r + delta)
                    (endSlipped r + delta)]
       else
         (init ++ [r]) ++ [mkSlipRange g g (endSlipped r + delta)].
Proof.
  split; [apply addStuckRange_nil|].
  rewrite addStuckRange_snoc. cbv zeta.
  destruct (decide (endFixed r = endStuckFixed r)) as [Hpure|Hpure].
  - rewrite !(bool_decide_eq_true_2 _ Hpure).
    do 2 f_equal. f_equal; lia.
  - rewrite !(bool_decide_eq_false_2 _ Hpure), snoc_two.
    do 2 f_equal. f_equal; lia.
Qed.

(** ** SlipMap: the shape of the ranges *)

Lemma perform_wellShaped c prev (map : SlipMap) :
  map <> [] -> getMaxFixed map <= prev -> prev <= argument c ->
  wellShaped map ->
  getMaxFixed (perform map c) <= argument c /\ wellShaped (perform map c).
Proof.
  intros Hne Hmax Harg [Hin HL].
  destruct c as [g|g]; simpl in *; slip_cases map; try congruence; slip_step;
    rewrite getMaxFixed_snoc in Hmax;
    apply Forall_app in Hin as [Hinit Hr]; rewrite Forall_singleton in Hr.
  - destruct (decide (endFixed r = endStuckFixed r)) as [Hpure|Hpure].
    + rewrite (bool_decide_eq_true_2 _ Hpure), getMaxFixed_snoc.
      split; [simpl; lia|]. split.
      * apply Forall_app. split; [exact Hinit|].
        apply Forall_singleton. simpl. lia.
      * eapply Linked_setLast; [exact HL|]. simpl. intros a (? & ? & ?). lia.
    + rewrite (bool_decide_eq_false_2 _ Hpure), snoc_two, getMaxFixed_snoc.
      split; [simpl; lia|]. split.
      * apply Forall_app. split.
        { apply Forall_app. split; [exact Hinit|].
          apply Forall_singleton. exact Hr. }
        apply Forall_singleton. simpl. lia.
      * eapply Linked_snoc; [exact HL|apply last_snoc|]. simpl. lia.
  - split; [simpl; lia|]. split.
    + apply Forall_app. split; [exact Hinit|].
      apply Forall_singleton. simpl. lia.
    + eapply Linked_setLast; [exact HL|]. simpl. intros a (? & ? & ?). lia.
Qed.

Lemma built_wellShaped calls : forall prev (map : SlipMap),
  map <> [] -> getMaxFixed map <= prev -> wellShaped map ->
  nonDecreasingFrom prev calls ->
  wellShaped (foldl perform map calls).
Proof.
  induction calls as [|c calls IH]; intros prev map Hne Hmax Hshape Hcalls.
  - exact Hshape.
  - destruct Hcalls as [Harg Hrest]. rewrite foldl_perform_cons.
    destruct (perform_wellShaped c prev map Hne Hmax Harg Hshape)
      as [Hmax' Hshape'].
    apply (IH (argument c)); [apply perform_nonempty|assumption..].
Qed.

(** C5 fails on the code at [addSlippedRange(5)] called on a fresh map: the
    single argument never decreases, and the map holds the range (5, 0, 0),
    whose [endStuckFixed] exceeds its [endFixed]. *)
Theorem addSlippedRange_first_breaks_shape :
  nonDecreasingFrom 0 [AddSlippedRange 5]
  /\ built [AddSlippedRange 5] = [mkSlipRange 5 0 0]
  /\ ~ wellShaped (built [AddSlippedRange 5]).
Proof.
  split; [simpl; lia|]. split; [reflexivity|].
  intros [Hin _]. apply Forall_inv in Hin. simpl in Hin. lia.
Qed.

(** C10.  For every [n > 0], [addSlippedRange(n)] as the first call on an
    empty map leaves the single range (n, 0, 0): [getMaxFixed()] is 0 and
    [endStuckFixed] exceeds [endFixed], so the map is not well shaped.  When
    the first call is [addStuckRange], as in the [Styler] constructor, and
    the arguments never decrease, the map is well shaped. *)
Theorem addSlippedRange_first_shape (n a : Z) (calls : list Call) :
  0 < n ->
  nonDecreasingFrom a calls ->
  built [AddSlippedRange n] = [mkSlipRange n 0 0]
  /\ getMaxFixed (built [AddSlippedRange n]) = 0
  /\ Forall (fun r => endFixed r < endStuckFixed r) (built [AddSlippedRange n])
  /\ ~ wellShaped (built [AddSlippedRange n])
  /\ wellShaped (built (AddStuckRange a :: calls)).
Proof.
  intros Hn Hcalls.
  split; [reflexivity|]. split; [reflexivity|]. split; [|split].
  - apply Forall_singleton. simpl. exact Hn.
  - intros [Hin _]. apply Forall_inv in Hin. simpl in Hin. lia.
  - unfold built. rewrite foldl_perform_cons. simpl perform.
    rewrite addStuckRange_nil.
    apply (built_wellShaped calls a); [discriminate|simpl; reflexivity| |exact Hcalls].
    split; [apply Forall_singleton; simpl; lia|apply Linked_singleton].
Qed.

Lemma addSlippedRange_first_shape_witness :
  built [AddSlippedRange 5] = [mkSlipRange 5 0 0]
  /\ getMaxFixed (built [AddSlippedRange 5]) = 0
  /\ Forall (fun r => endFixed r < endStuckFixed r) (built [AddSlippedRange 5])
  /\ ~ wellShaped (built [AddSlippedRange 5])
  /\ wellShaped
       (built [AddStuckRange 0; AddStuckRange 1; AddSlippedRange 3;
               AddStuckRange 4]).
Proof.
  apply (addSlippedRange_first_shape 5 0
           [AddStuckRange 1; AddSlippedRange 3; AddStuckRange 4]).
  - lia.
  - simpl. lia.
Defined.

(** ** Break resolution *)

Section BreakRules.

Import Break.

(** C2, as stated, fails: for [first = page], [second = region] the rules as
    specified answer [region], the code answers [page]; for
    [first = column], [second = region] they answer [column], the code
    [region]. *)
Lemma resolveEffectiveBreakValue_region_case :
  resolveEffectiveBreakValue (directive (Some page)) (directive (Some region))
    = directive (Some page)
  /\ rulesInPriorityOrder regionCaseAsSpecified
       (directive (Some page)) (directive (Some region))
     = directive (Some region)
  /\ resolveEffectiveBreakValue (directive (Some column))
       (directive (Some region)) = directive (Some region)
  /\ rulesInPriorityOrder regionCaseAsSpecified
       (directive (Some column)) (directive (Some region))
     = directive (Some column)
  /\ ~ (forall first second,
          resolveEffectiveBreakValue (directive first) (directive second)
          = rulesInPriorityOrder regionCaseAsSpecified
              (directive first) (directive second)).
Proof.
  repeat (split; [vm_compute; reflexivity|]).
  intros H. specialize (H (Some page) (Some region)).
  vm_compute in H. discriminate.
Qed.

(** C2, amended.  For every pair of values of the break domain,
    [resolveEffectiveBreakValue(first, second)] is the result of the five
    rules in priority order, where rule 2, when [second == region], returns
    [first] unless [first == column], in which case it returns [second].
    In particular [resolveEffectiveBreakValue(avoid, left) == left] and
    [resolveEffectiveBreakValue(left, page) == left]. *)
Theorem resolveEffectiveBreakValue_rules :
  (forall first second : option BreakIdent,
     resolveEffectiveBreakValue (directive first) (directive second)
     = rulesInPriorityOrder regionCaseOfSource
         (directive first) (directive second))
  /\ resolveEffectiveBreakValue (directive (Some avoid)) (directive (Some left))
     = directive (Some left)
  /\ resolveEffectiveBreakValue (directive (Some left)) (directive (Some page))
     = directive (Some left).
Proof.
  split; [|split; vm_compute; reflexivity].
  intros [[]|] [[]|]; vm_compute; reflexivity.
Qed.

End BreakRules.

(** ** Styler.registerForcedBreakOffset *)

Lemma registerForcedBreakOffset_flows bv off fn (s : Styler.t) flow :
  Styler.flows s !! fn = Some flow ->
  exists s',
    Styler.registerForcedBreakOffset bv off fn s = Some s'
    /\ Styler.objects s' = Styler.objects s
    /\ Styler.boxStack s' = Styler.boxStack s
    /\ Styler.flows s' =
         if Break.isForcedBreakValue bv
            && match last (Flow.forcedBreakOffsets flow) with
               | None => true
               | Some l => bool_decide (l < off)
               end
         then <[fn := Flow.mk (Flow.flowName flow) (Flow.parentFlowName flow)
                        (Flow.forcedBreakOffsets flow ++ [off])]>
                (Styler.flows s)
         else Styler.flows s.
Proof.
  intros Hflow. unfold Styler.registerForcedBreakOffset.
  destruct (Break.isForcedBreakValue bv); simpl.
  - rewrite Hflow. simpl.
    destruct (Flow.forcedBreakOffsets flow) as [|x l] eqn:Hoffsets
      using rev_ind.
    + simpl. eexists. repeat split; reflexivity.
    + rewrite last_snoc. simpl.
      rewrite length_app. simpl.
      rewrite (bool_decide_eq_false_2 (_ = 0%nat)) by lia. simpl.
      destruct (bool_decide (x < off)); simpl; eexists; repeat split;
        reflexivity.
  - eexists. repeat split; reflexivity.
Qed.

Lemma Linked_lt_snoc (l : list Z) (x : Z) :
  Linked Z.lt l ->
  match last l with
  | None => True
  | Some y => y < x
  end ->
  Linked Z.lt (l ++ [x]).
Proof.
  intros HL Hlast. destruct (last l) as [y|] eqn:Hy.
  - apply (Linked_snoc Z.lt l y x HL Hy Hlast).
  - apply last_None in Hy. subst l. apply Linked_singleton.
Qed.

Lemma registerForcedBreakOffset_keeps_flows bv off fn (s s' : Styler.t) x :
  Styler.registerForcedBreakOffset bv off fn s = Some s' ->
  is_Some (Styler.flows s !! x) -> is_Some (Styler.flows s' !! x).
Proof.
  unfold Styler.registerForcedBreakOffset. intros Hreg Hx.
  destruct (Break.isForcedBreakValue bv); simpl in Hreg.
  - destruct (Styler.flows s !! fn) as [flow|] eqn:Hflow; [|discriminate].
    simpl in Hreg.
    destruct (_ || _); injection Hreg as <-; simpl; [|exact Hx].
    destruct (decide (fn = x)) as [->|Hne].
    + rewrite lookup_insert_eq. eauto.
    + rewrite lookup_insert_ne by exact Hne. exact Hx.
  - injection Hreg as <-. exact Hx.
Qed.

(** C9.  For every flow whose list of forced-break offsets is strictly
    increasing (as the empty list of a new flow is) and every sequence of
    [registerForcedBreakOffset] calls that name existing flows, the calls
    return, and afterwards the flow has the same name and parent, its list is
    the old list followed by the offsets of exactly those calls that named
    the flow with a forced break value and an offset greater than the last
    entry at that moment (or with the list empty); so the old list is a
    prefix of the new one, and the new one is strictly increasing. *)
Theorem forcedBreakOffsets_append_only (calls : list RegisterCall)
    (s : Styler.t) (name : string) (flow : Flow.t) :
  Styler.flows s !! name = Some flow ->
  Linked Z.lt (Flow.forcedBreakOffsets flow) ->
  Forall (fun c => is_Some (Styler.flows s !! callFlowName c)) calls ->
  exists s' flow',
    registerAll calls s = Some s'
    /\ Styler.flows s' !! name = Some flow'
    /\ Flow.flowName flow' = Flow.flowName flow
    /\ Flow.parentFlowName flow' = Flow.parentFlowName flow
    /\ Flow.forcedBreakOffsets flow'
       = offsetsAfter name calls (Flow.forcedBreakOffsets flow)
    /\ Flow.forcedBreakOffsets flow `prefix_of` Flow.forcedBreakOffsets flow'
    /\ Linked Z.lt (Flow.forcedBreakOffsets flow').
Proof.
  revert s flow.
  induction calls as [|[bv off fn] calls IH]; intros s flow Hflow Hsorted Hcalls.
  - exists s, flow. simpl. repeat split; try reflexivity; assumption.
  - apply Forall_cons in Hcalls as [[target Htarget] Hrest]. simpl in Htarget.
    destruct (registerForcedBreakOffset_flows bv off fn s target Htarget)
      as (s1 & Hreg & _ & _ & Hflows1).
    assert (Hrest1 : Forall
              (fun c => is_Some (Styler.flows s1 !! callFlowName c)) calls).
    { eapply Forall_impl; [exact Hrest|]. intros c Hc.
      eapply registerForcedBreakOffset_keeps_flows; [exact Hreg|exact Hc]. }
    cbn [registerAll offsetsAfter callBreakValue callOffset callFlowName].
    rewrite Hreg. simpl.
    destruct (decide (fn = name)) as [->|Hne].
    + rewrite Htarget in Hflow. injection Hflow as ->.
      rewrite (bool_decide_eq_true_2 _ eq_refl). simpl.
      destruct (Break.isForcedBreakValue bv
                && match last (Flow.forcedBreakOffsets flow) with
                   | Some l => bool_decide (l < off)
                   | None => true
                   end) eqn:Hcond.
      * set (flow1 := Flow.mk (Flow.flowName flow) (Flow.parentFlowName flow)
                        (Flow.forcedBreakOffsets flow ++ [off])) in *.
        assert (Hflow1 : Styler.flows s1 !! name = Some flow1).
        { rewrite Hflows1. apply lookup_insert_eq. }
        assert (Hsorted1 : Linked Z.lt (Flow.forcedBreakOffsets flow1)).
        { apply Linked_lt_snoc; [exact Hsorted|].
          apply andb_true_iff in Hcond as [_ Hlast].
          destruct (last (Flow.forcedBreakOffsets flow)); [|exact I].
          apply bool_decide_eq_true in Hlast. exact Hlast. }
        destruct (IH s1 flow1 Hflow1 Hsorted1 Hrest1)
          as (s' & flow' & Hall & Hflow' & Hname & Hparent & Hoffsets
              & Hprefix & Hsorted').
        exists s', flow'. repeat split; try assumption.
        etrans; [|exact Hprefix]. apply prefix_app_r. reflexivity.
      * assert (Hflow1 : Styler.flows s1 !! name = Some flow).
        { rewrite Hflows1. exact Htarget. }
        destruct (IH s1 flow Hflow1 Hsorted Hrest1)
          as (s' & flow' & Hall & Hflow' & Hname & Hparent & Hoffsets
              & Hprefix & Hsorted').
        exists s', flow'. repeat split; assumption.
    + rewrite (bool_decide_eq_false_2 _ Hne). simpl.
      assert (Hflow1 : Styler.flows s1 !! name = Some flow).
      { rewrite Hflows1. destruct (_ && _); [|exact Hflow].
        rewrite lookup_insert_ne by exact Hne. exact Hflow. }
      destruct (IH s1 flow Hflow1 Hsorted Hrest1)
        as (s' & flow' & Hall & Hflow' & Hname & Hparent & Hoffsets
            & Hprefix & Hsorted').
      exists s', flow'. repeat split; assumption.
Qed.

(** ** BoxStack.nearestBlockStartOffset *)

(** The loop over indices is the walk over the boxes below index [n],
    nearest first; the flow of the box just below an ancestor is the flow
    of the box the walk started from. *)
Lemma walkUp_walkAncestors (stack : list Box.t) (n : nat) :
  (n <= length stack)%nat ->
  forall box,
    BoxStack.walkUp stack n box
    = walkAncestors boundaryOfSource (Box.flowName box) box
        (reverse (take n stack)).
Proof.
  induction n as [|i IH]; intros Hn box.
  - rewrite take_0. reflexivity.
  - destruct (lookup_lt_is_Some_2 stack i) as [parent Hparent]; [lia|].
    rewrite (take_S_r _ _ _ Hparent), reverse_snoc.
    cbn [BoxStack.walkUp walkAncestors]. rewrite Hparent. simpl.
    destruct (decide (Box.flowName parent = Box.flowName box)) as [Hflow|Hflow].
    + rewrite !(bool_decide_eq_false_2 (_ <> _)) by (intros Hne; exact (Hne Hflow)).
      destruct (Box.atBlockStart parent); [|reflexivity]. simpl.
      destruct (Box.isRoot parent); [reflexivity|].
      rewrite IH by lia. rewrite Hflow. reflexivity.
    + rewrite !(bool_decide_eq_true_2 (_ <> _)) by exact Hflow. reflexivity.
Qed.

Lemma walkAncestors_None atFlowBoundary flow ancestors : forall below,
  walkAncestors atFlowBoundary flow below ancestors = None
  <-> Forall (fun a => Box.flowName a = flow
                       /\ Box.atBlockStart a = true
                       /\ Box.isRoot a = false) ancestors.
Proof.
  induction ancestors as [|a rest IH]; intros below; simpl.
  - split; [constructor|reflexivity].
  - rewrite Forall_cons. case_bool_decide as Hflow.
    + split; [discriminate|]. intros [(Heq & _) _]. contradiction.
    + destruct (Box.atBlockStart a); simpl.
      * destruct (Box.isRoot a).
        -- split; [discriminate|]. intros [(_ & _ & ?) _]. discriminate.
        -- rewrite IH. tauto.
      * split; [discriminate|]. intros [(_ & ? & _) _]. discriminate.
Qed.

Lemma nearestBlockStartOffset_ancestors (box : Box.t) (s : BoxStack.t) :
  BoxStack.nearestBlockStartOffset box s = nearestByRule boundaryOfSource box s.
Proof.
  unfold BoxStack.nearestBlockStartOffset, nearestByRule, ancestorsOf.
  destruct (Box.atBlockStart box); [simpl|reflexivity].
  destruct (last (BoxStack.stack s)) as [top|] eqn:Htop.
  - case_bool_decide.
    + rewrite walkUp_walkAncestors by lia.
      rewrite removelast_firstn_len. reflexivity.
    + rewrite walkUp_walkAncestors by lia. rewrite firstn_all. reflexivity.
  - rewrite walkUp_walkAncestors by lia. rewrite firstn_all. reflexivity.
Qed.

(** C6, amended.  [nearestBlockStartOffset(box)] returns [box]'s own offset
    if [box] is not at block start.  Otherwise it walks upward through the
    stack (skipping [box] itself if it is the last box) while each ancestor
    shares [box]'s flow, is at block start and is not the root; it returns
    the offset of the first ancestor that is not at block start or is the
    root, and at an ancestor of another flow it returns the offset of the
    box just below that ancestor in the walk ([box] itself if the ancestor
    is the first one).  It throws if and only if the walk exhausts the
    stack. *)
Theorem nearestBlockStartOffset_rule (box : Box.t) (s : BoxStack.t) :
  BoxStack.nearestBlockStartOffset box s = nearestByRule boundaryOfSource box s
  /\ (BoxStack.nearestBlockStartOffset box s = None
      <-> Box.atBlockStart box = true
          /\ Forall (fun a => Box.flowName a = Box.flowName box
                              /\ Box.atBlockStart a = true
                              /\ Box.isRoot a = false) (ancestorsOf box s)).
Proof.
  split; [apply nearestBlockStartOffset_ancestors|].
  rewrite nearestBlockStartOffset_ancestors. unfold nearestByRule.
  destruct (Box.atBlockStart box); simpl.
  - rewrite walkAncestors_None. tauto.
  - split; [discriminate|]. intros [? _]. discriminate.
Qed.

(** C6, as stated, fails: push the root box in flow [body] at offset 0, then
    a box that starts the flow [footnote] at offset 1.  The second box is at
    block start and its only ancestor is in another flow; the code answers
    the box's own offset 1, the walk as specified the ancestor's offset 0. *)
Lemma nearestBlockStartOffset_at_flow_boundary :
  exists root s1 o1 note s2 o2,
    BoxStack.push exampleBlockStyle 0 true (Some 0%nat) BoxStack.create
      exampleChunks = Some (root, s1, o1)
    /\ BoxStack.push exampleBlockStyle 1 false (Some 1%nat) s1 o1
       = Some (note, s2, o2)
    /\ Box.atBlockStart note = true
    /\ BoxStack.nearestBlockStartOffset note s2 = Some 1
    /\ nearestByRule boundaryAsSpecified note s2 = Some 0
    /\ BoxStack.nearestBlockStartOffset note s2
       <> nearestByRule boundaryAsSpecified note s2.
Proof.
  do 6 eexists.
  split; [vm_compute; reflexivity|].
  split; [vm_compute; reflexivity|].
  split; [vm_compute; reflexivity|].
  split; [vm_compute; reflexivity|].
  split; [vm_compute; reflexivity|].
  vm_compute. discriminate.
Qed.

(** ** Box: the write-once caches *)

Lemma setStyleValues_same (b : Box.t) :
  Box.setStyleValues (Box.styleValues b) b = b.
Proof. destruct b. reflexivity. Qed.

(** [styleValue] answers from the cache when the name is in it, from the
    style otherwise, and changes nothing but the cache. *)
Lemma styleValue_eq name d (b : Box.t) :
  Box.styleValue name d b
  = (valueRead b name d, Box.setStyleValues (cacheAfter b name d) b).
Proof.
  unfold Box.styleValue, valueRead, cacheAfter, declared.
  destruct (Box.styleValues b !! name); simpl.
  - rewrite setStyleValues_same. reflexivity.
  - reflexivity.
Qed.

Lemma cacheAfter_coherent name d (b : Box.t) :
  (forall d', readerDefault name = Some d' -> d' = d) ->
  coherent b -> coherent (Box.setStyleValues (cacheAfter b name d) b).
Proof.
  intros Hdefault (Hdisplay & Hposition & Hfloat). unfold cacheAfter.
  destruct (Box.styleValues b !! name) eqn:Hcached.
  { rewrite setStyleValues_same. repeat split; assumption. }
  unfold coherent. simpl.
  repeat split; intros v Hv;
    (apply lookup_insert_Some in Hv as [[Hname Hval]|[Hne Hv]]; [|auto]);
    subst name v; rewrite <- (Hdefault _ eq_refl); reflexivity.
Qed.

Lemma valueRead_coherent name d (b : Box.t) :
  readerDefault name = Some d ->
  coherent b -> valueRead b name d = declared (Box.style b) name d.
Proof.
  intros Hdefault (Hdisplay & Hposition & Hfloat). unfold valueRead.
  destruct (Box.styleValues b !! name) as [v|] eqn:Hcached; [|reflexivity].
  unfold readerDefault in Hdefault.
  repeat case_bool_decide; simplify_eq; auto.
Qed.

Lemma settled_refl (b : Box.t) : settled b b.
Proof. repeat split; auto. Qed.

Lemma settled_trans (b1 b2 b3 : Box.t) :
  settled b1 b2 -> settled b2 b3 -> settled b1 b3.
Proof.
  intros (Hs & Hr & Hp & Hh & Hb) (Hs' & Hr' & Hp' & Hh' & Hb').
  repeat split; try congruence; auto.
Qed.

Lemma hasBox_cached (b : Box.t) v :
  Box.hasBoxValue b = Some v -> Box.hasBox b = (v, b).
Proof. intros H. unfold Box.hasBox. rewrite H. reflexivity. Qed.

Lemma isBlock_cached (b : Box.t) v :
  Box.isBlockValue b = Some v -> Box.isBlock b = Some (v, b).
Proof. intros H. unfold Box.isBlock. rewrite H. reflexivity. Qed.

Lemma hasBox_settled (b : Box.t) :
  settled b (Box.hasBox b).2
  /\ Box.hasBoxValue (Box.hasBox b).2 = Some (Box.hasBox b).1.
Proof.
  unfold Box.hasBox, Box.displayValue.
  destruct (Box.hasBoxValue b) as [v|] eqn:Hcache; simpl.
  - split; [apply settled_refl|exact Hcache].
  - rewrite styleValue_eq.
    destruct (Box.isParentBoxDisplayed b) eqn:Hparent; simpl;
      (split; [|reflexivity]); repeat split; simpl; auto; congruence.
Qed.

Lemma hasBox_good (b : Box.t) :
  coherent b -> memoFromInputs b ->
  coherent (Box.hasBox b).2 /\ memoFromInputs (Box.hasBox b).2.
Proof.
  intros Hco Hmemo. unfold Box.hasBox, Box.displayValue.
  destruct (Box.hasBoxValue b) as [v|] eqn:Hcache; simpl.
  - split; [exact Hco|exact Hmemo].
  - destruct Hmemo as [Hhas Hblock]. rewrite styleValue_eq.
    destruct (Box.isParentBoxDisplayed b) eqn:Hparent; simpl.
    + split.
      * apply (cacheAfter_coherent "display" (Some Css.ident.inline) b);
          [|exact Hco].
        intros d' Hd'. unfold readerDefault in Hd'. simpl in Hd'. congruence.
      * split; simpl; [|exact Hblock].
        intros v [= <-]. unfold hasBoxOf. rewrite Hparent.
        rewrite (valueRead_coherent "display" _ b eq_refl Hco). reflexivity.
    + split; [exact Hco|]. split; simpl; [|exact Hblock].
      intros v [= <-]. unfold hasBoxOf. rewrite Hparent. reflexivity.
Qed.

(** The box [isBlock] leaves behind when it has to compute. *)
Lemma isBlock_computed (b : Box.t) :
  Box.isBlockValue b = None ->
  Box.isBlock b
  = (let b1 :=
       Box.setStyleValues (cacheAfter b "display" (Some Css.ident.inline)) b in
     let b2 := Box.setStyleValues (cacheAfter b1 "position" None) b1 in
     let b3 := Box.setStyleValues (cacheAfter b2 "float" None) b2 in
     v ← Display.isBlock (valueRead b "display" (Some Css.ident.inline))
           (valueRead b1 "position" None) (valueRead b2 "float" None)
           (Box.isRoot b);
     Some (v, Box.setIsBlockValue (Some v) b3)).
Proof.
  intros Hcache. unfold Box.isBlock, Box.displayValue. rewrite Hcache.
  rewrite !styleValue_eq. simpl. reflexivity.
Qed.

Lemma isBlock_settled (b b' : Box.t) v :
  Box.isBlock b = Some (v, b') ->
  settled b b' /\ Box.isBlockValue b' = Some v.
Proof.
  destruct (Box.isBlockValue b) as [w|] eqn:Hcache.
  - rewrite (isBlock_cached b w Hcache). intros [= <- <-].
    split; [apply settled_refl|exact Hcache].
  - rewrite (isBlock_computed b Hcache). cbv zeta.
    destruct (Display.isBlock _ _ _ _) as [w|]; [|discriminate].
    simpl. intros [= <- <-]. split; [|reflexivity].
    repeat split; simpl; auto; congruence.
Qed.

Lemma isBlock_good (b b' : Box.t) v :
  coherent b -> memoFromInputs b ->
  Box.isBlock b = Some (v, b') ->
  coherent b' /\ memoFromInputs b'.
Proof.
  intros Hco Hmemo.
  destruct (Box.isBlockValue b) as [w|] eqn:Hcache.
  - rewrite (isBlock_cached b w Hcache). intros [= <- <-].
    split; [exact Hco|exact Hmemo].
  - destruct Hmemo as [Hhas Hblock].
    rewrite (isBlock_computed b Hcache). cbv zeta.
    set (b1 := Box.setStyleValues
                 (cacheAfter b "display" (Some Css.ident.inline)) b).
    set (b2 := Box.setStyleValues (cacheAfter b1 "position" None) b1).
    set (b3 := Box.setStyleValues (cacheAfter b2 "float" None) b2).
    assert (Hco1 : coherent b1).
    { apply cacheAfter_coherent; [|exact Hco].
      intros d' Hd'. unfold readerDefault in Hd'. simpl in Hd'. congruence. }
    assert (Hco2 : coherent b2).
    { apply cacheAfter_coherent; [|exact Hco1].
      intros d' Hd'. unfold readerDefault in Hd'. simpl in Hd'. congruence. }
    assert (Hco3 : coherent b3).
    { apply cacheAfter_coherent; [|exact Hco2].
      intros d' Hd'. unfold readerDefault in Hd'. simpl in Hd'. congruence. }
    rewrite (valueRead_coherent "display" _ b eq_refl Hco).
    rewrite (valueRead_coherent "position" _ b1 eq_refl Hco1).
    rewrite (valueRead_coherent "float" _ b2 eq_refl Hco2).
    change (Box.style b1) with (Box.style b).
    change (Box.style b2) with (Box.style b).
    destruct (Display.isBlock _ _ _ _) as [w|] eqn:Hw; [|discriminate].
    simpl. intros [= <- <-]. split; [exact Hco3|].
    split; simpl; [exact Hhas|].
    intros v [= <-]. unfold isBlockOf. rewrite Hw. reflexivity.
Qed.

Lemma styleValue_settled name d (b : Box.t) :
  settled b (Box.styleValue name d b).2.
Proof. rewrite styleValue_eq. repeat split; auto. Qed.

Lemma wellCached_refl (b : Box.t) : wellCached b b.
Proof. split; [apply settled_refl|auto]. Qed.

Lemma wellCached_trans (b1 b2 b3 : Box.t) :
  wellCached b1 b2 -> wellCached b2 b3 -> wellCached b1 b3.
Proof.
  intros [Hs Hg] [Hs' Hg']. split; [eapply settled_trans; eassumption|auto].
Qed.

Lemma hasBox_wellCached (b : Box.t) : wellCached b (Box.hasBox b).2.
Proof.
  split; [apply hasBox_settled|]. intros [? ?]. apply hasBox_good; assumption.
Qed.

Lemma isBlock_wellCached (b b' : Box.t) v :
  Box.isBlock b = Some (v, b') -> wellCached b b'.
Proof.
  intros H. split; [apply (isBlock_settled b b' v H)|].
  intros [? ?]. apply (isBlock_good b b' v); assumption.
Qed.

Lemma break_name_not_read edge :
  readerDefault ("break-" +:+ edge) = None.
Proof.
  unfold readerDefault.
  rewrite !bool_decide_eq_false_2; [reflexivity|discriminate..].
Qed.

Lemma styleValue_wellCached name d (b : Box.t) :
  readerDefault name = None -> wellCached b (Box.styleValue name d b).2.
Proof.
  intros Hname. split; [apply styleValue_settled|].
  intros [Hco Hmemo]. rewrite styleValue_eq. simpl. split.
  - apply cacheAfter_coherent; [|exact Hco]. rewrite Hname. discriminate.
  - exact Hmemo.
Qed.

Lemma getBreakValue_wellCached edge (b b' : Box.t) r :
  Box.getBreakValue edge b = Some (r, b') ->
  wellCached b b' /\ is_Some (Box.isBlockValue b').
Proof.
  unfold Box.getBreakValue. intros H.
  destruct (Box.isBlock b) as [[block b1]|] eqn:Hblock; [|discriminate].
  simpl in H.
  destruct (isBlock_settled b b1 block Hblock) as [_ Hcache].
  pose proof (isBlock_wellCached b b1 block Hblock) as Hw1.
  destruct block.
  - pose proof (styleValue_wellCached ("break-" +:+ edge) None b1
                  (break_name_not_read edge)) as Hw2.
    destruct (Box.styleValue ("break-" +:+ edge) None b1) as [val b2].
    simpl in *. injection H as _ <-.
    split; [eapply wellCached_trans; eassumption|].
    destruct Hw2 as [(_ & _ & _ & _ & Hkeep) _]. rewrite (Hkeep _ Hcache).
    eauto.
  - injection H as _ <-. split; [exact Hw1|]. rewrite Hcache. eauto.
Qed.

Lemma setBreakBefore_wellCached v (b : Box.t) :
  wellCached b (Box.setBreakBefore v b).
Proof. split; [repeat split; auto|auto]. Qed.

Lemma setBeforeBox_wellCached v (b : Box.t) :
  wellCached b (Box.setBeforeBox v b).
Proof. split; [repeat split; auto|auto]. Qed.

Lemma setAfterBox_wellCached v (b : Box.t) :
  wellCached b (Box.setAfterBox v b).
Proof. split; [repeat split; auto|auto]. Qed.



(** ** Box: the constructor, step by step *)

(** The phases of [new Box(...)]: the fresh object, [hasBox()], the
    [::before] box when there is one, the fold of the break-before values,
    and the write to the chunk when the box is at flow start with a forced
    break. *)
Lemma construct_inv style offset isRoot fc abs afs ipd (o : Objects.t)
    (b : Box.t) (o' : Objects.t) :
  Box.construct style offset isRoot fc abs afs ipd o = Some (b, o') ->
  exists chunk this2 o2 own this3,
    let o1 := Objects.mk (Objects.flowChunks o) (S (Objects.boxesCreated o)) in
    let this0 :=
      Box.mk (Objects.boxesCreated o) style offset isRoot fc abs afs ipd
        (FlowChunk.flowName chunk) None None ∅ None None None in
    let this1 := (Box.hasBox this0).2 in
    Objects.chunk fc o = Some chunk
    /\ ((this2 = this1 /\ o2 = o1)
        \/ exists beforeStyle block this1' beforeBox,
             CssCascade.pseudoBefore style = Some beforeStyle
             /\ Box.isBlock this1 = Some (block, this1')
             /\ Box.construct beforeStyle offset false fc block afs true o1
                = Some (beforeBox, o2)
             /\ (this2 = this1'
                 \/ exists before' breakBefore',
                      this2 = Box.setBreakBefore breakBefore'
                                (Box.setBeforeBox (Some before') this1')))
    /\ Box.getBreakValue "before" this2 = Some (own, this3)
    /\ b = Box.setBreakBefore
             (Break.resolveEffectiveBreakValue own (Box.breakBefore this3))
             this3
    /\ (o' = o2
        \/ exists chunk0,
             Objects.chunk fc o2 = Some chunk0
             /\ o' = Objects.writeBreakBefore fc
                       (Break.resolveEffectiveBreakValue
                          (FlowChunk.breakBefore chunk0) (Box.breakBefore b))
                       o2).
Proof.
  intros H. destruct style as [decls before after].
  cbn [Box.construct Objects.allocateBox] in H.
  match type of H with
  | (Objects.chunk fc ?x ≫= _) = _ =>
      change (Objects.chunk fc x) with (Objects.chunk fc o) in H
  end.
  destruct (Objects.chunk fc o) as [chunk|] eqn:Hchunk; [|discriminate].
  cbn [mbind option_bind] in H.
  match type of H with
  | context [Box.hasBox ?x] => set (this0 := x) in *
  end.
  destruct (Box.hasBox this0) as [has this1] eqn:Hhas.
  match type of H with
  | (?mid ≫= _) = _ => destruct mid as [[this2 o2]|] eqn:Hmid
  end; [|discriminate].
  cbn [mbind option_bind] in H.
  destruct (Box.getBreakValue "before" this2) as [[own this3]|] eqn:Hown;
    [|discriminate].
  cbn [mbind option_bind] in H.
  exists chunk, this2, o2, own, this3. cbv zeta.
  fold this0. rewrite Hhas. cbn [snd].
  split; [reflexivity|]. split; [|split; [exact Hown|]].
  - destruct has; [|injection Hmid as <- <-; left; split; reflexivity].
    cbn [CssCascade.pseudoBefore] in Hmid.
    destruct before as [beforeStyle|];
      [|injection Hmid as <- <-; left; split; reflexivity].
    destruct (Box.isBlock this1) as [[block this1']|] eqn:Hblock;
      [|discriminate].
    cbn [mbind option_bind] in Hmid.
    destruct (Box.construct beforeStyle offset false fc block afs true _)
      as [[beforeBox ob]|] eqn:Hbefore; [|discriminate].
    cbn [mbind option_bind] in Hmid.
    destruct (Box.styleValue "content" None beforeBox)
      as [beforeContent beforeBox0].
    right. exists beforeStyle, block, this1', beforeBox.
    split; [reflexivity|]. split; [reflexivity|].
    destruct (Vtree.nonTrivialContent beforeContent);
      injection Hmid as <- <-; (split; [exact Hbefore|]).
    + right. eauto.
    + left. reflexivity.
  - destruct (_ && _).
    + destruct (Objects.chunk fc o2) as [chunk0|] eqn:Hchunk0; [|discriminate].
      cbn [mbind option_bind] in H. injection H as <- <-.
      split; [reflexivity|]. right. exists chunk0. split; reflexivity.
    + injection H as <- <-. split; [reflexivity|]. left. reflexivity.
Qed.

Lemma fresh_box_wellCached self style offset isRoot fc abs afs ipd name :
  let this0 :=
    Box.mk self style offset isRoot fc abs afs ipd name None None ∅
      None None None in
  coherent this0 /\ memoFromInputs this0.
Proof.
  cbv zeta. split.
  - repeat split; simpl; intros v Hv; rewrite lookup_empty in Hv;
      discriminate.
  - split; simpl; intros v Hv; discriminate.
Qed.

(** A constructed box has both caches filled with what its inputs give. *)
Lemma construct_memo style offset isRoot fc abs afs ipd (o : Objects.t)
    (b : Box.t) (o' : Objects.t) :
  Box.construct style offset isRoot fc abs afs ipd o = Some (b, o') ->
  Box.hasBoxValue b = Some (hasBoxOf style ipd)
  /\ exists v, isBlockOf style isRoot = Some v /\ Box.isBlockValue b = Some v.
Proof.
  intros H.
  destruct (construct_inv _ _ _ _ _ _ _ _ _ _ H)
    as (chunk & this2 & o2 & own & this3 & Hinv).
  cbv zeta in Hinv. destruct Hinv as (_ & Hmid & Hown & Hb & _).
  match type of Hmid with
  | context [Box.hasBox ?x] => set (this0 := x) in *
  end.
  pose proof (fresh_box_wellCached (Objects.boxesCreated o) style offset
                isRoot fc abs afs ipd (FlowChunk.flowName chunk)) as Hfresh.
  cbv zeta in Hfresh. fold this0 in Hfresh.
  pose proof (hasBox_wellCached this0) as Hw1.
  destruct (hasBox_settled this0) as [_ Hhas1].
  assert (Hw2 : wellCached (Box.hasBox this0).2 this2).
  { destruct Hmid as [[-> _]|(beforeStyle & block & this1' & beforeBox
                               & _ & Hblock & _ & Hthis2)].
    - apply wellCached_refl.
    - pose proof (isBlock_wellCached _ _ _ Hblock) as Hw.
      destruct Hthis2 as [->|(before' & breakBefore' & ->)]; [exact Hw|].
      eapply wellCached_trans; [exact Hw|].
      eapply wellCached_trans;
        [apply setBeforeBox_wellCached|apply setBreakBefore_wellCached]. }
  destruct (getBreakValue_wellCached _ _ _ _ Hown) as [Hw3 [w Hblock3]].
  assert (Hw : wellCached this0 b).
  { subst b. eapply wellCached_trans; [exact Hw1|].
    eapply wellCached_trans; [exact Hw2|].
    eapply wellCached_trans; [exact Hw3|apply setBreakBefore_wellCached]. }
  destruct Hw as [(Hstyle & Hroot & Hparent & _ & _) Hgood].
  destruct (Hgood Hfresh) as [_ [Hmemo1 Hmemo2]].
  assert (Hhasb : Box.hasBoxValue b = Some (Box.hasBox this0).1).
  { subst b. simpl.
    destruct Hw3 as [(_ & _ & _ & Hkeep3 & _) _]. apply Hkeep3.
    destruct Hw2 as [(_ & _ & _ & Hkeep2 & _) _]. apply Hkeep2.
    exact Hhas1. }
  assert (Hblockb : Box.isBlockValue b = Some w).
  { subst b. simpl. exact Hblock3. }
  split.
  - rewrite Hhasb. f_equal.
    rewrite (Hmemo1 _ Hhasb), Hstyle, Hparent. reflexivity.
  - exists w. split; [|exact Hblockb].
    rewrite (Hmemo2 _ Hblockb), Hstyle, Hroot. reflexivity.
Qed.



(** ** FlowChunk: what the core may change *)

Lemma sameButBreakBefore_refl (c : FlowChunk.t) : sameButBreakBefore c c.
Proof. repeat split. Qed.

Lemma sameButBreakBefore_trans (c1 c2 c3 : FlowChunk.t) :
  sameButBreakBefore c1 c2 -> sameButBreakBefore c2 c3 ->
  sameButBreakBefore c1 c3.
Proof. unfold sameButBreakBefore. intuition congruence. Qed.

Lemma chunksKept_refl (o : Objects.t) : chunksKept o o.
Proof. intros ref c Hc. exists c. split; [exact Hc|apply sameButBreakBefore_refl]. Qed.

Lemma chunksKept_trans (o1 o2 o3 : Objects.t) :
  chunksKept o1 o2 -> chunksKept o2 o3 -> chunksKept o1 o3.
Proof.
  intros H12 H23 ref c Hc.
  destruct (H12 ref c Hc) as (c2 & Hc2 & Hsame2).
  destruct (H23 ref c2 Hc2) as (c3 & Hc3 & Hsame3).
  exists c3. split; [exact Hc3|].
  eapply sameButBreakBefore_trans; eassumption.
Qed.

Lemma writeBreakBefore_kept ref v (o : Objects.t) :
  chunksKept o (Objects.writeBreakBefore ref v o).
Proof.
  intros r c Hc. unfold Objects.chunk, Objects.writeBreakBefore in *. simpl.
  destruct (decide (ref = r)) as [->|Hne].
  - rewrite list_lookup_alter_eq, Hc. simpl. eexists. split; [reflexivity|].
    repeat split.
  - rewrite list_lookup_alter_ne by exact Hne.
    exists c. split; [exact Hc|apply sameButBreakBefore_refl].
Qed.

Lemma allocateBox_kept (o : Objects.t) :
  chunksKept o (Objects.mk (Objects.flowChunks o) (S (Objects.boxesCreated o))).
Proof. intros ref c Hc. exists c. split; [exact Hc|apply sameButBreakBefore_refl]. Qed.

(** Induction on a style through its [::before] style, the one the
    constructor recurses into. *)
Lemma ElementStyle_before_ind (P : CssCascade.ElementStyle -> Prop) :
  (forall decls before after,
     match before with
     | Some beforeStyle => P beforeStyle
     | None => True
     end ->
     P (CssCascade.mkElementStyle decls before after)) ->
  forall style, P style.
Proof.
  intros Hstep. fix IH 1. intros [decls before after]. apply Hstep.
  destruct before as [beforeStyle|]; [apply IH|exact I].
Qed.

Lemma construct_kept style : forall offset isRoot fc abs afs ipd
    (o : Objects.t) (b : Box.t) (o' : Objects.t),
  Box.construct style offset isRoot fc abs afs ipd o = Some (b, o') ->
  chunksKept o o'.
Proof.
  induction style as [decls before after IH] using ElementStyle_before_ind.
  intros offset isRoot fc abs afs ipd o b o' H.
  destruct (construct_inv _ _ _ _ _ _ _ _ _ _ H)
    as (chunk & this2 & o2 & own & this3 & Hinv).
  cbv zeta in Hinv. destruct Hinv as (_ & Hmid & _ & _ & Hend).
  assert (H2 : chunksKept o o2).
  { destruct Hmid as [[_ ->]|(beforeStyle & block & this1' & beforeBox
                              & Hbefore & _ & Hnew & _)].
    - apply allocateBox_kept.
    - simpl in Hbefore. subst before.
      eapply chunksKept_trans; [apply allocateBox_kept|].
      eapply IH. exact Hnew. }
  destruct Hend as [->|(chunk0 & _ & ->)]; [exact H2|].
  eapply chunksKept_trans; [exact H2|apply writeBreakBefore_kept].
Qed.

Lemma buildAfterPseudoElementBox_kept offset abs afs (b : Box.t)
    (o : Objects.t) (b' : Box.t) (o' : Objects.t) :
  Box.buildAfterPseudoElementBox offset abs afs b o = Some (b', o') ->
  chunksKept o o'.
Proof.
  unfold Box.buildAfterPseudoElementBox. intros H.
  destruct (Box.hasBox b) as [has b1].
  destruct has; [|injection H as _ <-; apply chunksKept_refl].
  destruct (CssCascade.pseudoAfter (Box.style b1)) as [afterStyle|];
    [|injection H as _ <-; apply chunksKept_refl].
  destruct (Box.construct afterStyle offset false (Box.flowChunk b1) abs afs
              true o) as [[afterBox o1]|] eqn:Hnew; [|discriminate].
  cbn [mbind option_bind] in H.
  destruct (Box.styleValue "content" None afterBox) as [content afterBox0].
  destruct (Vtree.nonTrivialContent content); injection H as _ <-;
    apply (construct_kept _ _ _ _ _ _ _ _ _ _ Hnew).
Qed.

Lemma push_kept style offset isRoot newFlowChunk (s : BoxStack.t)
    (o : Objects.t) (box : Box.t) (s' : BoxStack.t) (o' : Objects.t) :
  BoxStack.push style offset isRoot newFlowChunk s o = Some (box, s', o') ->
  chunksKept o o'.
Proof.
  unfold BoxStack.push. intros H.
  match type of H with
  | (?m ≫= _) = _ => destruct m as [atStartStack'|]
  end; [|discriminate].
  cbn [mbind option_bind] in H.
  match type of H with
  | (?m ≫= _) = _ => destruct m as [flowChunk|]
  end; [|discriminate].
  cbn [mbind option_bind] in H.
  destruct (BoxStack.isCurrentBoxDisplayed s) as [isParentBoxDisplayed s1].
  match type of H with
  | (?m ≫= _) = _ => destruct m as [[box0 o1]|] eqn:Hnew
  end; [|discriminate].
  cbn [mbind option_bind] in H.
  destruct (Box.hasBox box0) as [has box1].
  match type of H with
  | (?m ≫= _) = _ => destruct m as [[atBlockStart' box2]|]
  end; [|discriminate].
  cbn [mbind option_bind] in H.
  destruct (Box.hasBox box2) as [has2 box3].
  injection H as _ _ <-.
  apply (construct_kept _ _ _ _ _ _ _ _ _ _ Hnew).
Qed.

Lemma pop_kept offset (s : BoxStack.t) (o : Objects.t) (box : Box.t)
    (s' : BoxStack.t) (o' : Objects.t) :
  BoxStack.pop offset s o = Some (box, s', o') ->
  chunksKept o o'.
Proof.
  unfold BoxStack.pop. intros H.
  destruct (last (BoxStack.stack s)) as [box0|]; [|discriminate].
  cbn [mbind option_bind] in H.
  match type of H with
  | (?m ≫= _) = _ => destruct m as [[box1 o1]|] eqn:Hafter
  end; [|discriminate].
  cbn [mbind option_bind] in H.
  match type of H with
  | (?m ≫= _) = _ => destruct m as [[box2 o2]|] eqn:Hfold
  end; [|discriminate].
  cbn [mbind option_bind] in H.
  assert (H12 : chunksKept o1 o2).
  { destruct (Box.afterBox box1) as [afterBox|];
      [|injection Hfold as _ <-; apply chunksKept_refl].
    destruct (BoxStack.atFlowStart s);
      [|injection Hfold as _ <-; apply chunksKept_refl].
    destruct (Box.getBreakValue "before" afterBox) as [[breakBefore afterBox1]|];
      [|discriminate].
    cbn [mbind option_bind] in Hfold.
    destruct (Objects.chunk (Box.flowChunk box1) o1) as [chunk|];
      [|discriminate].
    cbn [mbind option_bind] in Hfold. injection Hfold as _ <-.
    apply writeBreakBefore_kept. }
  assert (Ho' : o' = o2).
  { destruct (last (removelast (BoxStack.stack s))) as [parent|].
    - case_bool_decide.
      + destruct (Box.hasBox box2) as [has box3].
        destruct has; injection H as _ _ <-; reflexivity.
      + destruct (last (BoxStack.atStartStack s)) as [atStart|];
          [|discriminate].
        cbn [mbind option_bind] in H. injection H as _ _ <-. reflexivity.
    - injection H as _ _ <-. reflexivity. }
  subst o'.
  eapply chunksKept_trans; [|exact H12].
  apply (buildAfterPseudoElementBox_kept _ _ _ _ _ _ _ Hafter).
Qed.

(** ** Styler: what the operations of the core keep *)

Lemma flowsGrow_refl (flows : gmap string Flow.t) : flowsGrow flows flows.
Proof. intros name flow H. exists flow. repeat split; [exact H|reflexivity]. Qed.

Lemma flowsGrow_trans (f1 f2 f3 : gmap string Flow.t) :
  flowsGrow f1 f2 -> flowsGrow f2 f3 -> flowsGrow f1 f3.
Proof.
  intros H12 H23 name flow H.
  destruct (H12 name flow H) as (flow2 & H2 & Hn2 & Hp2 & Hpre2).
  destruct (H23 name flow2 H2) as (flow3 & H3 & Hn3 & Hp3 & Hpre3).
  exists flow3. repeat split; try congruence. etrans; eassumption.
Qed.

Lemma encounteredFlowElement_kept flowName elem startOffset priority linger
    exclusive repeated last (s : Styler.t) :
  let s' := (Styler.encounteredFlowElement flowName elem startOffset priority
               linger exclusive repeated last s).2 in
  chunksKept (Styler.objects s) (Styler.objects s')
  /\ flowsGrow (Styler.flows s) (Styler.flows s').
Proof.
  cbv zeta. unfold Styler.encounteredFlowElement. simpl. split.
  - intros ref c Hc. exists c. split; [|apply sameButBreakBefore_refl].
    unfold Objects.chunk in *. simpl.
    rewrite lookup_app_l by (eapply lookup_lt_Some; exact Hc). exact Hc.
  - destruct (Styler.flows s !! flowName) as [known|] eqn:Hknown;
      [apply flowsGrow_refl|].
    destruct (JsObject.inherited flowName); [apply flowsGrow_refl|].
    intros name flow Hflow. exists flow.
    repeat split; [|reflexivity].
    rewrite lookup_insert_ne by congruence. exact Hflow.
Qed.

Lemma registerForcedBreakOffset_kept bv off fn (s s' : Styler.t) :
  Styler.registerForcedBreakOffset bv off fn s = Some s' ->
  chunksKept (Styler.objects s) (Styler.objects s')
  /\ flowsGrow (Styler.flows s) (Styler.flows s').
Proof.
  intros H.
  destruct (Break.isForcedBreakValue bv) eqn:Hforced.
  - destruct (Styler.flows s !! fn) as [target|] eqn:Htarget.
    + destruct (registerForcedBreakOffset_flows bv off fn s target Htarget)
        as (s1 & Hreg & Hobjects & _ & Hflows).
      rewrite Hreg in H. injection H as <-.
      rewrite Hobjects, Hflows. split; [apply chunksKept_refl|].
      destruct (_ && _); [|apply flowsGrow_refl].
      intros name flow Hflow. destruct (decide (fn = name)) as [->|Hne].
      * rewrite Htarget in Hflow. injection Hflow as ->.
        eexists. split; [apply lookup_insert_eq|]. simpl.
        repeat split. apply prefix_app_r. reflexivity.
      * exists flow. rewrite lookup_insert_ne by exact Hne.
        repeat split; [exact Hflow|reflexivity].
    + unfold Styler.registerForcedBreakOffset in H.
      rewrite Hforced, Htarget in H. discriminate.
  - unfold Styler.registerForcedBreakOffset in H. rewrite Hforced in H.
    simpl in H. injection H as <-. simpl.
    split; [apply chunksKept_refl|apply flowsGrow_refl].
Qed.

Lemma run_kept op (s s' : Styler.t) :
  Styler.run op s = Some s' ->
  chunksKept (Styler.objects s) (Styler.objects s')
  /\ flowsGrow (Styler.flows s) (Styler.flows s').
Proof.
  destruct op; simpl; intros H.
  - injection H as <-. apply encounteredFlowElement_kept.
  - destruct (BoxStack.push _ _ _ _ _ _) as [[[box stack'] o']|] eqn:Hpush;
      [|discriminate].
    simpl in H. injection H as <-. simpl.
    split; [|apply flowsGrow_refl].
    apply (push_kept _ _ _ _ _ _ _ _ _ Hpush).
  - destruct (BoxStack.encounteredTextNode _ _) as [stack'|]; [|discriminate].
    simpl in H. injection H as <-. simpl.
    split; [apply chunksKept_refl|apply flowsGrow_refl].
  - destruct (BoxStack.pop _ _ _) as [[[box stack'] o']|] eqn:Hpop;
      [|discriminate].
    simpl in H. injection H as <-. simpl.
    split; [|apply flowsGrow_refl].
    apply (pop_kept _ _ _ _ _ _ Hpop).
  - apply (registerForcedBreakOffset_kept _ _ _ _ _ H).
Qed.

(** ** FlowChunk: how the break-before of a chunk changes *)

Lemma resolvedInto_nil (c : FlowChunk.t) : resolvedInto [] c = c.
Proof. destruct c. reflexivity. Qed.

Lemma resolvedInto_app (a b : list (option string)) (c : FlowChunk.t) :
  resolvedInto (a ++ b) c = resolvedInto b (resolvedInto a c).
Proof. unfold resolvedInto. rewrite foldl_app. reflexivity. Qed.

Lemma resolvedInto_same (values : list (option string)) (c : FlowChunk.t) :
  sameButBreakBefore c (resolvedInto values c).
Proof. repeat split. Qed.

Lemma foldedBy_refl (P : list (option string) -> Prop) (o o' : Objects.t) :
  P [] -> Objects.flowChunks o' = Objects.flowChunks o -> foldedBy P o o'.
Proof.
  intros HP Hsame ref c Hc. exists []. split; [exact HP|].
  rewrite resolvedInto_nil. unfold Objects.chunk in *. rewrite Hsame. exact Hc.
Qed.

Lemma foldedBy_trans (P Q R : list (option string) -> Prop)
    (o1 o2 o3 : Objects.t) :
  (forall a b, P a -> Q b -> R (a ++ b)) ->
  foldedBy P o1 o2 -> foldedBy Q o2 o3 -> foldedBy R o1 o3.
Proof.
  intros HR H12 H23 ref c Hc.
  destruct (H12 ref c Hc) as (a & Ha & Hc2).
  destruct (H23 ref _ Hc2) as (b & Hb & Hc3).
  exists (a ++ b). split; [apply HR; assumption|].
  rewrite resolvedInto_app. exact Hc3.
Qed.

Lemma allForced_app (a b : list (option string)) :
  allForced a -> allForced b -> allForced (a ++ b).
Proof. intros Ha Hb. apply Forall_app. split; assumption. Qed.

Lemma writeBreakBefore_folded (P : list (option string) -> Prop) fc v
    (o : Objects.t) (chunk0 : FlowChunk.t) :
  P [] -> P [v] ->
  Objects.chunk fc o = Some chunk0 ->
  foldedBy P o
    (Objects.writeBreakBefore fc
       (Break.resolveEffectiveBreakValue (FlowChunk.breakBefore chunk0) v) o).
Proof.
  intros Hnil Hv Hchunk0 ref c Hc.
  unfold Objects.chunk, Objects.writeBreakBefore in *. simpl.
  destruct (decide (fc = ref)) as [->|Hne].
  - exists [v]. split; [exact Hv|].
    rewrite list_lookup_alter_eq, Hc. simpl.
    rewrite Hchunk0 in Hc. injection Hc as ->. reflexivity.
  - exists []. split; [exact Hnil|].
    rewrite list_lookup_alter_ne by exact Hne.
    rewrite resolvedInto_nil. exact Hc.
Qed.

(** The two places where the constructor touches the chunks: the
    constructor of the [::before] box, and the assignment at its end, which
    runs only with a forced break-before. *)
Lemma construct_writes style offset isRoot fc abs afs ipd (o : Objects.t)
    (b : Box.t) (o' : Objects.t) :
  Box.construct style offset isRoot fc abs afs ipd o = Some (b, o') ->
  exists o2,
    let o1 := Objects.mk (Objects.flowChunks o) (S (Objects.boxesCreated o)) in
    (o2 = o1
     \/ exists beforeStyle block beforeBox,
          CssCascade.pseudoBefore style = Some beforeStyle
          /\ Box.construct beforeStyle offset false fc block afs true o1
             = Some (beforeBox, o2))
    /\ (o' = o2
        \/ exists chunk0,
             Break.isForcedBreakValue (Box.breakBefore b) = true
             /\ Objects.chunk fc o2 = Some chunk0
             /\ o' = Objects.writeBreakBefore fc
                       (Break.resolveEffectiveBreakValue
                          (FlowChunk.breakBefore chunk0) (Box.breakBefore b))
                       o2).
Proof.
  intros H. destruct style as [decls before after].
  cbn [Box.construct Objects.allocateBox] in H.
  match type of H with
  | (Objects.chunk fc ?x ≫= _) = _ =>
      change (Objects.chunk fc x) with (Objects.chunk fc o) in H
  end.
  destruct (Objects.chunk fc o) as [chunk|] eqn:Hchunk; [|discriminate].
  cbn [mbind option_bind] in H.
  match type of H with
  | context [Box.hasBox ?x] => set (this0 := x) in *
  end.
  destruct (Box.hasBox this0) as [has this1] eqn:Hhas.
  match type of H with
  | (?mid ≫= _) = _ => destruct mid as [[this2 o2]|] eqn:Hmid
  end; [|discriminate].
  cbn [mbind option_bind] in H.
  destruct (Box.getBreakValue "before" this2) as [[own this3]|] eqn:Hown;
    [|discriminate].
  cbn [mbind option_bind] in H.
  exists o2. cbv zeta. split.
  - destruct has; [|injection Hmid as _ <-; left; reflexivity].
    cbn [CssCascade.pseudoBefore] in Hmid.
    destruct before as [beforeStyle|];
      [|injection Hmid as _ <-; left; reflexivity].
    destruct (Box.isBlock this1) as [[block this1']|] eqn:Hblock;
      [|discriminate].
    cbn [mbind option_bind] in Hmid.
    destruct (Box.construct beforeStyle offset false fc block afs true _)
      as [[beforeBox ob]|] eqn:Hbefore; [|discriminate].
    cbn [mbind option_bind] in Hmid.
    destruct (Box.styleValue "content" None beforeBox)
      as [beforeContent beforeBox0].
    right. exists beforeStyle, block, beforeBox.
    split; [reflexivity|].
    destruct (Vtree.nonTrivialContent beforeContent);
      injection Hmid as _ <-; exact Hbefore.
  - match type of H with
    | (if ?c then _ else _) = _ => destruct c eqn:Hcond
    end.
    + destruct (Objects.chunk fc o2) as [chunk0|] eqn:Hchunk0; [|discriminate].
      cbn [mbind option_bind] in H.
      apply andb_true_iff in Hcond as [_ Hforced].
      injection H as <- <-.
      right. exists chunk0. split; [exact Hforced|]. split; reflexivity.
    + injection H as <- <-. left. reflexivity.
Qed.

Lemma construct_folded style : forall offset isRoot fc abs afs ipd
    (o : Objects.t) (b : Box.t) (o' : Objects.t),
  Box.construct style offset isRoot fc abs afs ipd o = Some (b, o') ->
  foldedBy allForced o o'.
Proof.
  induction style as [decls before after IH] using ElementStyle_before_ind.
  intros offset isRoot fc abs afs ipd o b o' H.
  destruct (construct_writes _ _ _ _ _ _ _ _ _ _ H) as (o2 & Ho2 & Hend).
  cbv zeta in Ho2.
  assert (H2 : foldedBy allForced o o2).
  { destruct Ho2 as [->|(beforeStyle & block & beforeBox & Hbefore & Hnew)].
    - apply foldedBy_refl; [constructor|reflexivity].
    - simpl in Hbefore. subst before.
      eapply (foldedBy_trans allForced allForced allForced);
        [apply allForced_app| |eapply IH; exact Hnew].
      apply foldedBy_refl; [constructor|reflexivity]. }
  destruct Hend as [->|(chunk0 & Hforced & Hchunk0 & ->)]; [exact H2|].
  apply (foldedBy_trans allForced allForced allForced _ _ _ allForced_app H2).
  apply writeBreakBefore_folded; [constructor| |exact Hchunk0].
  apply Forall_singleton. exact Hforced.
Qed.

Lemma buildAfterPseudoElementBox_folded offset abs afs (b : Box.t)
    (o : Objects.t) (b' : Box.t) (o' : Objects.t) :
  Box.buildAfterPseudoElementBox offset abs afs b o = Some (b', o') ->
  foldedBy allForced o o'.
Proof.
  unfold Box.buildAfterPseudoElementBox. intros H.
  destruct (Box.hasBox b) as [has b1].
  destruct has;
    [|injection H as _ <-; apply foldedBy_refl; [constructor|reflexivity]].
  destruct (CssCascade.pseudoAfter (Box.style b1)) as [afterStyle|];
    [|injection H as _ <-; apply foldedBy_refl; [constructor|reflexivity]].
  destruct (Box.construct afterStyle offset false (Box.flowChunk b1) abs afs
              true o) as [[afterBox o1]|] eqn:Hnew; [|discriminate].
  cbn [mbind option_bind] in H.
  destruct (Box.styleValue "content" None afterBox) as [content afterBox0].
  destruct (Vtree.nonTrivialContent content); injection H as _ <-;
    apply (construct_folded _ _ _ _ _ _ _ _ _ _ Hnew).
Qed.

Lemma push_folded style offset isRoot newFlowChunk (s : BoxStack.t)
    (o : Objects.t) (box : Box.t) (s' : BoxStack.t) (o' : Objects.t) :
  BoxStack.push style offset isRoot newFlowChunk s o = Some (box, s', o') ->
  foldedBy allForced o o'.
Proof.
  unfold BoxStack.push. intros H.
  match type of H with
  | (?m ≫= _) = _ => destruct m as [atStartStack'|]
  end; [|discriminate].
  cbn [mbind option_bind] in H.
  match type of H with
  | (?m ≫= _) = _ => destruct m as [flowChunk|]
  end; [|discriminate].
  cbn [mbind option_bind] in H.
  destruct (BoxStack.isCurrentBoxDisplayed s) as [isParentBoxDisplayed s1].
  match type of H with
  | (?m ≫= _) = _ => destruct m as [[box0 o1]|] eqn:Hnew
  end; [|discriminate].
  cbn [mbind option_bind] in H.
  destruct (Box.hasBox box0) as [has box1].
  match type of H with
  | (?m ≫= _) = _ => destruct m as [[atBlockStart' box2]|]
  end; [|discriminate].
  cbn [mbind option_bind] in H.
  destruct (Box.hasBox box2) as [has2 box3].
  injection H as _ _ <-.
  apply (construct_folded _ _ _ _ _ _ _ _ _ _ Hnew).
Qed.

Lemma pop_folded offset (s : BoxStack.t) (o : Objects.t) (box : Box.t)
    (s' : BoxStack.t) (o' : Objects.t) :
  BoxStack.pop offset s o = Some (box, s', o') ->
  foldedBy (foldsInto (Styler.Pop offset)) o o'.
Proof.
  unfold BoxStack.pop. intros H.
  destruct (last (BoxStack.stack s)) as [box0|]; [|discriminate].
  cbn [mbind option_bind] in H.
  match type of H with
  | (?m ≫= _) = _ => destruct m as [[box1 o1]|] eqn:Hafter
  end; [|discriminate].
  cbn [mbind option_bind] in H.
  match type of H with
  | (?m ≫= _) = _ => destruct m as [[box2 o2]|] eqn:Hfold
  end; [|discriminate].
  cbn [mbind option_bind] in H.
  assert (H12 : foldedBy (fun rest => (length rest <= 1)%nat) o1 o2).
  { destruct (Box.afterBox box1) as [afterBox|];
      [|injection Hfold as _ <-; apply foldedBy_refl; [simpl; lia|reflexivity]].
    destruct (BoxStack.atFlowStart s);
      [|injection Hfold as _ <-; apply foldedBy_refl; [simpl; lia|reflexivity]].
    destruct (Box.getBreakValue "before" afterBox) as [[breakBefore afterBox1]|];
      [|discriminate].
    cbn [mbind option_bind] in Hfold.
    destruct (Objects.chunk (Box.flowChunk box1) o1) as [chunk|] eqn:Hchunk;
      [|discriminate].
    cbn [mbind option_bind] in Hfold. injection Hfold as _ <-.
    apply writeBreakBefore_folded; [simpl; lia|simpl; lia|exact Hchunk]. }
  assert (Ho' : o' = o2).
  { destruct (last (removelast (BoxStack.stack s))) as [parent|].
    - case_bool_decide.
      + destruct (Box.hasBox box2) as [has box3].
        destruct has; injection H as _ _ <-; reflexivity.
      + destruct (last (BoxStack.atStartStack s)) as [atStart|];
          [|discriminate].
        cbn [mbind option_bind] in H. injection H as _ _ <-. reflexivity.
    - injection H as _ _ <-. reflexivity. }
  subst o'.
  eapply foldedBy_trans;
    [|apply (buildAfterPseudoElementBox_folded _ _ _ _ _ _ _ Hafter)|exact H12].
  intros forced rest Hforced Hrest. exists forced, rest. auto.
Qed.

Lemma run_folded op (s s' : Styler.t) :
  Styler.run op s = Some s' ->
  foldedBy (foldsInto op) (Styler.objects s) (Styler.objects s').
Proof.
  destruct op; simpl; intros H.
  - injection H as <-. intros ref c Hc. exists []. split; [reflexivity|].
    rewrite resolvedInto_nil.
    unfold Styler.encounteredFlowElement, Objects.chunk in *. simpl.
    rewrite lookup_app_l by (eapply lookup_lt_Some; exact Hc). exact Hc.
  - destruct (BoxStack.push _ _ _ _ _ _) as [[[box stack'] o']|] eqn:Hpush;
      [|discriminate].
    simpl in H. injection H as <-. simpl.
    apply (push_folded _ _ _ _ _ _ _ _ _ Hpush).
  - destruct (BoxStack.encounteredTextNode _ _) as [stack'|]; [|discriminate].
    simpl in H. injection H as <-. simpl.
    apply foldedBy_refl; reflexivity.
  - destruct (BoxStack.pop _ _ _) as [[[box stack'] o']|] eqn:Hpop;
      [|discriminate].
    simpl in H. injection H as <-. simpl.
    apply (pop_folded _ _ _ _ _ _ Hpop).
  - unfold Styler.registerForcedBreakOffset in H.
    match type of H with
    | (?m ≫= _) = _ => destruct m as [flows'|]
    end; [|discriminate].
    cbn [mbind option_bind] in H. injection H as <-. simpl.
    apply foldedBy_refl; reflexivity.
Qed.

Lemma runAll_resolved ops : forall s s' : Styler.t,
  Styler.runAll ops s = Some s' ->
  chunksResolved ops (Styler.objects s) (Styler.objects s').
Proof.
  induction ops as [|op ops IH]; intros s s'; simpl.
  - intros [= <-] ref c Hc. exists c, []. split; [exact Hc|].
    split; [apply sameButBreakBefore_refl|]. split; [constructor|reflexivity].
  - destruct (Styler.run op s) as [s1|] eqn:Hop; [|discriminate]. simpl.
    intros Hrest ref c Hc.
    destruct (run_folded op s s1 Hop ref c Hc) as (values & Hvalues & Hc1).
    destruct (IH s1 s' Hrest ref _ Hc1) as (c' & writes & Hc' & Hsame & Hw & Hbb).
    exists c', (values :: writes). split; [exact Hc'|]. split.
    + eapply sameButBreakBefore_trans; [apply resolvedInto_same|exact Hsame].
    + split; [constructor; assumption|].
      rewrite Hbb. simpl. rewrite foldl_app. reflexivity.
Qed.

(** C4, as stated, fails: after [encounteredFlowElement] has created the
    chunk of the flow [body] (with no break-before), pushing the box of an
    element at the start of that flow with [break-before: page] changes the
    chunk's break-before to [page]. *)
Lemma flowChunk_breakBefore_changes :
  exists s1 s2 c1 c2,
    Styler.run
      (Styler.EncounteredFlowElement "body" 0 0 0 None false false false)
      exampleStyler = Some s1
    /\ Styler.run (Styler.Push examplePageStyle 0 true (Some 0%nat)) s1
       = Some s2
    /\ Objects.chunk 0 (Styler.objects s1) = Some c1
    /\ Objects.chunk 0 (Styler.objects s2) = Some c2
    /\ FlowChunk.breakBefore c1 = None
    /\ FlowChunk.breakBefore c2 = Some "page"%string
    /\ c1 <> c2.
Proof.
  do 4 eexists.
  split; [vm_compute; reflexivity|].
  split; [vm_compute; reflexivity|].
  split; [vm_compute; reflexivity|].
  split; [vm_compute; reflexivity|].
  split; [vm_compute; reflexivity|]. split; [vm_compute; reflexivity|].
  vm_compute. discriminate.
Qed.

(** C4, amended.  After a chunk is created, no operation of the core
    (flow discovery, box push, text node, box pop, break registration)
    changes its flow name, originating node, start offset, priority, linger,
    exclusive, repeated or last field.  Its inherited break-before changes
    only by assignments [chunk.breakBefore =
    resolveEffectiveBreakValue(chunk.breakBefore, v)]: a push makes them
    with forced values [v] only (in the [Box] constructor), a pop with
    forced values (in the constructor of the [::after] box) and then at most
    once with any value (in [BoxStack.pop] itself), and flow discovery, a
    text node and a break registration make none, so that the break-before
    after the operations is the old one with those values folded into it in
    order.  Every flow keeps its name and parent, and its list of
    forced-break offsets only grows at the end. *)
Theorem flowChunk_fields_kept (ops : list Styler.Operation)
    (s s' : Styler.t) :
  Styler.runAll ops s = Some s' ->
  chunksResolved ops (Styler.objects s) (Styler.objects s')
  /\ flowsGrow (Styler.flows s) (Styler.flows s').
Proof.
  intros Hrun. split; [apply (runAll_resolved ops s s' Hrun)|].
  revert s Hrun. induction ops as [|op ops IH]; intros s; simpl.
  - intros [= <-]. apply flowsGrow_refl.
  - destruct (Styler.run op s) as [s1|] eqn:Hop; [|discriminate]. simpl.
    intros Hrest.
    destruct (run_kept op s s1 Hop) as [_ Hf1].
    eapply flowsGrow_trans; [exact Hf1|apply (IH s1 Hrest)].
Qed.

Lemma flowChunk_fields_kept_witness :
  exists s1 s',
    Styler.runAll
      [Styler.EncounteredFlowElement "body" 0 0 0 None false false false]
      exampleStyler = Some s1
    /\ Styler.runAll
         [Styler.Push examplePageStyle 0 true (Some 0%nat);
          Styler.RegisterForcedBreakOffset (Some "page"%string) 0 "body";
          Styler.EncounteredTextNode false;
          Styler.Pop 4;
          Styler.RegisterForcedBreakOffset (Some "page"%string) 4 "body"]
         s1 = Some s'
    /\ chunksResolved
         [Styler.Push examplePageStyle 0 true (Some 0%nat);
          Styler.RegisterForcedBreakOffset (Some "page"%string) 0 "body";
          Styler.EncounteredTextNode false;
          Styler.Pop 4;
          Styler.RegisterForcedBreakOffset (Some "page"%string) 4 "body"]
         (Styler.objects s1) (Styler.objects s')
    /\ flowsGrow (Styler.flows s1) (Styler.flows s').
Proof.
  do 2 eexists.
  split; [vm_compute; reflexivity|].
  split; [vm_compute; reflexivity|].
  eapply (flowChunk_fields_kept
            [Styler.Push examplePageStyle 0 true (Some 0%nat);
             Styler.RegisterForcedBreakOffset (Some "page"%string) 0 "body";
             Styler.EncounteredTextNode false;
             Styler.Pop 4;
             Styler.RegisterForcedBreakOffset (Some "page"%string) 4 "body"]).
  vm_compute. reflexivity.
Defined.

Lemma forcedBreakOffsets_append_only_witness :
  exists s' flow',
    registerAll
      [mkRegisterCall (Some "page"%string) 3 "body";
       mkRegisterCall (Some "column"%string) 2 "body";
       mkRegisterCall (Some "avoid"%string) 5 "body";
       mkRegisterCall (Some "left"%string) 7 "body"]
      exampleBodyStyler = Some s'
    /\ Styler.flows s' !! "body"%string = Some flow'
    /\ Flow.flowName flow' = "body"%string
    /\ Flow.parentFlowName flow' = None
    /\ Flow.forcedBreakOffsets flow'
       = offsetsAfter "body"
           [mkRegisterCall (Some "page"%string) 3 "body";
            mkRegisterCall (Some "column"%string) 2 "body";
            mkRegisterCall (Some "avoid"%string) 5 "body";
            mkRegisterCall (Some "left"%string) 7 "body"] []
    /\ [] `prefix_of` Flow.forcedBreakOffsets flow'
    /\ Linked Z.lt (Flow.forcedBreakOffsets flow').
Proof.
  apply (forcedBreakOffsets_append_only
           [mkRegisterCall (Some "page"%string) 3 "body";
            mkRegisterCall (Some "column"%string) 2 "body";
            mkRegisterCall (Some "avoid"%string) 5 "body";
            mkRegisterCall (Some "left"%string) 7 "body"]
           exampleBodyStyler "body" (Flow.create "body" None)).
  - vm_compute. reflexivity.
  - apply Linked_nil.
  - repeat constructor; vm_compute; eauto.
Defined.

(** * Further properties of the code *)

(** ** Break values: the three classes *)

Section BreakClasses.

Import Break.

Lemma truthyEntry_keys (keys : list string) (v : option string) :
  truthyEntry (list_to_map ((fun k => (k, true)) <$> keys)) v
  = bool_decide (propertyKey v ∈ keys) || JsObject.inherited (propertyKey v).
Proof.
  unfold truthyEntry.
  destruct (list_to_map _ !! propertyKey v) as [entry|] eqn:Hentry.
  - apply (elem_of_list_to_map_2 (M := gmap string)) in Hentry.
    apply list_elem_of_fmap in Hentry as (k & Hk & Hin).
    injection Hk as -> ->.
    rewrite (bool_decide_eq_true_2 _ Hin). reflexivity.
  - apply (not_elem_of_list_to_map (M := gmap string)) in Hentry.
    rewrite <- list_fmap_compose in Hentry.
    rewrite bool_decide_eq_false_2; [reflexivity|].
    intros Hin. apply Hentry.
    apply list_elem_of_fmap. exists (propertyKey v). split; [reflexivity|exact Hin].
Qed.

Lemma isSpreadBreakValue_eq (v : option string) :
  isSpreadBreakValue v
  = bool_decide (propertyKey v ∈ ["left"; "right"; "recto"; "verso"]%string)
    || JsObject.inherited (propertyKey v).
Proof.
  apply (truthyEntry_keys ["left"; "right"; "recto"; "verso"]%string).
Qed.

Lemma isForcedBreakValue_eq (v : option string) :
  isForcedBreakValue v
  = bool_decide (propertyKey v
                 ∈ ["page"; "left"; "right"; "recto"; "verso"; "column";
                    "region"]%string)
    || JsObject.inherited (propertyKey v).
Proof.
  apply (truthyEntry_keys
           ["page"; "left"; "right"; "recto"; "verso"; "column";
            "region"]%string).
Qed.

Lemma isAvoidBreakValue_eq (v : option string) :
  isAvoidBreakValue v
  = bool_decide (propertyKey v
                 ∈ ["avoid"; "avoid-page"; "avoid-column";
                    "avoid-region"]%string)
    || JsObject.inherited (propertyKey v).
Proof.
  apply (truthyEntry_keys
           ["avoid"; "avoid-page"; "avoid-column"; "avoid-region"]%string).
Qed.

(** A name inherited from [Object.prototype] is in the three classes. *)
Lemma inherited_in_every_class (v : option string) :
  JsObject.inherited (propertyKey v) = true ->
  isForcedBreakValue v = true /\ isSpreadBreakValue v = true
  /\ isAvoidBreakValue v = true.
Proof.
  intros H.
  rewrite isForcedBreakValue_eq, isSpreadBreakValue_eq, isAvoidBreakValue_eq, H.
  rewrite !orb_true_r. repeat split.
Qed.

(** A spread value is a forced value. *)
Lemma spread_is_forced (v : option string) :
  isSpreadBreakValue v = true -> isForcedBreakValue v = true.
Proof.
  rewrite isSpreadBreakValue_eq, isForcedBreakValue_eq.
  rewrite !orb_true_iff, !bool_decide_eq_true, !elem_of_cons. tauto.
Qed.

(** A forced value that is not a spread value is not an avoid value. *)
Lemma forced_not_spread_is_not_avoid (v : option string) :
  isForcedBreakValue v = true -> isSpreadBreakValue v = false ->
  isAvoidBreakValue v = false.
Proof.
  rewrite isSpreadBreakValue_eq, isForcedBreakValue_eq, isAvoidBreakValue_eq.
  intros Hforced Hspread.
  apply orb_false_iff in Hspread as [_ Hown]. rewrite Hown in *.
  rewrite orb_false_r in *. apply bool_decide_eq_true in Hforced.
  apply bool_decide_eq_false_2.
  rewrite !elem_of_cons, !elem_of_nil in *.
  intros H2.
  repeat destruct Hforced as [Hforced|Hforced]; try (rewrite Hforced in H2);
    repeat destruct H2 as [H2|H2]; try discriminate; assumption.
Qed.

(** A falsy value is in no class. *)
Lemma falsy_in_no_class (v : option string) :
  falsy v = true ->
  isForcedBreakValue v = false /\ isSpreadBreakValue v = false
  /\ isAvoidBreakValue v = false.
Proof.
  intros Hfalsy. destruct v as [s|]; simpl in Hfalsy.
  - apply bool_decide_eq_true in Hfalsy. subst s.
    repeat split; vm_compute; reflexivity.
  - repeat split; vm_compute; reflexivity.
Qed.

Lemma column_region_class (v : option string) :
  v = Some "column"%string \/ v = Some "region"%string ->
  isForcedBreakValue v = true /\ isSpreadBreakValue v = false.
Proof. intros [->| ->]; split; vm_compute; reflexivity. Qed.

End BreakClasses.

(** ** Break values: what resolveEffectiveBreakValue keeps *)

Section BreakLaws.

Import Break.

(** All the paths through [resolveEffectiveBreakValue], with what the
    tables say about the two values. *)
Lemma resolve_classes (a b : option string) :
  (resolveEffectiveBreakValue a b = a \/ resolveEffectiveBreakValue a b = b)
  /\ isForcedBreakValue (resolveEffectiveBreakValue a b)
     = isForcedBreakValue a || isForcedBreakValue b
  /\ isSpreadBreakValue (resolveEffectiveBreakValue a b)
     = isSpreadBreakValue a || isSpreadBreakValue b
  /\ (isForcedBreakValue a = false -> isForcedBreakValue b = false ->
      isAvoidBreakValue (resolveEffectiveBreakValue a b)
      = isAvoidBreakValue a || isAvoidBreakValue b)
  /\ (isSpreadBreakValue a || isSpreadBreakValue b = true ->
      resolveEffectiveBreakValue a b = if isSpreadBreakValue b then b else a)
  /\ (isSpreadBreakValue a || isSpreadBreakValue b = false ->
      isForcedBreakValue a || isForcedBreakValue b = true ->
      isAvoidBreakValue (resolveEffectiveBreakValue a b) = false).
Proof.
  pose proof (spread_is_forced a).
  pose proof (spread_is_forced b).
  pose proof (forced_not_spread_is_not_avoid a).
  pose proof (forced_not_spread_is_not_avoid b).
  pose proof (falsy_in_no_class a).
  pose proof (falsy_in_no_class b).
  pose proof (column_region_class a).
  pose proof (column_region_class b).
  unfold resolveEffectiveBreakValue; cbv zeta.
  destruct (falsy a) eqn:?; destruct (falsy b) eqn:?;
    destruct (isSpreadBreakValue a) eqn:?;
    destruct (isSpreadBreakValue b) eqn:?;
    destruct (isForcedBreakValue a) eqn:?;
    destruct (isForcedBreakValue b) eqn:?;
    destruct (isAvoidBreakValue a) eqn:?;
    destruct (isAvoidBreakValue b) eqn:?;
    cbn [orb andb]; cbv iota beta;
    try (exfalso; intuition congruence);
    repeat case_bool_decide;
    intuition congruence.
Qed.

End BreakLaws.

Section BreakTheorems.

Import Break.

(** X1.  [resolveEffectiveBreakValue] never invents a value: for all
    strings or [null], the result is one of its two arguments; [null] on
    the left gives the right argument, [null] on the right gives the left
    one (unless that is the empty string, which is falsy), and a value
    resolved with itself is itself. *)
Theorem resolveEffectiveBreakValue_selects (a b : option string) :
  (resolveEffectiveBreakValue a b = a \/ resolveEffectiveBreakValue a b = b)
  /\ resolveEffectiveBreakValue None b = b
  /\ (a = Some EmptyString \/ resolveEffectiveBreakValue a None = a)
  /\ resolveEffectiveBreakValue a a = a.
Proof.
  split; [apply resolve_classes|]. split; [reflexivity|]. split.
  - destruct (decide (a = Some EmptyString)) as [Ha|Ha]; [left; exact Ha|].
    right. unfold resolveEffectiveBreakValue.
    destruct a as [s|]; [|reflexivity]. simpl.
    rewrite bool_decide_eq_false_2 by congruence. reflexivity.
  - destruct (resolve_classes a a) as [[H|H] _]; exact H.
Qed.

(** X2.  The class of the result, for all strings or [null].  The result
    is forced exactly when one of the two values is forced, and a spread
    value exactly when one of them is.  When one of them is a spread value,
    the result is the second value if that is a spread value and the first
    otherwise, so the result is an avoid value exactly when the value chosen
    is: a name inherited from [Object.prototype], such as [constructor], is
    in the three classes, and [resolveEffectiveBreakValue("constructor",
    "avoid")] is [constructor].  When neither is a spread value, the result
    is an avoid value exactly when neither is forced and one of them is an
    avoid value; on the break domain this holds for every pair. *)
Theorem resolveEffectiveBreakValue_classes (a b : option string) :
  isForcedBreakValue (resolveEffectiveBreakValue a b)
  = isForcedBreakValue a || isForcedBreakValue b
  /\ isSpreadBreakValue (resolveEffectiveBreakValue a b)
     = isSpreadBreakValue a || isSpreadBreakValue b
  /\ (if isSpreadBreakValue a || isSpreadBreakValue b
      then resolveEffectiveBreakValue a b
           = (if isSpreadBreakValue b then b else a)
      else resolveEffectiveBreakValue a b = a
           \/ resolveEffectiveBreakValue a b = b)
  /\ isAvoidBreakValue (resolveEffectiveBreakValue a b)
     = (if isSpreadBreakValue a || isSpreadBreakValue b
        then isAvoidBreakValue (if isSpreadBreakValue b then b else a)
        else negb (isForcedBreakValue a || isForcedBreakValue b)
             && (isAvoidBreakValue a || isAvoidBreakValue b))
  /\ (forall x y : option BreakIdent,
        isAvoidBreakValue
          (resolveEffectiveBreakValue (directive x) (directive y))
        = negb (isForcedBreakValue (directive x)
                || isForcedBreakValue (directive y))
          && (isAvoidBreakValue (directive x)
              || isAvoidBreakValue (directive y)))
  /\ resolveEffectiveBreakValue (Some "constructor"%string)
       (Some "avoid"%string) = Some "constructor"%string
  /\ isForcedBreakValue (Some "constructor"%string) = true
  /\ isAvoidBreakValue (Some "constructor"%string) = true.
Proof.
  destruct (resolve_classes a b)
    as (Hone & Hforced & Hspread & Havoid & Hchosen & Hnot).
  split; [exact Hforced|]. split; [exact Hspread|].
  split; [|split; [|split; [|repeat split; vm_compute; reflexivity]]].
  - destruct (isSpreadBreakValue a || isSpreadBreakValue b) eqn:Hany;
      [apply Hchosen; reflexivity|exact Hone].
  - destruct (isSpreadBreakValue a || isSpreadBreakValue b) eqn:Hany.
    + rewrite Hchosen by reflexivity. reflexivity.
    + destruct (isForcedBreakValue a || isForcedBreakValue b) eqn:Hf.
      * simpl. apply Hnot; reflexivity.
      * apply orb_false_iff in Hf as [Ha Hb]. simpl.
        apply Havoid; assumption.
  - intros [[]|] [[]|]; vm_compute; reflexivity.
Qed.

(** X3.  On the break domain, resolving is associative: folding three
    values gives the same result whichever pair is resolved first. *)
Theorem resolveEffectiveBreakValue_assoc (a b c : option BreakIdent) :
  resolveEffectiveBreakValue
    (resolveEffectiveBreakValue (directive a) (directive b)) (directive c)
  = resolveEffectiveBreakValue (directive a)
      (resolveEffectiveBreakValue (directive b) (directive c)).
Proof.
  destruct a as [[]|], b as [[]|], c as [[]|]; vm_compute; reflexivity.
Qed.

End BreakTheorems.

(** ** break.ts: aliases and start sides *)

Section Aliases.

Import BreakAlias.

(** X4.  [convertPageBreakAliases] is idempotent, its result is never
    named [page-break-before], [page-break-after] or [page-break-inside],
    and it keeps the [important] flag.  A declaration with another name is
    returned as it is; for one of the three names the new name is the old
    one without [page-], and the value is never [always]. *)
Theorem convertPageBreakAliases_once (d : Declaration) :
  convertPageBreakAliases (convertPageBreakAliases d)
  = convertPageBreakAliases d
  /\ (name (convertPageBreakAliases d)
      ∉ ["page-break-before"; "page-break-after"; "page-break-inside"]%string)
  /\ important (convertPageBreakAliases d) = important d
  /\ (convertPageBreakAliases d = d
      \/ (name d
          ∈ ["page-break-before"; "page-break-after";
             "page-break-inside"]%string
          /\ ("page-" +:+ name (convertPageBreakAliases d))%string = name d
          /\ ((value d = Css.Ident "always"
               /\ value (convertPageBreakAliases d) = Css.Ident "page")
              \/ (value d <> Css.Ident "always"
                  /\ value (convertPageBreakAliases d) = value d)))).
Proof.
  destruct d as [n v i]. unfold convertPageBreakAliases. simpl.
  destruct (decide (n = "page-break-before"%string)) as [->|H1];
    [|destruct (decide (n = "page-break-after"%string)) as [->|H2];
      [|destruct (decide (n = "page-break-inside"%string)) as [->|H3]]].
  1-3: (split; [reflexivity|]; split; [compute_done|]; split; [reflexivity|];
        right; split; [compute_done|]; split; [reflexivity|]; simpl;
        destruct (decide (v = Css.Ident "always")) as [Hv|Hv];
        [left; rewrite (bool_decide_eq_true_2 _ Hv)
        |right; rewrite (bool_decide_eq_false_2 _ Hv)];
        split; (assumption || reflexivity)).
  rewrite !(bool_decide_eq_false_2 _ H1), !(bool_decide_eq_false_2 _ H2),
    !(bool_decide_eq_false_2 _ H3). simpl.
  rewrite ?(bool_decide_eq_false_2 _ H1), ?(bool_decide_eq_false_2 _ H2),
    ?(bool_decide_eq_false_2 _ H3). simpl.
  split; [reflexivity|]. split.
  - rewrite !elem_of_cons, elem_of_nil. tauto.
  - split; [reflexivity|]. left. reflexivity.
Qed.

(** X5.  Start sides and break values convert back and forth.  A break
    value becomes a start side other than [any] exactly when it is one of
    left, right, recto, verso, and then converting back returns it; any
    other break value comes back as [null]; a start side is kept by the
    round trip when it is one of the four and becomes [any] otherwise.
    [isSpreadBreakValue] answers true for the four values and, besides, for
    the names its table inherits from [Object.prototype], which
    [breakValueToStartSideValue] turns into [any]. *)
Theorem startSide_roundTrip (breakValue : option string) (side : string) :
  (breakValueToStartSideValue breakValue <> "any"%string
   <-> exists v, breakValue = Some v /\ v ∈ startSides)
  /\ startSideValueToBreakValue (breakValueToStartSideValue breakValue)
     = (if bool_decide (breakValueToStartSideValue breakValue <> "any"%string)
        then breakValue else None)
  /\ breakValueToStartSideValue (startSideValueToBreakValue side)
     = (if bool_decide (side ∈ startSides) then side else "any"%string)
  /\ Break.isSpreadBreakValue breakValue
     = bool_decide (breakValueToStartSideValue breakValue <> "any"%string)
       || JsObject.inherited (Break.propertyKey breakValue).
Proof.
  assert (Hside : forall s : string,
            bool_decide (s ∈ startSides)
            = bool_decide (s = "left"%string)
              || bool_decide (s = "right"%string)
              || bool_decide (s = "recto"%string)
              || bool_decide (s = "verso"%string)).
  { intros s. apply eq_true_iff_eq. unfold startSides.
    rewrite !orb_true_iff, !bool_decide_eq_true, !elem_of_cons, elem_of_nil.
    tauto. }
  assert (Hany : forall s : string, s ∈ startSides -> s <> "any"%string).
  { intros s Hin ->. revert Hin. unfold startSides.
    rewrite !elem_of_cons, elem_of_nil. intuition discriminate. }
  assert (Hto : forall v : string,
            breakValueToStartSideValue (Some v)
            = if bool_decide (v ∈ startSides) then v else "any"%string).
  { intros v. rewrite Hside. reflexivity. }
  assert (Hne : forall v : string,
            bool_decide (breakValueToStartSideValue (Some v) <> "any"%string)
            = bool_decide (v ∈ startSides)).
  { intros v. rewrite Hto.
    destruct (decide (v ∈ startSides)) as [Hin|Hin].
    - rewrite (bool_decide_eq_true_2 (v ∈ startSides) Hin).
      apply bool_decide_eq_true_2. apply Hany, Hin.
    - rewrite (bool_decide_eq_false_2 (v ∈ startSides) Hin).
      apply bool_decide_eq_false_2. intros H. apply H. reflexivity. }
  split; [|split; [|split]].
  - destruct breakValue as [v|].
    + rewrite <- (bool_decide_eq_true (_ <> _)), Hne, bool_decide_eq_true.
      split; [eauto|]. intros (w & [= <-] & Hin). exact Hin.
    + simpl. split; [congruence|]. intros (w & Hw & _). discriminate.
  - destruct breakValue as [v|]; [|reflexivity].
    rewrite Hne, Hto.
    destruct (bool_decide (v ∈ startSides)) eqn:Hin; [|reflexivity].
    unfold startSideValueToBreakValue. rewrite <- Hside, Hin. reflexivity.
  - unfold startSideValueToBreakValue. rewrite <- Hside.
    destruct (bool_decide (side ∈ startSides)) eqn:Hin; [|reflexivity].
    rewrite Hto, Hin. reflexivity.
  - rewrite isSpreadBreakValue_eq. f_equal.
    destruct breakValue as [v|].
    + rewrite Hne. reflexivity.
    + vm_compute. reflexivity.
Qed.

End Aliases.

(** ** display.ts *)

Lemma blockifiedStr_idem (s : string) :
  Display.blockifiedStr (Display.blockifiedStr s) = Display.blockifiedStr s.
Proof.
  remember (Display.blockifiedStr s) as t eqn:Ht.
  unfold Display.blockifiedStr in Ht.
  repeat case_bool_decide; subst t; try (vm_compute; reflexivity).
  unfold Display.blockifiedStr.
  rewrite !bool_decide_eq_false_2 by assumption. reflexivity.
Qed.

Lemma blockify_idem (display : option Css.Val) :
  Display.blockify (Display.blockify display) = Display.blockify display.
Proof.
  destruct display as [d|]; [|reflexivity]. simpl.
  unfold Css.getName. simpl. rewrite blockifiedStr_idem. reflexivity.
Qed.

(** X6.  The computed display, position and float of a box with a display
    value are a fixed point: [getComputedDislayValue] returns, and applied
    to its own result (for the same box) it returns that result again. *)
Theorem getComputedDislayValue_stable (d : Css.Val)
    (position float : option Css.Val) (isRoot : bool) :
  exists c,
    Display.getComputedDislayValue (Some d) position float isRoot = Some c
    /\ Display.getComputedDislayValue (Display.display c)
         (Display.position c) (Display.float c) isRoot = Some c.
Proof.
  unfold Display.getComputedDislayValue at 1.
  destruct (decide (Some d = Some Css.ident.none)) as [Hnone|Hnone].
  { rewrite (bool_decide_eq_true_2 _ Hnone).
    eexists. split; [reflexivity|]. simpl.
    unfold Display.getComputedDislayValue.
    rewrite (bool_decide_eq_true_2 _ Hnone). reflexivity. }
  rewrite (bool_decide_eq_false_2 _ Hnone).
  pose proof (blockify_idem (Some d)) as Hidem. simpl in Hidem.
  set (d' := Css.getName (Display.blockifiedStr (Css.toString d))) in *.
  assert (Hd' : Display.blockify (Some d') = Some d') by exact Hidem.
  destruct (Display.isAbsolutelyPositioned position) eqn:Habs.
  { simpl. fold d'. eexists. split; [reflexivity|]. simpl.
    unfold Display.getComputedDislayValue.
    destruct (decide (Some d' = Some Css.ident.none)) as [Hn|Hn].
    - rewrite (bool_decide_eq_true_2 _ Hn). reflexivity.
    - rewrite (bool_decide_eq_false_2 _ Hn), Habs, Hd'. reflexivity. }
  destruct ((bool_decide (is_Some float)
             && bool_decide (float ≠ Some Css.ident.none)) || isRoot)
    eqn:Hout.
  { simpl. fold d'. eexists. split; [reflexivity|]. simpl.
    unfold Display.getComputedDislayValue.
    destruct (decide (Some d' = Some Css.ident.none)) as [Hn|Hn].
    - rewrite (bool_decide_eq_true_2 _ Hn). reflexivity.
    - rewrite (bool_decide_eq_false_2 _ Hn), Habs, Hout, Hd'. reflexivity. }
  eexists. split; [reflexivity|]. simpl.
  unfold Display.getComputedDislayValue.
  rewrite (bool_decide_eq_false_2 _ Hnone), Habs, Hout. reflexivity.
Qed.

Section DisplayClasses.

Local Open Scope string_scope.

(** X7.  For a box whose display is the identifier [name]: it is a block
    when [name] is [block], or when it is absolutely positioned, floated or
    the root and [name] is one of the ten names [blockify] turns into
    [block]; in no other case.  With a [null] display the call throws
    exactly when the box is absolutely positioned, floated or the root. *)
Theorem isBlock_cases (name : string) (position float : option Css.Val)
    (isRoot : bool) :
  let outOfFlowOrRoot :=
    Display.isAbsolutelyPositioned position
    || (bool_decide (is_Some float)
        && bool_decide (float ≠ Some Css.ident.none))
    || isRoot in
  Display.isBlock (Some (Css.Ident name)) position float isRoot
  = Some (bool_decide (name = "block")
          || (outOfFlowOrRoot
              && bool_decide
                   (name ∈ ["inline"; "table-row-group"; "table-column";
                            "table-column-group"; "table-header-group";
                            "table-footer-group"; "table-row"; "table-cell";
                            "table-caption"; "inline-block"])))
  /\ Display.isBlock None position float isRoot
     = (if outOfFlowOrRoot then None else Some false).
Proof.
  cbv zeta. unfold Display.isBlock, Display.getComputedDislayValue.
  split.
  - destruct (decide (name = "none")) as [->|Hnone].
    { destruct (Display.isAbsolutelyPositioned position),
        (bool_decide (is_Some float) && bool_decide (float ≠ Some Css.ident.none)),
        isRoot; vm_compute; reflexivity. }
    rewrite (bool_decide_eq_false_2 (Some (Css.Ident name) = Some Css.ident.none))
      by (unfold Css.ident.none; congruence).
    assert (Hblockified :
      bool_decide (Some (Css.getName (Display.blockifiedStr name))
                   = Some Css.ident.block)
      = bool_decide (name = "block")
        || bool_decide
             (name ∈ ["inline"; "table-row-group"; "table-column";
                      "table-column-group"; "table-header-group";
                      "table-footer-group"; "table-row"; "table-cell";
                      "table-caption"; "inline-block"])).
    { unfold Display.blockifiedStr, Css.getName, Css.ident.block.
      destruct (decide (name = "inline-flex")) as [->|H1];
        [vm_compute; reflexivity|].
      destruct (decide (name = "inline-grid")) as [->|H2];
        [vm_compute; reflexivity|].
      destruct (decide (name = "inline-table")) as [->|H3];
        [vm_compute; reflexivity|].
      rewrite (bool_decide_eq_false_2 _ H1), (bool_decide_eq_false_2 _ H2),
        (bool_decide_eq_false_2 _ H3).
      match goal with
      | |- context [bool_decide (name ∈ ?l)] =>
          destruct (decide (name ∈ l)) as [Hin|Hin]
      end.
      - rewrite !(bool_decide_eq_true_2 _ Hin), orb_true_r.
        apply bool_decide_eq_true_2. reflexivity.
      - rewrite !(bool_decide_eq_false_2 _ Hin), orb_false_r.
        apply bool_decide_ext. split; congruence. }
    assert (Hplain :
      bool_decide (Some (Css.Ident name) = Some Css.ident.block)
      = bool_decide (name = "block")).
    { apply bool_decide_ext. unfold Css.ident.block. split; congruence. }
    destruct (Display.isAbsolutelyPositioned position); simpl.
    { rewrite Hblockified. reflexivity. }
    destruct (bool_decide (is_Some float)
              && bool_decide (float ≠ Some Css.ident.none)); simpl.
    { rewrite Hblockified. reflexivity. }
    destruct isRoot; simpl.
    { rewrite Hblockified. reflexivity. }
    rewrite Hplain, orb_false_r. reflexivity.
  - rewrite (bool_decide_eq_false_2 (None = Some Css.ident.none))
      by discriminate.
    destruct (Display.isAbsolutelyPositioned position); simpl;
      [reflexivity|].
    destruct (bool_decide (is_Some float)
              && bool_decide (float ≠ Some Css.ident.none)); simpl;
      [reflexivity|].
    destruct isRoot; reflexivity.
Qed.

(** X8.  [blockify] is idempotent, and the display it returns is still
    inline-level exactly for the two inline-level names it has no case for,
    [inline-list-item] and [ruby]. *)
Theorem blockify_inline_level (display : Css.Val) :
  exists blockified,
    Display.blockify (Some display) = Some blockified
    /\ Display.blockify (Some blockified) = Some blockified
    /\ DisplayContext.isInlineLevel blockified
       = bool_decide (Css.toString display ∈ ["inline-list-item"; "ruby"]).
Proof.
  eexists. split; [reflexivity|]. split.
  - exact (blockify_idem (Some display)).
  - unfold DisplayContext.isInlineLevel, Css.getName. simpl.
    generalize (Css.toString display) as s. intros s.
    unfold Display.blockifiedStr.
    destruct (decide (s = "inline-flex")) as [->|H1];
      [vm_compute; reflexivity|].
    destruct (decide (s = "inline-grid")) as [->|H2];
      [vm_compute; reflexivity|].
    destruct (decide (s = "inline-table")) as [->|H3];
      [vm_compute; reflexivity|].
    rewrite (bool_decide_eq_false_2 _ H1), (bool_decide_eq_false_2 _ H2),
      (bool_decide_eq_false_2 _ H3).
    match goal with
    | |- context [if bool_decide (s ∈ ?l) then _ else _] =>
        destruct (decide (s ∈ l)) as [Hin|Hin]
    end.
    + rewrite (bool_decide_eq_true_2 _ Hin).
      symmetry. apply bool_decide_eq_false_2. intros Hin'.
      revert Hin. rewrite !elem_of_cons, !elem_of_nil in *.
      destruct Hin' as [->|[->|[]]]; intros H;
        repeat (destruct H as [H|H]; [discriminate|]); exact H.
    + rewrite (bool_decide_eq_false_2 _ Hin).
      apply bool_decide_ext.
      rewrite !elem_of_cons, !elem_of_nil in *. tauto.
Qed.

(** X9.  The writing modes matter to [establishesBFC] only through a parent
    writing mode that differs from the box's own: without a parent writing
    mode the box's own is ignored, a box whose writing mode is omitted or
    equal to its parent's is judged as if no writing mode were given, and a
    box whose writing mode differs from its parent's always establishes a
    block formatting context. *)
Theorem establishesBFC_writing_mode
    (display position float overflow : option Css.Val) (w pw : Css.Val)
    (isFlowRoot : bool) :
  let plain :=
    DisplayContext.establishesBFC display position float overflow None None
      isFlowRoot in
  DisplayContext.establishesBFC display position float overflow (Some w) None
    isFlowRoot = plain
  /\ DisplayContext.establishesBFC display position float overflow None
       (Some pw) isFlowRoot = plain
  /\ DisplayContext.establishesBFC display position float overflow (Some pw)
       (Some pw) isFlowRoot = plain
  /\ DisplayContext.establishesBFC display position float overflow (Some w)
       (Some pw) isFlowRoot = plain || bool_decide (w ≠ pw).
Proof.
  cbv zeta. unfold DisplayContext.establishesBFC.
  rewrite (bool_decide_eq_false_2 (is_Some (@None Css.Val)))
    by (intros [? ?]; discriminate).
  rewrite (bool_decide_eq_true_2 (is_Some (Some pw))) by eauto.
  rewrite (bool_decide_eq_false_2 (Some pw ≠ Some pw)) by congruence.
  simpl. rewrite !orb_false_r.
  repeat split.
  f_equal. apply bool_decide_ext. split; congruence.
Qed.

End DisplayClasses.

(** ** cfi.ts: escaping *)

Lemma special_caret : Cfi.special "^"%char = true.
Proof. vm_compute. reflexivity. Qed.

(** X10.  Escaping is undone by unescaping: [unescape(escape(str))] is
    [str], for every string. *)
Theorem unescape_escape (str : string) :
  Cfi.unescape (Cfi.escape str) = str.
Proof.
  induction str as [|c rest IH]; [reflexivity|].
  cbn [Cfi.escape].
  destruct (Cfi.special c) eqn:Hc.
  - change (Cfi.escapeChar (String c EmptyString) +:+ Cfi.escape rest)
      with (String "^" (String c (Cfi.escape rest))).
    cbn [Cfi.unescape].
    rewrite Hc, bool_decide_eq_true_2 by reflexivity.
    change (Cfi.unescapeChar (String "^" (String c EmptyString))
            +:+ Cfi.unescape (Cfi.escape rest))
      with (String c (Cfi.unescape (Cfi.escape rest))).
    rewrite IH. reflexivity.
  - cbn [Cfi.unescape].
    destruct (Cfi.escape rest) as [|d rest'] eqn:Hesc.
    + rewrite <- IH. reflexivity.
    + rewrite bool_decide_eq_false_2.
      * cbn [andb]. rewrite IH. reflexivity.
      * intros ->. rewrite special_caret in Hc. discriminate.
Qed.

(** ** SlipMap: maps that start with a stuck range *)

Lemma perform_ordered c prev (map : SlipMap) :
  map <> [] -> getMaxFixed map <= prev -> prev <= argument c ->
  ordered map ->
  getMaxFixed (perform map c) <= argument c /\ ordered (perform map c).
Proof.
  intros Hne Hmax Harg [HF HL].
  destruct c as [g|g]; simpl in *; slip_cases map; try congruence; slip_step;
    rewrite getMaxFixed_snoc in Hmax;
    rewrite Forall_app, Forall_singleton in HF; destruct HF as [HFi HFr].
  - case_bool_decide as Hpure.
    + rewrite getMaxFixed_snoc. split; [simpl; lia|]. split.
      * apply Forall_app. split; [exact HFi|].
        apply Forall_singleton. simpl. lia.
      * eapply Linked_setLast; [exact HL|].
        unfold tight. simpl. intros a [? ?]. lia.
    + rewrite snoc_two, getMaxFixed_snoc. split; [simpl; lia|]. split.
      * apply Forall_app. split.
        { apply Forall_app. split; [exact HFi|].
          apply Forall_singleton. exact HFr. }
        apply Forall_singleton. simpl. lia.
      * eapply Linked_snoc; [exact HL|apply last_snoc|].
        unfold tight. simpl. lia.
  - split; [simpl; lia|]. split.
    + apply Forall_app. split; [exact HFi|].
      apply Forall_singleton. simpl. lia.
    + eapply Linked_setLast; [exact HL|].
      unfold tight. simpl. intros a [? ?]. lia.
Qed.

Lemma foldl_ordered calls : forall prev (map : SlipMap),
  map <> [] -> getMaxFixed map <= prev -> ordered map ->
  nonDecreasingFrom prev calls ->
  ordered (foldl perform map calls).
Proof.
  induction calls as [|c calls IH]; intros prev map Hne Hmax Hord Hcalls.
  - exact Hord.
  - destruct Hcalls as [Harg Hrest]. rewrite foldl_perform_cons.
    destruct (perform_ordered c prev map Hne Hmax Harg Hord) as [Hmax' Hord'].
    apply (IH (argument c));
      [apply perform_nonempty|exact Hmax'|exact Hord'|exact Hrest].
Qed.

Lemma built_ordered g0 calls :
  nonDecreasingFrom g0 calls ->
  built (AddStuckRange g0 :: calls) <> []
  /\ ordered (built (AddStuckRange g0 :: calls)).
Proof.
  intros Hcalls. split; [apply built_nonempty|].
  change (built (AddStuckRange g0 :: calls))
    with (foldl perform [mkSlipRange g0 g0 g0] calls).
  apply (foldl_ordered calls g0).
  - discriminate.
  - rewrite getMaxFixed_singleton. simpl. lia.
  - split.
    + apply Forall_singleton. simpl. lia.
    + apply Linked_singleton.
  - exact Hcalls.
Qed.

Lemma ordered_range (map : SlipMap) i r :
  ordered map -> map !! i = Some r ->
  endSlipped r <= endStuckFixed r /\ endStuckFixed r <= endFixed r.
Proof.
  intros [HF _] Hr. rewrite Forall_lookup in HF. exact (HF i r Hr).
Qed.

Lemma ordered_climbs (map : SlipMap) : ordered map -> Linked climbs map.
Proof.
  intros Hord i a b Ha Hb.
  destruct (ordered_range map _ _ Hord Hb) as [? ?].
  destruct Hord as [_ HL]. destruct (HL i a b Ha Hb) as [? ?].
  unfold climbs. lia.
Qed.

(** Between any two ranges in array order, the slipped end advances by no
    more than the fixed end does. *)
Lemma ordered_global (map : SlipMap) :
  ordered map ->
  forall i j a b,
    (i <= j)%nat -> map !! i = Some a -> map !! j = Some b ->
    endFixed a <= endFixed b
    /\ endSlipped a <= endSlipped b
    /\ endSlipped b - endSlipped a <= endFixed b - endFixed a.
Proof.
  intros Hord i j a b Hij Ha Hb.
  destruct (decide (i = j)) as [->|Hne].
  - rewrite Ha in Hb. injection Hb as <-. lia.
  - pose proof (ordered_climbs map Hord) as HC.
    assert (HL : Linked (fun a b => climbs a b /\ tight a b
                                    /\ endStuckFixed b <= endFixed b) map).
    { intros k x y Hx Hy. split; [exact (HC k x y Hx Hy)|]. split.
      - destruct Hord as [_ HT]. exact (HT k x y Hx Hy).
      - destruct (ordered_range map _ _ Hord Hy) as [_ ?]. assumption. }
    apply (Linked_global _
             (fun a b => endFixed a <= endFixed b
                         /\ endSlipped a <= endSlipped b
                         /\ endSlipped b - endSlipped a
                            <= endFixed b - endFixed a) map HL)
      with (i := i) (j := j).
    + unfold climbs, tight. intros ? ? ((? & ? & ?) & (? & ?) & ?). lia.
    + intros ? ? ? (? & ? & ?) (? & ? & ?). lia.
    + lia.
    + exact Ha.
    + exact Hb.
Qed.

(** ** SlipMap: the first range whose slipped end reaches an offset *)

Lemma first_reaching_slipped (map : SlipMap) (s : Z) :
  map <> [] -> s <= getMaxSlipped map ->
  Linked climbs map ->
  exists i r,
    map !! i = Some r /\ s <= endSlipped r
    /\ (forall j a, (j < i)%nat -> map !! j = Some a -> endSlipped a < s)
    /\ fixedBySlipped s map
       = Some (endStuckFixed r - (endSlipped r - s)).
Proof.
  intros Hne Hmax HL.
  destruct (list_find (fun r => s <= endSlipped r) map) as [[i r]|] eqn:Hfind.
  - apply list_find_Some in Hfind as (Hr & Hs & Hbelow).
    exists i, r. split; [exact Hr|]. split; [exact Hs|]. split.
    + intros j a Hj Ha. specialize (Hbelow j a Ha Hj). lia.
    + unfold fixedBySlipped.
      rewrite (search_first map _ i r Hr).
      * rewrite Hr. reflexivity.
      * intros j a Hj Ha. specialize (Hbelow j a Ha Hj).
        apply bool_decide_eq_false. exact Hbelow.
      * intros j a Hj Ha. apply bool_decide_eq_true.
        destruct (decide (i = j)) as [->|Hij].
        { rewrite Hr in Ha. injection Ha as <-. exact Hs. }
        destruct (climbs_global map HL i j r a) as [_ ?];
          [lia|assumption..|lia].
  - exfalso. apply list_find_None in Hfind.
    slip_cases map; [congruence|].
    unfold getMaxSlipped in Hmax. rewrite last_snoc in Hmax.
    rewrite Forall_app, Forall_singleton in Hfind. destruct Hfind as [_ Hr].
    apply Hr. exact Hmax.
Qed.

(** The two searches on an ordered map, side by side: [fixedBySlipped(s)]
    is at most [f] exactly when [s] is at most [slippedByFixed(f)], and
    [slippedByFixed] takes [fixedBySlipped(s)] back to [s]. *)
Lemma ordered_searches (map : SlipMap) (s f : Z) :
  map <> [] -> ordered map ->
  s <= getMaxSlipped map -> f <= getMaxFixed map ->
  exists f0 s',
    fixedBySlipped s map = Some f0
    /\ slippedByFixed f map = Some s'
    /\ (f0 <= f <-> s <= s')
    /\ f0 <= getMaxFixed map
    /\ slippedByFixed f0 map = Some s.
Proof.
  intros Hne Hord Hs Hf.
  pose proof (ordered_climbs map Hord) as HC.
  destruct (first_reaching_slipped map s Hne Hs HC)
    as (i' & r' & Hr' & Hsr' & Hbelow' & Hfixed).
  destruct (first_reaching map f Hne Hf HC)
    as (i & r & Hr & Hfr & Hbelow & Hslipped).
  destruct (ordered_range map _ _ Hord Hr') as [HES' HSF'].
  destruct (ordered_range map _ _ Hord Hr) as [HES HSF].
  (* the range before [r'], when there is one *)
  assert (Hprev' : forall a, map !! pred i' = Some a -> (0 < i')%nat ->
            endSlipped a < s
            /\ endFixed a <= endStuckFixed r'
            /\ endSlipped r' - endStuckFixed r' = endSlipped a - endFixed a).
  { intros a Ha Hpos. split; [apply (Hbelow' (pred i')); [lia|exact Ha]|].
    destruct Hord as [_ HT]. apply (HT (pred i')); [exact Ha|].
    replace (S (pred i')) with i' by lia. exact Hr'. }
  assert (Hprev : forall a, map !! pred i = Some a -> (0 < i)%nat ->
            endFixed a < f
            /\ endFixed a <= endStuckFixed r
            /\ endSlipped r - endStuckFixed r = endSlipped a - endFixed a).
  { intros a Ha Hpos. split; [apply (Hbelow (pred i)); [lia|exact Ha]|].
    destruct Hord as [_ HT]. apply (HT (pred i)); [exact Ha|].
    replace (S (pred i)) with i by lia. exact Hr. }
  set (f0 := endStuckFixed r' - (endSlipped r' - s)) in *.
  assert (Hf0max : f0 <= getMaxFixed map).
  { slip_cases map; [congruence|]. rewrite getMaxFixed_snoc.
    destruct (ordered_global _ Hord i' (length init) r' r0) as (? & _ & _).
    - apply lookup_lt_Some in Hr'. rewrite length_app in Hr'. simpl in Hr'. lia.
    - exact Hr'.
    - apply list_lookup_middle. reflexivity.
    - subst f0. lia. }
  exists f0, (endSlipped r - Z.max 0 (endStuckFixed r - f)).
  split; [exact Hfixed|]. split; [exact Hslipped|]. split; [|split].
  - destruct (lt_eq_lt_dec i i') as [[Hlt|Heq]|Hgt].
    + destruct (lookup_lt_is_Some_2 map (pred i')) as [a Ha].
      { apply lookup_lt_Some in Hr'. lia. }
      destruct (Hprev' a Ha ltac:(lia)) as (HEa & HFa & Hgap).
      destruct (ordered_global _ Hord i (pred i') r a ltac:(lia) Hr Ha)
        as (HF1 & HE1 & _).
      subst f0. split; intros ?; lia.
    + subst i'. rewrite Hr in Hr'. injection Hr' as <-.
      subst f0. split; intros ?; lia.
    + destruct (lookup_lt_is_Some_2 map (pred i)) as [a Ha].
      { apply lookup_lt_Some in Hr. lia. }
      destruct (Hprev a Ha ltac:(lia)) as (HFa & HFS & Hgap).
      destruct (ordered_global _ Hord i' (pred i) r' a ltac:(lia) Hr' Ha)
        as (HF1 & HE1 & _).
      subst f0. split; intros ?; lia.
  - exact Hf0max.
  - destruct (first_reaching map f0 Hne Hf0max HC)
      as (k & q & Hq & Hfq & Hbelowq & ->).
    f_equal.
    destruct (lt_eq_lt_dec k i') as [[Hlt|Heq]|Hgt].
    + exfalso.
      destruct (lookup_lt_is_Some_2 map (pred i')) as [a Ha].
      { apply lookup_lt_Some in Hr'. lia. }
      destruct (Hprev' a Ha ltac:(lia)) as (HEa & HFa & Hgap).
      destruct (ordered_global _ Hord k (pred i') q a ltac:(lia) Hq Ha)
        as (HF1 & _ & _).
      subst f0. lia.
    + subst k. rewrite Hq in Hr'. injection Hr' as ->. subst f0. lia.
    + exfalso. pose proof (Hbelowq i' r' Hgt Hr'). subst f0. lia.
Qed.

(** X11.  On a map built by [addStuckRange] first and then any calls whose
    arguments never decrease, every slipped offset [s] up to
    [getMaxSlipped()] survives the round trip through the fixed offsets:
    [fixedBySlipped(s)] returns a fixed offset within [getMaxFixed()], and
    [slippedByFixed] of it is [s]. *)
Theorem slippedByFixed_of_fixedBySlipped (g0 : Z) (calls : list Call) (s : Z) :
  nonDecreasingFrom g0 calls ->
  s <= getMaxSlipped (built (AddStuckRange g0 :: calls)) ->
  exists f,
    fixedBySlipped s (built (AddStuckRange g0 :: calls)) = Some f
    /\ f <= getMaxFixed (built (AddStuckRange g0 :: calls))
    /\ slippedByFixed f (built (AddStuckRange g0 :: calls)) = Some s.
Proof.
  intros Hcalls Hs.
  destruct (built_ordered g0 calls Hcalls) as [Hne Hord].
  destruct (ordered_searches _ s
              (getMaxFixed (built (AddStuckRange g0 :: calls)))
              Hne Hord Hs ltac:(lia))
    as (f0 & s' & Hf0 & _ & _ & Hmax & Hback).
  exists f0. split; [exact Hf0|]. split; [exact Hmax|exact Hback].
Qed.

Lemma slippedByFixed_of_fixedBySlipped_witness :
  exists f,
    fixedBySlipped 1
      (built [AddStuckRange 0; AddStuckRange 1; AddSlippedRange 3;
              AddStuckRange 4]) = Some f
    /\ f <= getMaxFixed
              (built [AddStuckRange 0; AddStuckRange 1; AddSlippedRange 3;
                      AddStuckRange 4])
    /\ slippedByFixed f
         (built [AddStuckRange 0; AddStuckRange 1; AddSlippedRange 3;
                 AddStuckRange 4]) = Some 1.
Proof.
  apply (slippedByFixed_of_fixedBySlipped 0
           [AddStuckRange 1; AddSlippedRange 3; AddStuckRange 4] 1).
  - simpl. lia.
  - vm_compute. discriminate.
Defined.

(** X12.  [fixedBySlipped] answers the smallest fixed offset for a slipped
    one: on a map built by [addStuckRange] first and then any calls whose
    arguments never decrease, for [s] up to [getMaxSlipped()] and [f] up to
    [getMaxFixed()], [fixedBySlipped(s) <= f] holds exactly when
    [s <= slippedByFixed(f)]. *)
Theorem fixedBySlipped_smallest (g0 : Z) (calls : list Call) (s f : Z) :
  nonDecreasingFrom g0 calls ->
  s <= getMaxSlipped (built (AddStuckRange g0 :: calls)) ->
  f <= getMaxFixed (built (AddStuckRange g0 :: calls)) ->
  exists f0 s',
    fixedBySlipped s (built (AddStuckRange g0 :: calls)) = Some f0
    /\ slippedByFixed f (built (AddStuckRange g0 :: calls)) = Some s'
    /\ (f0 <= f <-> s <= s').
Proof.
  intros Hcalls Hs Hf.
  destruct (built_ordered g0 calls Hcalls) as [Hne Hord].
  destruct (ordered_searches _ s f Hne Hord Hs Hf)
    as (f0 & s' & Hf0 & Hs' & Hiff & _ & _).
  exists f0, s'. split; [exact Hf0|]. split; [exact Hs'|exact Hiff].
Qed.

Lemma fixedBySlipped_smallest_witness :
  exists f0 s',
    fixedBySlipped 1
      (built [AddStuckRange 0; AddStuckRange 1; AddSlippedRange 3;
              AddStuckRange 4]) = Some f0
    /\ slippedByFixed 3
         (built [AddStuckRange 0; AddStuckRange 1; AddSlippedRange 3;
                 AddStuckRange 4]) = Some s'
    /\ (f0 <= 3 <-> 1 <= s').
Proof.
  apply (fixedBySlipped_smallest 0
           [AddStuckRange 1; AddSlippedRange 3; AddStuckRange 4] 1 3).
  - simpl. lia.
  - vm_compute. discriminate.
  - vm_compute. discriminate.
Defined.

(** X13.  Slipping never stretches: on a map built by [addStuckRange] first
    and then any calls whose arguments never decrease, for fixed offsets
    [f1 <= f2 <= getMaxFixed()] the slipped offsets are no further apart
    than [f1] and [f2] are, a slipped offset never exceeds its fixed offset,
    and [getMaxFixed()] slips to [getMaxSlipped()]. *)
Theorem slippedByFixed_nonexpansive (g0 : Z) (calls : list Call) (f1 f2 : Z) :
  nonDecreasingFrom g0 calls ->
  f1 <= f2 ->
  f2 <= getMaxFixed (built (AddStuckRange g0 :: calls)) ->
  exists s1 s2,
    slippedByFixed f1 (built (AddStuckRange g0 :: calls)) = Some s1
    /\ slippedByFixed f2 (built (AddStuckRange g0 :: calls)) = Some s2
    /\ s2 - s1 <= f2 - f1
    /\ s2 <= f2
    /\ slippedByFixed (getMaxFixed (built (AddStuckRange g0 :: calls)))
         (built (AddStuckRange g0 :: calls))
       = Some (getMaxSlipped (built (AddStuckRange g0 :: calls))).
Proof.
  intros Hcalls H12 Hmax.
  destruct (built_ordered g0 calls Hcalls) as [Hne Hord].
  set (map := built (AddStuckRange g0 :: calls)) in *.
  pose proof (ordered_climbs map Hord) as HC.
  destruct (first_reaching map f2 Hne Hmax HC)
    as (i2 & r2 & Hr2 & Hf2 & Hbelow2 & ->).
  destruct (first_reaching map f1 Hne ltac:(lia) HC)
    as (i1 & r1 & Hr1 & Hf1 & Hbelow1 & ->).
  destruct (ordered_range map _ _ Hord Hr1) as [HES1 HSF1].
  destruct (ordered_range map _ _ Hord Hr2) as [HES2 HSF2].
  eexists _, _. split; [reflexivity|]. split; [reflexivity|].
  split; [|split].
  - destruct (lt_eq_lt_dec i1 i2) as [[Hlt|Heq]|Hgt].
    + destruct (lookup_lt_is_Some_2 map (pred i2)) as [a Ha].
      { apply lookup_lt_Some in Hr2. lia. }
      pose proof (Hbelow2 (pred i2) a ltac:(lia) Ha) as Hlow.
      assert (Hlink : tight a r2).
      { destruct Hord as [_ HT]. apply (HT (pred i2)); [exact Ha|].
        replace (S (pred i2)) with i2 by lia. exact Hr2. }
      destruct (ordered_global _ Hord i1 (pred i2) r1 a ltac:(lia) Hr1 Ha)
        as (? & ? & ?).
      destruct Hlink as [? ?]. lia.
    + subst i2. rewrite Hr1 in Hr2. injection Hr2 as <-. lia.
    + pose proof (Hbelow1 i2 r2 Hgt Hr2). lia.
  - lia.
  - destruct (first_reaching map (getMaxFixed map) Hne ltac:(lia) HC)
      as (i & r & Hr & Hf & _ & ->).
    f_equal.
    destruct (ordered_range map _ _ Hord Hr) as [HES HSF].
    revert Hf. unfold getMaxSlipped, getMaxFixed.
    destruct (last map) as [l|] eqn:Hlast.
    2:{ apply last_None in Hlast. congruence. }
    intros Hf.
    pose proof Hlast as Hl. rewrite last_lookup in Hl.
    destruct (ordered_global _ Hord i (pred (length map)) r l) as (? & ? & ?);
      [|exact Hr|exact Hl|lia].
    apply lookup_lt_Some in Hr. lia.
Qed.

Lemma slippedByFixed_nonexpansive_witness :
  exists s1 s2,
    slippedByFixed 2
      (built [AddStuckRange 0; AddStuckRange 1; AddSlippedRange 3;
              AddStuckRange 4]) = Some s1
    /\ slippedByFixed 4
         (built [AddStuckRange 0; AddStuckRange 1; AddSlippedRange 3;
                 AddStuckRange 4]) = Some s2
    /\ s2 - s1 <= 4 - 2
    /\ s2 <= 4
    /\ slippedByFixed
         (getMaxFixed
            (built [AddStuckRange 0; AddStuckRange 1; AddSlippedRange 3;
                    AddStuckRange 4]))
         (built [AddStuckRange 0; AddStuckRange 1; AddSlippedRange 3;
                 AddStuckRange 4])
       = Some (getMaxSlipped
                 (built [AddStuckRange 0; AddStuckRange 1; AddSlippedRange 3;
                         AddStuckRange 4])).
Proof.
  apply (slippedByFixed_nonexpansive 0
           [AddStuckRange 1; AddSlippedRange 3; AddStuckRange 4] 2 4).
  - simpl. lia.
  - lia.
  - vm_compute. discriminate.
Defined.

(** ** SlipMap: when the searches throw *)





(** ** Box: what the methods leave as it is *)

Lemma sameFrame_refl (b : Box.t) : sameFrame b b.
Proof. repeat split; auto. Qed.

Lemma sameFrame_trans (b1 b2 b3 : Box.t) :
  sameFrame b1 b2 -> sameFrame b2 b3 -> sameFrame b1 b3.
Proof.
  intros (? & ? & ?) (? & ? & ?). repeat split; congruence.
Qed.

Lemma cacheAfter_frame name d (b : Box.t) :
  sameFrame b (Box.setStyleValues (cacheAfter b name d) b).
Proof. repeat split. Qed.

Lemma styleValue_frame name d (b : Box.t) :
  sameFrame b (Box.styleValue name d b).2.
Proof. rewrite styleValue_eq. apply cacheAfter_frame. Qed.

Lemma hasBox_frame (b : Box.t) : sameFrame b (Box.hasBox b).2.
Proof.
  unfold Box.hasBox, Box.displayValue.
  destruct (Box.hasBoxValue b); [apply sameFrame_refl|].
  destruct (Box.isParentBoxDisplayed b); [|repeat split; auto].
  pose proof (styleValue_frame "display" (Some Css.ident.inline) b) as Hf.
  destruct (Box.styleValue "display" (Some Css.ident.inline) b) as [v b1].
  simpl in *. destruct Hf as (? & ? & ?). repeat split; assumption.
Qed.

Lemma isBlock_frame (b b' : Box.t) v :
  Box.isBlock b = Some (v, b') -> sameFrame b b'.
Proof.
  destruct (Box.isBlockValue b) as [w|] eqn:Hcache.
  - rewrite (isBlock_cached b w Hcache). intros [= <- <-]. apply sameFrame_refl.
  - rewrite (isBlock_computed b Hcache). cbv zeta.
    destruct (Display.isBlock _ _ _ _) as [w|]; [|discriminate].
    simpl. intros [= <- <-].
    repeat split.
Qed.

Lemma getBreakValue_frame edge (b b' : Box.t) r :
  Box.getBreakValue edge b = Some (r, b') -> sameFrame b b'.
Proof.
  unfold Box.getBreakValue. intros H.
  destruct (Box.isBlock b) as [[block b1]|] eqn:Hblock; [|discriminate].
  simpl in H. pose proof (isBlock_frame b b1 block Hblock) as Hf1.
  destruct block.
  - pose proof (styleValue_frame ("break-" +:+ edge) None b1) as Hf2.
    destruct (Box.styleValue ("break-" +:+ edge) None b1) as [val b2].
    simpl in *. injection H as _ <-.
    eapply sameFrame_trans; eassumption.
  - injection H as _ <-. exact Hf1.
Qed.

Lemma setBreakBefore_frame v (b : Box.t) : sameFrame b (Box.setBreakBefore v b).
Proof. repeat split; auto. Qed.

Lemma setBeforeBox_frame v (b : Box.t) : sameFrame b (Box.setBeforeBox v b).
Proof. repeat split; auto. Qed.

(** The box the constructor returns keeps the chunk it was given and that
    chunk's flow name, and has no [::after] box. *)
Lemma construct_frame style offset isRoot fc abs afs ipd (o : Objects.t)
    (b : Box.t) (o' : Objects.t) :
  Box.construct style offset isRoot fc abs afs ipd o = Some (b, o') ->
  exists chunk,
    Objects.chunk fc o = Some chunk
    /\ Box.flowChunk b = fc
    /\ Box.flowName b = FlowChunk.flowName chunk
    /\ Box.afterBox b = None.
Proof.
  intros H.
  destruct (construct_inv _ _ _ _ _ _ _ _ _ _ H)
    as (chunk & this2 & o2 & own & this3 & Hinv).
  cbv zeta in Hinv. destruct Hinv as (Hchunk & Hmid & Hown & Hb & _).
  match type of Hmid with
  | context [Box.hasBox ?x] => set (this0 := x) in *
  end.
  assert (H12 : sameFrame (Box.hasBox this0).2 this2).
  { destruct Hmid as [[-> _]|(beforeStyle & block & this1' & beforeBox
                               & _ & Hblock & _ & Hthis2)].
    - apply sameFrame_refl.
    - pose proof (isBlock_frame _ _ _ Hblock) as Hf1.
      destruct Hthis2 as [->|(before' & breakBefore' & ->)]; [exact Hf1|].
      eapply sameFrame_trans; [exact Hf1|].
      eapply sameFrame_trans;
        [apply setBeforeBox_frame|apply setBreakBefore_frame]. }
  assert (Hf : sameFrame this0 b).
  { eapply sameFrame_trans; [apply hasBox_frame|].
    eapply sameFrame_trans; [exact H12|].
    subst b. eapply sameFrame_trans;
      [apply (getBreakValue_frame _ _ _ _ Hown)|apply setBreakBefore_frame]. }
  destruct Hf as (Hfc & Hfn & Hab).
  exists chunk. split; [exact Hchunk|].
  split; [rewrite Hfc; reflexivity|]. split; [rewrite Hfn; reflexivity|].
  rewrite Hab. reflexivity.
Qed.

(** ** Objects: the chunks and their flow names *)

Lemma writeBreakBefore_names ref v (o : Objects.t) :
  chunkNames (Objects.writeBreakBefore ref v o) = chunkNames o.
Proof.
  unfold chunkNames, Objects.writeBreakBefore. simpl.
  generalize (Objects.flowChunks o) as l. revert ref.
  induction ref as [|ref IH]; intros [|c l]; simpl; try reflexivity.
  f_equal. apply IH.
Qed.

Lemma construct_names style : forall offset isRoot fc abs afs ipd
    (o : Objects.t) (b : Box.t) (o' : Objects.t),
  Box.construct style offset isRoot fc abs afs ipd o = Some (b, o') ->
  chunkNames o' = chunkNames o.
Proof.
  induction style as [decls before after IH] using ElementStyle_before_ind.
  intros offset isRoot fc abs afs ipd o b o' H.
  destruct (construct_inv _ _ _ _ _ _ _ _ _ _ H)
    as (chunk & this2 & o2 & own & this3 & Hinv).
  cbv zeta in Hinv. destruct Hinv as (_ & Hmid & _ & _ & Hend).
  assert (H2 : chunkNames o2 = chunkNames o).
  { destruct Hmid as [[_ ->]|(beforeStyle & block & this1' & beforeBox
                              & Hbefore & _ & Hnew & _)].
    - reflexivity.
    - simpl in Hbefore. subst before.
      rewrite (IH _ _ _ _ _ _ _ _ _ Hnew). reflexivity. }
  destruct Hend as [->|(chunk0 & _ & ->)]; [exact H2|].
  rewrite writeBreakBefore_names. exact H2.
Qed.

Lemma chunk_names (o o' : Objects.t) ref c :
  chunkNames o' = chunkNames o ->
  Objects.chunk ref o = Some c ->
  exists c',
    Objects.chunk ref o' = Some c'
    /\ FlowChunk.flowName c' = FlowChunk.flowName c.
Proof.
  unfold chunkNames, Objects.chunk. intros Hnames Hc.
  assert (H : (FlowChunk.flowName <$> Objects.flowChunks o') !! ref
              = Some (FlowChunk.flowName c)).
  { rewrite Hnames, list_lookup_fmap, Hc. reflexivity. }
  rewrite list_lookup_fmap in H.
  destruct (Objects.flowChunks o' !! ref) as [c'|]; [|discriminate].
  simpl in H. injection H as H. eauto.
Qed.

Lemma stacked_frame (o o' : Objects.t) (b b' : Box.t) :
  chunkNames o' = chunkNames o -> sameFrame b b' ->
  stacked o b -> stacked o' b'.
Proof.
  intros Hnames (Hfc & Hfn & Hab) ((c & Hc & Hname) & Hafter).
  split.
  - destruct (chunk_names o o' _ c Hnames Hc) as (c' & Hc' & Hname').
    exists c'. rewrite Hfc, Hfn. split; [exact Hc'|congruence].
  - congruence.
Qed.

(** ** Display and Box: calls that cannot throw *)

Lemma Display_isBlock_returns d position float isRoot :
  is_Some (Display.isBlock (Some d) position float isRoot).
Proof.
  unfold Display.isBlock, Display.getComputedDislayValue.
  destruct (bool_decide (Some d = Some Css.ident.none)); simpl; [eauto|].
  destruct (Display.isAbsolutelyPositioned position); simpl; [eauto|].
  destruct (_ || _); simpl; eauto.
Qed.

Lemma declared_display style :
  exists d, declared style "display" (Some Css.ident.inline) = Some d.
Proof.
  unfold declared.
  destruct (CssCascade.declarations style !! "display"%string); eauto.
Qed.

Lemma isBlock_returns (b : Box.t) :
  coherent b -> is_Some (Box.isBlock b).
Proof.
  intros Hco.
  destruct (Box.isBlockValue b) as [w|] eqn:Hcache.
  - rewrite (isBlock_cached b w Hcache). eauto.
  - rewrite (isBlock_computed b Hcache). cbv zeta.
    rewrite (valueRead_coherent "display" _ b eq_refl Hco).
    destruct (declared_display (Box.style b)) as [d ->].
    destruct (Display_isBlock_returns d
                (valueRead
                   (Box.setStyleValues
                      (cacheAfter b "display" (Some Css.ident.inline)) b)
                   "position" None)
                (valueRead
                   (Box.setStyleValues
                      (cacheAfter
                         (Box.setStyleValues
                            (cacheAfter b "display" (Some Css.ident.inline)) b)
                         "position" None)
                      (Box.setStyleValues
                         (cacheAfter b "display" (Some Css.ident.inline)) b))
                   "float" None)
                (Box.isRoot b)) as [v Hv].
    rewrite Hv. simpl. eauto.
Qed.

Lemma getBreakValue_returns edge (b : Box.t) :
  coherent b -> is_Some (Box.getBreakValue edge b).
Proof.
  intros Hco. unfold Box.getBreakValue.
  destruct (isBlock_returns b Hco) as [[block b1] ->]. simpl.
  destruct block; [|eauto].
  destruct (Box.styleValue ("break-" +:+ edge) None b1). eauto.
Qed.

(** ** Box: the constructor returns whenever its chunk exists *)

Lemma chunksKept_is_Some (o o' : Objects.t) ref :
  chunksKept o o' -> is_Some (Objects.chunk ref o) ->
  is_Some (Objects.chunk ref o').
Proof.
  intros Hkept [c Hc]. destruct (Hkept ref c Hc) as (c' & Hc' & _). eauto.
Qed.

Lemma construct_returns style : forall offset isRoot fc abs afs ipd
    (o : Objects.t),
  is_Some (Objects.chunk fc o) ->
  is_Some (Box.construct style offset isRoot fc abs afs ipd o).
Proof.
  induction style as [decls before after IH] using ElementStyle_before_ind.
  intros offset isRoot fc abs afs ipd o [chunk Hchunk].
  cbn [Box.construct Objects.allocateBox].
  match goal with
  | |- is_Some (Objects.chunk fc ?x ≫= _) =>
      change (Objects.chunk fc x) with (Objects.chunk fc o);
      set (o1 := x)
  end.
  rewrite Hchunk. cbn [mbind option_bind].
  match goal with
  | |- context [Box.hasBox ?x] => set (this0 := x)
  end.
  destruct (fresh_box_wellCached (Objects.boxesCreated o)
              (CssCascade.mkElementStyle decls before after) offset isRoot fc
              abs afs ipd (FlowChunk.flowName chunk)) as [Hco0 Hmemo0].
  fold this0 in Hco0, Hmemo0.
  destruct (hasBox_good this0 Hco0 Hmemo0) as [Hco1 Hmemo1].
  destruct (Box.hasBox this0) as [has this1]. cbn [snd] in Hco1, Hmemo1.
  assert (Hchunk1 : is_Some (Objects.chunk fc o1)) by (exists chunk; exact Hchunk).
  match goal with
  | |- is_Some (?mid ≫= _) =>
      assert (Hmid : exists this2 o2,
                mid = Some (this2, o2) /\ coherent this2
                /\ is_Some (Objects.chunk fc o2))
  end.
  { destruct has; [|eauto 6].
    cbn [CssCascade.pseudoBefore].
    destruct before as [beforeStyle|]; [|eauto 6].
    destruct (isBlock_returns this1 Hco1) as [[block this1'] Hblock].
    rewrite Hblock. cbn [mbind option_bind].
    destruct (isBlock_good _ _ _ Hco1 Hmemo1 Hblock) as [Hco1' _].
    destruct (IH offset false fc block afs true o1 Hchunk1)
      as [[beforeBox o2] Hnew].
    rewrite Hnew. cbn [mbind option_bind].
    pose proof (chunksKept_is_Some o1 o2 fc
                  (construct_kept _ _ _ _ _ _ _ _ _ _ Hnew) Hchunk1) as Hchunk2.
    destruct (Box.styleValue "content" None beforeBox)
      as [beforeContent beforeBox0].
    destruct (Vtree.nonTrivialContent beforeContent).
    - eexists _, _. split; [reflexivity|]. split; [exact Hco1'|exact Hchunk2].
    - eexists _, _. split; [reflexivity|]. split; [exact Hco1'|exact Hchunk2]. }
  destruct Hmid as (this2 & o2 & -> & Hco2 & [chunk2 Hchunk2]).
  cbn [mbind option_bind].
  destruct (getBreakValue_returns "before" this2 Hco2) as [[own this3] ->].
  cbn [mbind option_bind].
  destruct (_ && _); [|eauto].
  rewrite Hchunk2. cbn [mbind option_bind]. eauto.
Qed.

(** X15.  [new Box(...)] throws exactly when the chunk it is given does not
    exist; with an existing chunk the constructor returns, whatever the
    style, also when it builds a [::before] box. *)
Theorem construct_throws_without_chunk style offset isRoot fc abs afs ipd
    (o : Objects.t) :
  Box.construct style offset isRoot fc abs afs ipd o = None
  <-> Objects.chunk fc o = None.
Proof.
  split.
  - intros Hnone.
    destruct (Objects.chunk fc o) as [chunk|] eqn:Hchunk; [|reflexivity].
    destruct (construct_returns style offset isRoot fc abs afs ipd o)
      as [r Hr]; [rewrite Hchunk; eauto|].
    rewrite Hr in Hnone. discriminate.
  - intros Hchunk.
    destruct (Box.construct style offset isRoot fc abs afs ipd o)
      as [[b o']|] eqn:H; [|reflexivity].
    destruct (construct_frame _ _ _ _ _ _ _ _ _ _ H) as (chunk & Hc & _).
    rewrite Hchunk in Hc. discriminate.
Qed.

(** ** BoxStack: flow changes along the stack *)

Lemma flowChanges_snoc (names : list string) (x : string) :
  flowChanges (names ++ [x])
  = (flowChanges names
     + match last names with
       | Some p => if bool_decide (p <> x) then 1 else 0
       | None => 0
       end)%nat.
Proof.
  induction names as [|a rest IH]; [reflexivity|].
  destruct rest as [|b rest'].
  - simpl. lia.
  - change (flowChanges ((a :: b :: rest') ++ [x]))
      with ((if bool_decide (a <> b) then 1 else 0)
            + flowChanges ((b :: rest') ++ [x]))%nat.
    rewrite IH.
    change (flowChanges (a :: b :: rest'))
      with ((if bool_decide (a <> b) then 1 else 0)
            + flowChanges (b :: rest'))%nat.
    change (last (a :: b :: rest')) with (last (b :: rest')).
    lia.
Qed.

Lemma frames_names (l l' : list Box.t) :
  Forall2 sameFrame l l' -> Box.flowName <$> l' = Box.flowName <$> l.
Proof.
  induction 1 as [|b b' l l' (_ & Hfn & _) _ IH]; [reflexivity|].
  rewrite !fmap_cons, Hfn, IH. reflexivity.
Qed.

Lemma frames_stacked (o o' : Objects.t) (l l' : list Box.t) :
  chunkNames o' = chunkNames o ->
  Forall2 sameFrame l l' -> Forall (stacked o) l -> Forall (stacked o') l'.
Proof.
  intros Hnames. induction 1 as [|b b' l l' Hf _ IH]; [constructor|].
  intros Hst. apply Forall_cons in Hst as [Hb Hl]. constructor.
  - apply (stacked_frame o o' b b' Hnames Hf Hb).
  - apply IH, Hl.
Qed.

Lemma frames_refl (l : list Box.t) : Forall2 sameFrame l l.
Proof. induction l; constructor; [apply sameFrame_refl|assumption]. Qed.

Lemma everyDisplayed_frame (stack : list Box.t) :
  Forall2 sameFrame stack (BoxStack.everyDisplayed stack).2.
Proof.
  induction stack as [|box rest IH]; [constructor|].
  cbn [BoxStack.everyDisplayed]. unfold Box.displayValue.
  pose proof (styleValue_frame "display" (Some Css.ident.inline) box) as Hf.
  destruct (Box.styleValue "display" (Some Css.ident.inline) box)
    as [display box1].
  simpl in Hf. case_bool_decide.
  - destruct (BoxStack.everyDisplayed rest) as [r rest1]. simpl in *.
    constructor; assumption.
  - simpl. constructor; [exact Hf|apply frames_refl].
Qed.

Lemma isCurrentBoxDisplayed_frame (s : BoxStack.t) :
  Forall2 sameFrame (BoxStack.stack s)
    (BoxStack.stack (BoxStack.isCurrentBoxDisplayed s).2)
  /\ BoxStack.atBlockStart (BoxStack.isCurrentBoxDisplayed s).2
     = BoxStack.atBlockStart s
  /\ BoxStack.atFlowStart (BoxStack.isCurrentBoxDisplayed s).2
     = BoxStack.atFlowStart s
  /\ BoxStack.atStartStack (BoxStack.isCurrentBoxDisplayed s).2
     = BoxStack.atStartStack s.
Proof.
  unfold BoxStack.isCurrentBoxDisplayed.
  pose proof (everyDisplayed_frame (BoxStack.stack s)) as Hf.
  destruct (BoxStack.everyDisplayed (BoxStack.stack s)) as [r stack1].
  simpl in *. repeat split. exact Hf.
Qed.

(** ** BoxStack.push *)

Lemma push_stack style offset isRoot nfc (s : BoxStack.t) (o : Objects.t)
    (box : Box.t) (s' : BoxStack.t) (o' : Objects.t) :
  Forall (stacked o) (BoxStack.stack s) ->
  length (BoxStack.atStartStack s)
  = flowChanges (Box.flowName <$> BoxStack.stack s) ->
  BoxStack.push style offset isRoot nfc s o = Some (box, s', o') ->
  chunkNames o' = chunkNames o
  /\ Forall (stacked o') (BoxStack.stack s')
  /\ length (BoxStack.atStartStack s')
     = flowChanges (Box.flowName <$> BoxStack.stack s').
Proof.
  intros Hst Hlen H. unfold BoxStack.push, BoxStack.lastBox in H.
  match type of H with
  | (?m ≫= _) = _ => destruct m as [atStartStack'|] eqn:Hsaved
  end; [|discriminate].
  cbn [mbind option_bind] in H.
  match type of H with
  | (?m ≫= _) = _ => destruct m as [fc|] eqn:Hfc
  end; [|discriminate].
  cbn [mbind option_bind] in H.
  destruct (isCurrentBoxDisplayed_frame s) as (Hframes & Habs & Hafs & Hass).
  destruct (BoxStack.isCurrentBoxDisplayed s) as [isParentBoxDisplayed s1].
  cbn [snd] in Hframes, Habs, Hafs, Hass.
  match type of H with
  | (?m ≫= _) = _ => destruct m as [[box0 o1]|] eqn:Hnew
  end; [|discriminate].
  cbn [mbind option_bind] in H.
  pose proof (hasBox_frame box0) as Hf1.
  destruct (Box.hasBox box0) as [has box1]. cbn [snd] in Hf1.
  match type of H with
  | (?m ≫= _) = _ => destruct m as [[atBlockStart' box2]|] eqn:Hblock
  end; [|discriminate].
  cbn [mbind option_bind] in H.
  assert (Hf2 : sameFrame box1 box2).
  { destruct has.
    - destruct (bool_decide (is_Some (Box.beforeBox box1))).
      + injection Hblock as _ <-. apply sameFrame_refl.
      + apply (isBlock_frame _ _ _ Hblock).
    - injection Hblock as _ <-. apply sameFrame_refl. }
  pose proof (hasBox_frame box2) as Hf3.
  destruct (Box.hasBox box2) as [has2 box3]. cbn [snd] in Hf3.
  injection H as <- <- <-. cbn [BoxStack.stack BoxStack.atStartStack].
  pose proof (construct_names _ _ _ _ _ _ _ _ _ _ Hnew) as Hnames.
  destruct (construct_frame _ _ _ _ _ _ _ _ _ _ Hnew)
    as (chunk & Hchunk & Hfc0 & Hfn0 & Hab0).
  assert (Hf : sameFrame box0 box3).
  { eapply sameFrame_trans; [exact Hf1|].
    eapply sameFrame_trans; [exact Hf2|exact Hf3]. }
  assert (Hbox0 : stacked o box0).
  { split; [|assumption].
    exists chunk. rewrite Hfc0. split; [exact Hchunk|congruence]. }
  split; [exact Hnames|]. split.
  - apply Forall_app. split.
    + apply (frames_stacked o o1 _ _ Hnames Hframes Hst).
    + apply Forall_singleton.
      apply (stacked_frame o o1 box0 box3 Hnames Hf Hbox0).
  - rewrite fmap_app, (frames_names _ _ Hframes). simpl.
    rewrite flowChanges_snoc, fmap_last.
    destruct Hf as (_ & Hfn3 & _). rewrite Hfn3, Hfn0.
    destruct nfc as [new|]; destruct (last (BoxStack.stack s)) as [lb|] eqn:Hlast;
      simpl in Hsaved, Hfc |- *.
    + injection Hfc as <-. rewrite Hchunk in Hsaved. simpl in Hsaved.
      destruct (decide (FlowChunk.flowName chunk = Box.flowName lb)) as [He|He].
      * rewrite bool_decide_eq_false_2 in Hsaved by (intros Hn; exact (Hn He)).
        injection Hsaved as <-.
        rewrite bool_decide_eq_false_2 by (intros Hn; apply Hn; congruence).
        lia.
      * rewrite bool_decide_eq_true_2 in Hsaved by exact He.
        injection Hsaved as <-.
        rewrite bool_decide_eq_true_2 by congruence.
        rewrite length_app. simpl. lia.
    + injection Hsaved as <-. lia.
    + injection Hsaved as <-. injection Hfc as <-.
      rewrite Forall_forall in Hst.
      destruct (Hst lb) as ((c & Hc & Hname) & _).
      { apply last_Some_elem_of. exact Hlast. }
      rewrite Hchunk in Hc. injection Hc as <-.
      rewrite bool_decide_eq_false_2 by (intros Hn; apply Hn; congruence).
      lia.
    + discriminate.
Qed.

Lemma push_returns style offset isRoot nfc (s : BoxStack.t) (o : Objects.t) :
  Forall (stacked o) (BoxStack.stack s) ->
  match nfc with
  | Some ref => is_Some (Objects.chunk ref o)
  | None => BoxStack.stack s <> []
  end ->
  is_Some (BoxStack.push style offset isRoot nfc s o).
Proof.
  intros Hst Hnfc. unfold BoxStack.push, BoxStack.lastBox.
  match goal with
  | |- is_Some (?m ≫= _) =>
      assert (Hsaved : is_Some m)
  end.
  { destruct nfc as [new|]; [|eauto].
    destruct (last (BoxStack.stack s)) as [lb|]; [|eauto].
    destruct Hnfc as [c ->]. simpl.
    destruct (bool_decide _); eauto. }
  destruct Hsaved as [atStartStack' ->]. cbn [mbind option_bind].
  match goal with
  | |- is_Some (?m ≫= _) =>
      assert (Hfc : exists fc, m = Some fc /\ is_Some (Objects.chunk fc o))
  end.
  { destruct nfc as [new|]; [eauto|].
    destruct (last (BoxStack.stack s)) as [lb|] eqn:Hlast.
    - exists (Box.flowChunk lb). split; [reflexivity|].
      rewrite Forall_forall in Hst.
      destruct (Hst lb (last_Some_elem_of _ _ Hlast)) as ((c & Hc & _) & _).
      eauto.
    - apply last_None in Hlast. contradiction. }
  destruct Hfc as (fc & -> & Hchunk). cbn [mbind option_bind].
  destruct (BoxStack.isCurrentBoxDisplayed s) as [isParentBoxDisplayed s1].
  match goal with
  | |- is_Some (Box.construct ?st ?off ?root ?c ?a ?f ?p ?ob ≫= _) =>
      destruct (construct_returns st off root c a f p ob Hchunk)
        as [[box0 o1] Hnew];
      rewrite Hnew;
      destruct (construct_memo _ _ _ _ _ _ _ _ _ _ Hnew)
        as (Hhas & v & _ & Hblock)
  end.
  cbn [mbind option_bind].
  rewrite (hasBox_cached box0 _ Hhas).
  rewrite (isBlock_cached box0 v Hblock).
  match goal with
  | |- is_Some (?m ≫= _) =>
      assert (Hm : exists a, m = Some (a, box0))
  end.
  { destruct (hasBoxOf style isParentBoxDisplayed);
      [destruct (bool_decide (is_Some (Box.beforeBox box0)))|];
      eexists; reflexivity. }
  destruct Hm as [a ->]. cbn [mbind option_bind].
  rewrite (hasBox_cached box0 _ Hhas). eauto.
Qed.

(** ** BoxStack.pop *)

Lemma buildAfterPseudoElementBox_frame offset abs afs (b : Box.t)
    (o : Objects.t) (b' : Box.t) (o' : Objects.t) :
  Box.buildAfterPseudoElementBox offset abs afs b o = Some (b', o') ->
  Box.afterBox b = None ->
  Box.flowChunk b' = Box.flowChunk b
  /\ Box.flowName b' = Box.flowName b
  /\ chunkNames o' = chunkNames o
  /\ match Box.afterBox b' with
     | Some afterBox => is_Some (Box.isBlockValue afterBox)
     | None => True
     end.
Proof.
  unfold Box.buildAfterPseudoElementBox. intros H Hnone.
  destruct (hasBox_frame b) as (Hfc & Hfn & Hab).
  destruct (Box.hasBox b) as [has b1]. cbn [snd] in Hfc, Hfn, Hab.
  rewrite Hnone in Hab.
  destruct has;
    [|injection H as <- <-; rewrite Hab; repeat split; assumption].
  destruct (CssCascade.pseudoAfter (Box.style b1)) as [afterStyle|];
    [|injection H as <- <-; rewrite Hab; repeat split; assumption].
  destruct (Box.construct afterStyle offset false (Box.flowChunk b1) abs afs
              true o) as [[afterBox o1]|] eqn:Hnew; [|discriminate].
  cbn [mbind option_bind] in H.
  pose proof (construct_names _ _ _ _ _ _ _ _ _ _ Hnew) as Hnames.
  destruct (construct_memo _ _ _ _ _ _ _ _ _ _ Hnew) as (_ & v & _ & Hblock).
  destruct (styleValue_settled "content" None afterBox)
    as (_ & _ & _ & _ & Hkeep).
  destruct (Box.styleValue "content" None afterBox) as [content afterBox0].
  cbn [snd] in Hkeep.
  destruct (Vtree.nonTrivialContent content); injection H as <- <-.
  - simpl. rewrite (Hkeep v Hblock). repeat split; eauto.
  - rewrite Hab. repeat split; assumption.
Qed.

Lemma buildAfterPseudoElementBox_returns offset abs afs (b : Box.t)
    (o : Objects.t) :
  is_Some (Objects.chunk (Box.flowChunk b) o) ->
  is_Some (Box.buildAfterPseudoElementBox offset abs afs b o).
Proof.
  unfold Box.buildAfterPseudoElementBox. intros Hchunk.
  destruct (hasBox_frame b) as (Hfc & _).
  destruct (Box.hasBox b) as [has b1]. cbn [snd] in Hfc.
  destruct has; [|eauto].
  destruct (CssCascade.pseudoAfter (Box.style b1)) as [afterStyle|]; [|eauto].
  rewrite <- Hfc in Hchunk.
  destruct (construct_returns afterStyle offset false (Box.flowChunk b1) abs
              afs true o Hchunk) as [[afterBox o1] ->].
  cbn [mbind option_bind].
  destruct (Box.styleValue "content" None afterBox) as [content afterBox0].
  destruct (Vtree.nonTrivialContent content); eauto.
Qed.

Lemma chunk_names_is_Some (o o' : Objects.t) ref :
  chunkNames o' = chunkNames o ->
  is_Some (Objects.chunk ref o) -> is_Some (Objects.chunk ref o').
Proof.
  intros Hnames [c Hc].
  destruct (chunk_names o o' ref c Hnames Hc) as (c' & Hc' & _). eauto.
Qed.

(** The steps of [pop] before the flags are restored: the box leaves the
    stack, its [::after] box is built, and the break-before of the
    [::after] box is folded into the chunk. *)
Lemma pop_stack offset (s : BoxStack.t) (o : Objects.t) (box : Box.t)
    (s' : BoxStack.t) (o' : Objects.t) :
  Forall (stacked o) (BoxStack.stack s) ->
  length (BoxStack.atStartStack s)
  = flowChanges (Box.flowName <$> BoxStack.stack s) ->
  BoxStack.pop offset s o = Some (box, s', o') ->
  chunkNames o' = chunkNames o
  /\ Forall (stacked o') (BoxStack.stack s')
  /\ length (BoxStack.atStartStack s')
     = flowChanges (Box.flowName <$> BoxStack.stack s').
Proof.
  intros Hst Hlen H. unfold BoxStack.pop in H.
  destruct (last (BoxStack.stack s)) as [box0|] eqn:Hlast; [|discriminate].
  cbn [mbind option_bind] in H.
  apply last_Some in Hlast as [init Hstack].
  rewrite Hstack in H, Hst, Hlen. rewrite removelast_last in H.
  apply Forall_app in Hst as [Hinit Hbox0].
  rewrite Forall_singleton in Hbox0.
  destruct Hbox0 as (_ & Hafter0).
  match type of H with
  | (?m ≫= _) = _ => destruct m as [[box1 o1]|] eqn:Hafter
  end; [|discriminate].
  cbn [mbind option_bind] in H.
  destruct (buildAfterPseudoElementBox_frame _ _ _ _ _ _ _ Hafter Hafter0)
    as (Hfc1 & Hfn1 & Hnames1 & _).
  match type of H with
  | (?m ≫= _) = _ => destruct m as [[box2 o2]|] eqn:Hfold
  end; [|discriminate].
  cbn [mbind option_bind] in H.
  assert (H2 : Box.flowName box2 = Box.flowName box1
               /\ chunkNames o2 = chunkNames o1).
  { destruct (Box.afterBox box1) as [afterBox|];
      [|injection Hfold as <- <-; split; reflexivity].
    destruct (BoxStack.atFlowStart s);
      [|injection Hfold as <- <-; split; reflexivity].
    destruct (Box.getBreakValue "before" afterBox) as [[breakBefore afterBox1]|];
      [|discriminate].
    cbn [mbind option_bind] in Hfold.
    destruct (Objects.chunk (Box.flowChunk box1) o1) as [chunk|];
      [|discriminate].
    cbn [mbind option_bind] in Hfold. injection Hfold as <- <-.
    split; [reflexivity|apply writeBreakBefore_names]. }
  destruct H2 as [Hfn2 Hnames2].
  assert (Hnames : chunkNames o2 = chunkNames o) by congruence.
  rewrite fmap_app in Hlen. simpl in Hlen.
  rewrite flowChanges_snoc, fmap_last in Hlen.
  assert (Hend : o' = o2 /\ BoxStack.stack s' = init
                 /\ length (BoxStack.atStartStack s')
                    = flowChanges (Box.flowName <$> init)).
  { destruct (last init) as [parent|] eqn:Hparent.
    - simpl in Hlen.
      destruct (decide (Box.flowName parent = Box.flowName box2)) as [He|He].
      + rewrite (bool_decide_eq_true_2 _ He) in H.
        rewrite bool_decide_eq_false_2 in Hlen
          by (intros Hn; apply Hn; congruence).
        destruct (Box.hasBox box2) as [has box3].
        destruct has; injection H as _ <- <-; simpl;
          (split; [reflexivity|]); (split; [reflexivity|]); lia.
      + rewrite (bool_decide_eq_false_2 _ He) in H.
        rewrite bool_decide_eq_true_2 in Hlen by congruence.
        destruct (last (BoxStack.atStartStack s)) as [atStart|] eqn:Hsaved;
          [|discriminate].
        cbn [mbind option_bind] in H. injection H as _ <- <-. simpl.
        split; [reflexivity|]. split; [reflexivity|].
        apply last_Some in Hsaved as [rest Hrest]. rewrite Hrest in Hlen |- *.
        rewrite removelast_last. rewrite length_app in Hlen. simpl in Hlen.
        lia.
    - injection H as _ <- <-. simpl.
      split; [reflexivity|]. split; [reflexivity|].
      apply last_None in Hparent. subst init. simpl in *. lia. }
  destruct Hend as (-> & -> & Hlen').
  split; [exact Hnames|]. split; [|exact Hlen'].
  apply (frames_stacked o o2 init init Hnames (frames_refl init) Hinit).
Qed.

Lemma pop_returns offset (s : BoxStack.t) (o : Objects.t) :
  Forall (stacked o) (BoxStack.stack s) ->
  length (BoxStack.atStartStack s)
  = flowChanges (Box.flowName <$> BoxStack.stack s) ->
  BoxStack.stack s <> [] ->
  is_Some (BoxStack.pop offset s o).
Proof.
  intros Hst Hlen Hne. unfold BoxStack.pop.
  destruct (last (BoxStack.stack s)) as [box0|] eqn:Hlast.
  2:{ apply last_None in Hlast. contradiction. }
  cbn [mbind option_bind].
  apply last_Some in Hlast as [init Hstack].
  rewrite Hstack in Hst, Hlen |- *. rewrite removelast_last.
  apply Forall_app in Hst as [Hinit Hbox0].
  rewrite Forall_singleton in Hbox0.
  destruct Hbox0 as ((c & Hc & Hcname) & Hafter0).
  destruct (buildAfterPseudoElementBox_returns offset (BoxStack.atBlockStart s)
              (BoxStack.atFlowStart s) box0 o ltac:(eauto))
    as [[box1 o1] Hafter].
  rewrite Hafter. cbn [mbind option_bind].
  destruct (buildAfterPseudoElementBox_frame _ _ _ _ _ _ _ Hafter Hafter0)
    as (Hfc1 & Hfn1 & Hnames1 & Hcached).
  match goal with
  | |- is_Some (?m ≫= _) =>
      assert (Hfold : exists box2 o2,
                m = Some (box2, o2) /\ Box.flowName box2 = Box.flowName box1)
  end.
  { destruct (Box.afterBox box1) as [afterBox|]; [|eauto].
    destruct (BoxStack.atFlowStart s); [|eauto].
    destruct Hcached as [v Hv].
    unfold Box.getBreakValue. rewrite (isBlock_cached afterBox v Hv).
    cbn [mbind option_bind].
    destruct (chunk_names_is_Some o o1 (Box.flowChunk box1) Hnames1)
      as [c1 Hc1]; [rewrite Hfc1; eauto|].
    destruct v.
    - destruct (Box.styleValue ("break-" +:+ "before") None afterBox)
        as [val afterBox1].
      cbn [mbind option_bind]. rewrite Hc1. cbn [mbind option_bind].
      eexists _, _. split; reflexivity.
    - cbn [mbind option_bind]. rewrite Hc1. cbn [mbind option_bind].
      eexists _, _. split; reflexivity. }
  destruct Hfold as (box2 & o2 & -> & Hfn2). cbn [mbind option_bind].
  rewrite fmap_app in Hlen. simpl in Hlen.
  rewrite flowChanges_snoc, fmap_last in Hlen.
  destruct (last init) as [parent|] eqn:Hparent; [|eauto].
  simpl in Hlen.
  destruct (decide (Box.flowName parent = Box.flowName box2)) as [He|He].
  - rewrite (bool_decide_eq_true_2 _ He).
    destruct (Box.hasBox box2) as [has box3]. destruct has; eauto.
  - rewrite (bool_decide_eq_false_2 _ He).
    rewrite bool_decide_eq_true_2 in Hlen by congruence.
    destruct (last (BoxStack.atStartStack s)) as [atStart|] eqn:Hsaved.
    + cbn [mbind option_bind]. eauto.
    + apply last_None in Hsaved. rewrite Hsaved in Hlen. simpl in Hlen. lia.
Qed.

(** ** BoxStack.encounteredTextNode *)

Lemma frames_insert_last (l : list Box.t) b b' :
  last l = Some b -> sameFrame b b' ->
  Forall2 sameFrame l (<[pred (length l) := b']> l).
Proof.
  intros Hlast Hf. apply last_Some in Hlast as [init ->].
  rewrite length_app. simpl.
  replace (pred (length init + 1)) with (length init + 0)%nat by lia.
  rewrite insert_app_r. simpl.
  apply Forall2_app; [apply frames_refl|].
  constructor; [exact Hf|constructor].
Qed.

Lemma encounteredTextNode_stack canIgnore (s s' : BoxStack.t) :
  BoxStack.encounteredTextNode canIgnore s = Some s' ->
  Forall2 sameFrame (BoxStack.stack s) (BoxStack.stack s')
  /\ BoxStack.atStartStack s' = BoxStack.atStartStack s.
Proof.
  unfold BoxStack.encounteredTextNode, BoxStack.lastBox. intros H.
  destruct (BoxStack.atBlockStart s || BoxStack.atFlowStart s);
    [|injection H as <-; split; [apply frames_refl|reflexivity]].
  destruct (last (BoxStack.stack s)) as [box0|] eqn:Hlast; [|discriminate].
  cbn [mbind option_bind] in H.
  pose proof (hasBox_frame box0) as Hf1.
  destruct (Box.hasBox box0) as [has box1]. cbn [snd] in Hf1.
  destruct has.
  - pose proof (styleValue_frame "white-space" (Some Css.ident.normal) box1)
      as Hf2.
    destruct (Box.styleValue "white-space" (Some Css.ident.normal) box1)
      as [whitespaceValue box2].
    cbn [snd] in Hf2.
    destruct whitespaceValue as [w|]; [|discriminate].
    cbn [fmap option_fmap option_map mbind option_bind] in H.
    assert (Hf : sameFrame box0 box2)
      by (eapply sameFrame_trans; eassumption).
    destruct (negb canIgnore); injection H as <-; simpl;
      (split; [apply (frames_insert_last _ _ _ Hlast Hf)|reflexivity]).
  - injection H as <-. simpl.
    split; [apply (frames_insert_last _ _ _ Hlast Hf1)|reflexivity].
Qed.

(** ** Styler: what every reachable styler satisfies *)

Lemma exampleStyler_consistent : consistent exampleStyler.
Proof.
  split; [constructor|]. split; [reflexivity|]. split; [split|].
  - constructor.
  - intros name [flow H]. simpl in H. rewrite lookup_empty in H.
    discriminate.
  - intros name flow offset H. simpl in H. rewrite lookup_empty in H.
    discriminate.
Qed.

Lemma encounteredFlowElement_consistent flowName elem startOffset priority
    linger exclusive repeated last (s : Styler.t) :
  consistent s ->
  consistent (Styler.encounteredFlowElement flowName elem startOffset priority
                linger exclusive repeated last s).2.
Proof.
  intros (Hst & Hlen & [Hflows Hown] & Hforced).
  unfold Styler.encounteredFlowElement. cbn [snd].
  set (flows' := match Styler.flows s !! flowName with
                 | Some _ => Styler.flows s
                 | None => _
                 end).
  assert (Hkeep : forall name,
            is_Some (Styler.flows s !! name) -> is_Some (flows' !! name)).
  { intros name Hname. subst flows'.
    destruct (Styler.flows s !! flowName); [exact Hname|].
    destruct (JsObject.inherited flowName); [exact Hname|].
    rewrite lookup_insert_is_Some. destruct (decide (flowName = name)); auto. }
  assert (Hnew : JsObject.inherited flowName = false ->
                 is_Some (flows' !! flowName)).
  { intros Hname. subst flows'.
    destruct (Styler.flows s !! flowName) eqn:Hknown.
    - rewrite Hknown. eauto.
    - rewrite Hname, lookup_insert_eq. eauto. }
  assert (Hback : forall name flow,
            flows' !! name = Some flow ->
            Styler.flows s !! name = Some flow
            \/ (JsObject.inherited name = false
                /\ Flow.forcedBreakOffsets flow = [])).
  { intros name flow Hflow. subst flows'.
    destruct (Styler.flows s !! flowName) eqn:Hknown; [left; exact Hflow|].
    destruct (JsObject.inherited flowName) eqn:Hname; [left; exact Hflow|].
    apply lookup_insert_Some in Hflow as [[<- <-]|[_ Hflow]].
    - right. split; [exact Hname|reflexivity].
    - left. exact Hflow. }
  split; [|split; [|split; [split|]]]; simpl.
  - eapply Forall_impl; [exact Hst|].
    intros b ((c & Hc & Hname) & Hafter).
    split; [|assumption]. exists c. split; [|exact Hname].
    unfold Objects.chunk in *. simpl.
    rewrite lookup_app_l by (eapply lookup_lt_Some; exact Hc). exact Hc.
  - exact Hlen.
  - unfold chunkNames. simpl. rewrite fmap_app. apply Forall_app. split.
    + eapply Forall_impl; [exact Hflows|]. intros name Hname Hn.
      apply Hkeep, Hname, Hn.
    + apply Forall_singleton. exact Hnew.
  - intros name [flow Hflow].
    destruct (Hback name flow Hflow) as [Hold|[Hname _]]; [|exact Hname].
    apply Hown. eauto.
  - intros name flow offset Hflow Hin.
    destruct (Hback name flow Hflow) as [Hold|[_ Hnil]].
    + exact (Hforced name flow offset Hold Hin).
    + rewrite Hnil in Hin. apply elem_of_nil in Hin. contradiction.
Qed.

Lemma registerForcedBreakOffset_flows_back bv off fn (s s' : Styler.t) x :
  Styler.registerForcedBreakOffset bv off fn s = Some s' ->
  is_Some (Styler.flows s' !! x) -> is_Some (Styler.flows s !! x).
Proof.
  unfold Styler.registerForcedBreakOffset. intros Hreg.
  destruct (Break.isForcedBreakValue bv); simpl in Hreg.
  - destruct (Styler.flows s !! fn) as [flow|] eqn:Hflow; [|discriminate].
    simpl in Hreg.
    destruct (_ || _); injection Hreg as <-; simpl; [|auto].
    destruct (decide (fn = x)) as [->|Hne].
    + intros _. rewrite Hflow. eauto.
    + rewrite lookup_insert_ne by exact Hne. auto.
  - injection Hreg as <-. auto.
Qed.

Lemma registerForcedBreakOffset_consistent bv off fn (s s' : Styler.t) :
  consistent s ->
  Styler.registerForcedBreakOffset bv off fn s = Some s' ->
  consistent s'.
Proof.
  intros (Hst & Hlen & [Hflows Hown] & Hforced) H.
  pose proof (fun x => registerForcedBreakOffset_keeps_flows bv off fn s s' x H)
    as Hkeep.
  pose proof (fun x => registerForcedBreakOffset_flows_back bv off fn s s' x H)
    as Hback.
  unfold Styler.registerForcedBreakOffset in H.
  match type of H with
  | (?m ≫= _) = _ => destruct m as [flows'|] eqn:Hflows'
  end; [|discriminate].
  cbn [mbind option_bind] in H. injection H as <-.
  cbn [Styler.flows] in Hkeep, Hback.
  split; [exact Hst|]. split; [exact Hlen|]. split; [split|].
  - simpl. eapply Forall_impl; [exact Hflows|]. intros name Hname Hn.
    apply Hkeep, Hname, Hn.
  - simpl. intros name Hname. apply Hown, Hback, Hname.
  - cbn [Styler.flows Styler.breakBeforeValues].
    set (previousValue := default None (Styler.breakBeforeValues s !! off)).
    destruct (resolve_classes previousValue bv) as (_ & Hres & _).
    assert (Hold : forall name flow offset,
              Styler.flows s !! name = Some flow ->
              offset ∈ Flow.forcedBreakOffsets flow ->
              exists v,
                <[off := Break.resolveEffectiveBreakValue previousValue bv]>
                  (Styler.breakBeforeValues s) !! offset = Some v
                /\ Break.isForcedBreakValue v = true).
    { intros name flow offset Hflow Hin.
      destruct (Hforced name flow offset Hflow Hin) as (v & Hv & Hvf).
      destruct (decide (off = offset)) as [->|Hne].
      - rewrite lookup_insert_eq. eexists. split; [reflexivity|].
        rewrite Hres. subst previousValue. rewrite Hv. simpl.
        rewrite Hvf. reflexivity.
      - rewrite lookup_insert_ne by exact Hne. eauto. }
    intros name flow offset Hflow Hin.
    destruct (Break.isForcedBreakValue bv) eqn:Hbv.
    2:{ injection Hflows' as <-. exact (Hold name flow offset Hflow Hin). }
    destruct (Styler.flows s !! fn) as [target|] eqn:Htarget; [|discriminate].
    cbn [mbind option_bind] in Hflows'.
    destruct (_ || _).
    2:{ injection Hflows' as <-. exact (Hold name flow offset Hflow Hin). }
    injection Hflows' as <-.
    apply lookup_insert_Some in Hflow as [[-> <-]|[_ Hflow]].
    2:{ exact (Hold name flow offset Hflow Hin). }
    simpl in Hin. apply elem_of_app in Hin as [Hin|Hin].
    + exact (Hold name target offset Htarget Hin).
    + apply list_elem_of_singleton in Hin. subst offset.
      rewrite lookup_insert_eq. eexists. split; [reflexivity|].
      rewrite Hres, orb_true_r. reflexivity.
Qed.

Lemma run_consistent op (s s' : Styler.t) :
  consistent s -> Styler.run op s = Some s' -> consistent s'.
Proof.
  intros Hs. destruct op; simpl; intros H.
  - injection H as <-. apply encounteredFlowElement_consistent, Hs.
  - destruct (BoxStack.push _ _ _ _ _ _) as [[[box stack'] o']|] eqn:Hpush;
      [|discriminate].
    simpl in H. injection H as <-.
    destruct Hs as (Hst & Hlen & Hflows & Hforced).
    destruct (push_stack _ _ _ _ _ _ _ _ _ Hst Hlen Hpush)
      as (Hnames & Hst' & Hlen').
    split; [exact Hst'|]. split; [exact Hlen'|]. split; [|exact Hforced].
    simpl. rewrite Hnames. exact Hflows.
  - destruct (BoxStack.encounteredTextNode _ _) as [stack'|] eqn:Htext;
      [|discriminate].
    simpl in H. injection H as <-.
    destruct Hs as (Hst & Hlen & Hflows & Hforced).
    destruct (encounteredTextNode_stack _ _ _ Htext) as [Hframes Hsaved].
    split; [|split; [|split; [exact Hflows|exact Hforced]]]; simpl.
    + apply (frames_stacked _ _ _ _ eq_refl Hframes Hst).
    + rewrite Hsaved, (frames_names _ _ Hframes). exact Hlen.
  - destruct (BoxStack.pop _ _ _) as [[[box stack'] o']|] eqn:Hpop;
      [|discriminate].
    simpl in H. injection H as <-.
    destruct Hs as (Hst & Hlen & Hflows & Hforced).
    destruct (pop_stack _ _ _ _ _ _ Hst Hlen Hpop)
      as (Hnames & Hst' & Hlen').
    split; [exact Hst'|]. split; [exact Hlen'|]. split; [|exact Hforced].
    simpl. rewrite Hnames. exact Hflows.
  - apply (registerForcedBreakOffset_consistent _ _ _ _ _ Hs H).
Qed.

Lemma runAll_consistent ops : forall s s' : Styler.t,
  consistent s -> Styler.runAll ops s = Some s' -> consistent s'.
Proof.
  induction ops as [|op ops IH]; intros s s' Hs; simpl.
  - intros [= <-]. exact Hs.
  - destruct (Styler.run op s) as [s1|] eqn:Hop; [|discriminate]. simpl.
    apply IH. apply (run_consistent op s s1 Hs Hop).
Qed.

(** ** Styler: when the operations throw *)

Lemma push_needs style offset isRoot nfc (s : BoxStack.t) (o : Objects.t)
    (box : Box.t) (s' : BoxStack.t) (o' : Objects.t) :
  BoxStack.push style offset isRoot nfc s o = Some (box, s', o') ->
  match nfc with
  | Some ref => is_Some (Objects.chunk ref o)
  | None => BoxStack.stack s <> []
  end.
Proof.
  intros H. unfold BoxStack.push, BoxStack.lastBox in H.
  match type of H with
  | (?m ≫= _) = _ => destruct m as [atStartStack'|]
  end; [|discriminate].
  cbn [mbind option_bind] in H.
  match type of H with
  | (?m ≫= _) = _ => destruct m as [fc|] eqn:Hfc
  end; [|discriminate].
  cbn [mbind option_bind] in H.
  destruct (BoxStack.isCurrentBoxDisplayed s) as [isParentBoxDisplayed s1].
  match type of H with
  | (?m ≫= _) = _ => destruct m as [[box0 o1]|] eqn:Hnew
  end; [|discriminate].
  destruct (construct_frame _ _ _ _ _ _ _ _ _ _ Hnew) as (chunk & Hchunk & _).
  destruct nfc as [new|].
  - injection Hfc as <-. eauto.
  - intros Hnil. rewrite Hnil in Hfc. discriminate.
Qed.

Lemma push_throws style offset isRoot nfc (s : BoxStack.t) (o : Objects.t) :
  Forall (stacked o) (BoxStack.stack s) ->
  BoxStack.push style offset isRoot nfc s o = None
  <-> match nfc with
      | Some ref => Objects.chunk ref o = None
      | None => BoxStack.stack s = []
      end.
Proof.
  intros Hst. split.
  - intros Hnone. destruct nfc as [ref|].
    + destruct (Objects.chunk ref o) as [c|] eqn:Hc; [|reflexivity].
      destruct (push_returns style offset isRoot (Some ref) s o Hst)
        as [r Hr]; [rewrite Hc; eauto|].
      rewrite Hr in Hnone. discriminate.
    + destruct (decide (BoxStack.stack s = [])) as [?|Hne]; [assumption|].
      destruct (push_returns style offset isRoot None s o Hst Hne) as [r Hr].
      rewrite Hr in Hnone. discriminate.
  - intros Hcond.
    destruct (BoxStack.push style offset isRoot nfc s o) as [[[box s'] o']|]
      eqn:Hpush; [|reflexivity].
    pose proof (push_needs _ _ _ _ _ _ _ _ _ Hpush) as Hneeds.
    destruct nfc as [ref|].
    + rewrite Hcond in Hneeds. destruct Hneeds as [? ?]. discriminate.
    + contradiction.
Qed.

Lemma pop_throws offset (s : BoxStack.t) (o : Objects.t) :
  Forall (stacked o) (BoxStack.stack s) ->
  length (BoxStack.atStartStack s)
  = flowChanges (Box.flowName <$> BoxStack.stack s) ->
  BoxStack.pop offset s o = None <-> BoxStack.stack s = [].
Proof.
  intros Hst Hlen. split.
  - intros Hnone.
    destruct (decide (BoxStack.stack s = [])) as [?|Hne]; [assumption|].
    destruct (pop_returns offset s o Hst Hlen Hne) as [r Hr].
    rewrite Hr in Hnone. discriminate.
  - intros Hnil. unfold BoxStack.pop. rewrite Hnil. reflexivity.
Qed.

(** X16.  On every styler the operations of the core reach from a fresh
    one, [push] throws exactly when it is given no chunk and the stack is
    empty, or when the chunk it is given does not exist; and [pop] throws
    exactly when the stack is empty (it never lacks a saved pair of flags to
    restore, and the [::after] box it builds never throws). *)
Theorem push_pop_throw_exactly (ops : list Styler.Operation) (s : Styler.t)
    (style : CssCascade.ElementStyle) (offset offset' : Z) (isRoot : bool)
    (newFlowChunk : option nat) :
  Styler.runAll ops exampleStyler = Some s ->
  (BoxStack.push style offset isRoot newFlowChunk (Styler.boxStack s)
     (Styler.objects s) = None
   <-> match newFlowChunk with
       | Some ref => Objects.chunk ref (Styler.objects s) = None
       | None => BoxStack.stack (Styler.boxStack s) = []
       end)
  /\ (BoxStack.pop offset' (Styler.boxStack s) (Styler.objects s) = None
      <-> BoxStack.stack (Styler.boxStack s) = []).
Proof.
  intros Hreach.
  pose proof (runAll_consistent ops _ _ exampleStyler_consistent Hreach)
    as (Hst & Hlen & _).
  split.
  - apply (push_throws style offset isRoot newFlowChunk _ _ Hst).
  - apply (pop_throws offset' _ _ Hst Hlen).
Qed.

Lemma push_pop_throw_exactly_witness :
  exists s,
    Styler.runAll
      [Styler.EncounteredFlowElement "body" 0 0 0 None false false false;
       Styler.Push examplePageStyle 0 true (Some 0%nat);
       Styler.Pop 4] exampleStyler = Some s
    /\ (BoxStack.push exampleBlockStyle 5 false None (Styler.boxStack s)
          (Styler.objects s) = None
        <-> BoxStack.stack (Styler.boxStack s) = [])
    /\ (BoxStack.pop 5 (Styler.boxStack s) (Styler.objects s) = None
        <-> BoxStack.stack (Styler.boxStack s) = []).
Proof.
  eassert (H : Styler.runAll
                 [Styler.EncounteredFlowElement "body" 0 0 0 None false false
                    false;
                  Styler.Push examplePageStyle 0 true (Some 0%nat);
                  Styler.Pop 4] exampleStyler = Some _).
  { vm_compute. reflexivity. }
  eexists. split; [exact H|].
  apply (push_pop_throw_exactly _ _ exampleBlockStyle 5 5 false None H).
Defined.

(** X17.  On every styler the operations of the core reach from a fresh
    one, and for every box on the stack: the chunk of the box exists and
    carries the box's flow name; [flows] holds the box's flow exactly when
    the flow's name is not one that [flows] inherits from [Object.prototype]
    (for a flow named [constructor], [toString], ... no flow is ever
    created); and [registerForcedBreakOffset] called with that flow name
    returns exactly when the break value is not forced or the flow's name is
    not such a name: for every other flow on the stack it returns for every
    break value and offset. *)
Theorem registerForcedBreakOffset_for_stacked_box
    (ops : list Styler.Operation) (s : Styler.t) (box : Box.t)
    (breakValue : option string) (offset : Z) :
  Styler.runAll ops exampleStyler = Some s ->
  box ∈ BoxStack.stack (Styler.boxStack s) ->
  (exists chunk,
     Objects.chunk (Box.flowChunk box) (Styler.objects s) = Some chunk
     /\ FlowChunk.flowName chunk = Box.flowName box)
  /\ (is_Some (Styler.flows s !! Box.flowName box)
      <-> JsObject.inherited (Box.flowName box) = false)
  /\ (is_Some (Styler.registerForcedBreakOffset breakValue offset
                 (Box.flowName box) s)
      <-> Break.isForcedBreakValue breakValue = false
          \/ JsObject.inherited (Box.flowName box) = false).
Proof.
  intros Hreach Hbox.
  pose proof (runAll_consistent ops _ _ exampleStyler_consistent Hreach)
    as (Hst & _ & [Hflows Hown] & _).
  rewrite Forall_forall in Hst.
  destruct (Hst box Hbox) as ((chunk & Hchunk & Hname) & _).
  assert (Hflow : is_Some (Styler.flows s !! Box.flowName box)
                  <-> JsObject.inherited (Box.flowName box) = false).
  { split; [apply Hown|].
    rewrite Forall_forall in Hflows. apply Hflows.
    rewrite <- Hname. unfold chunkNames.
    apply list_elem_of_fmap_2. apply (list_elem_of_lookup_2 _ _ _ Hchunk). }
  split; [eauto|]. split; [exact Hflow|]. split.
  - intros [s' Hreg].
    destruct (Break.isForcedBreakValue breakValue) eqn:Hforced;
      [|left; reflexivity].
    right. apply Hflow.
    unfold Styler.registerForcedBreakOffset in Hreg. rewrite Hforced in Hreg.
    destruct (Styler.flows s !! Box.flowName box) as [flow|]; [eauto|].
    discriminate.
  - intros [Hforced|Hnot].
    + unfold Styler.registerForcedBreakOffset. rewrite Hforced. simpl. eauto.
    + apply Hflow in Hnot as [flow Hnot].
      destruct (registerForcedBreakOffset_flows breakValue offset _ s flow
                  Hnot) as (s' & -> & _). eauto.
Qed.

Lemma registerForcedBreakOffset_for_stacked_box_witness :
  (exists s box,
     Styler.runAll
       [Styler.EncounteredFlowElement "body" 0 0 0 None false false false;
        Styler.Push examplePageStyle 0 true (Some 0%nat)] exampleStyler
     = Some s
     /\ BoxStack.stack (Styler.boxStack s) = [box]
     /\ Box.flowName box = "body"%string
     /\ (is_Some (Styler.flows s !! Box.flowName box)
         <-> JsObject.inherited (Box.flowName box) = false)
     /\ (is_Some (Styler.registerForcedBreakOffset (Some "page"%string) 0
                    (Box.flowName box) s)
         <-> Break.isForcedBreakValue (Some "page"%string) = false
             \/ JsObject.inherited (Box.flowName box) = false))
  /\ (exists s box,
        Styler.runAll
          [Styler.EncounteredFlowElement "constructor" 0 0 0 None false false
             false;
           Styler.Push examplePageStyle 0 true (Some 0%nat)] exampleStyler
        = Some s
        /\ BoxStack.stack (Styler.boxStack s) = [box]
        /\ Box.flowName box = "constructor"%string
        /\ Styler.registerForcedBreakOffset (Some "page"%string) 0
             "constructor" s = None
        /\ (is_Some (Styler.flows s !! Box.flowName box)
            <-> JsObject.inherited (Box.flowName box) = false)
        /\ (is_Some (Styler.registerForcedBreakOffset (Some "page"%string) 0
                       (Box.flowName box) s)
            <-> Break.isForcedBreakValue (Some "page"%string) = false
                \/ JsObject.inherited (Box.flowName box) = false)).
Proof.
  split.
  - eassert (H : Styler.runAll
                   [Styler.EncounteredFlowElement "body" 0 0 0 None false
                      false false;
                    Styler.Push examplePageStyle 0 true (Some 0%nat)]
                   exampleStyler = Some _).
    { vm_compute. reflexivity. }
    eexists _, _. split; [exact H|].
    split; [vm_compute; reflexivity|]. split; [vm_compute; reflexivity|].
    eapply (registerForcedBreakOffset_for_stacked_box _ _ _ _ _ H).
    vm_compute. apply list_elem_of_here.
  - eassert (H : Styler.runAll
                   [Styler.EncounteredFlowElement "constructor" 0 0 0 None
                      false false false;
                    Styler.Push examplePageStyle 0 true (Some 0%nat)]
                   exampleStyler = Some _).
    { vm_compute. reflexivity. }
    eexists _, _. split; [exact H|].
    split; [vm_compute; reflexivity|]. split; [vm_compute; reflexivity|].
    split; [vm_compute; reflexivity|].
    eapply (registerForcedBreakOffset_for_stacked_box _ _ _ _ _ H).
    vm_compute. apply list_elem_of_here.
Defined.

(** X18.  On every styler the operations of the core reach from a fresh
    one, every offset in a flow's list of forced-break offsets has a forced
    break-before value registered in [breakBeforeValues]. *)
Theorem forcedBreakOffsets_have_forced_values (ops : list Styler.Operation)
    (s : Styler.t) (name : string) (flow : Flow.t) (offset : Z) :
  Styler.runAll ops exampleStyler = Some s ->
  Styler.flows s !! name = Some flow ->
  offset ∈ Flow.forcedBreakOffsets flow ->
  exists v,
    Styler.breakBeforeValues s !! offset = Some v
    /\ Break.isForcedBreakValue v = true.
Proof.
  intros Hreach.
  pose proof (runAll_consistent ops _ _ exampleStyler_consistent Hreach)
    as (_ & _ & _ & Hforced).
  apply Hforced.
Qed.

Lemma forcedBreakOffsets_have_forced_values_witness :
  exists s flow v,
    Styler.runAll
      [Styler.EncounteredFlowElement "body" 0 0 0 None false false false;
       Styler.RegisterForcedBreakOffset (Some "page"%string) 3 "body";
       Styler.RegisterForcedBreakOffset (Some "avoid"%string) 3 "body"]
      exampleStyler = Some s
    /\ Styler.flows s !! "body"%string = Some flow
    /\ 3 ∈ Flow.forcedBreakOffsets flow
    /\ Styler.breakBeforeValues s !! 3 = Some v
    /\ Break.isForcedBreakValue v = true.
Proof.
  eexists _, _.
  assert (Hreach :
    Styler.runAll
      [Styler.EncounteredFlowElement "body" 0 0 0 None false false false;
       Styler.RegisterForcedBreakOffset (Some "page"%string) 3 "body";
       Styler.RegisterForcedBreakOffset (Some "avoid"%string) 3 "body"]
      exampleStyler
    = Some (Styler.mk
              {[ "body"%string := Flow.mk "body" None [3] ]}
              {[ 3 := Some "page"%string ]}
              BoxStack.create
              (Objects.mk
                 [FlowChunk.mk "body" 0 0 0 None false false false None] 0))).
  { vm_compute. reflexivity. }
  assert (Hflow :
    ({[ "body"%string := Flow.mk "body" None [3] ]} : gmap string Flow.t)
      !! "body"%string = Some (Flow.mk "body" None [3])).
  { vm_compute. reflexivity. }
  assert (Hin : 3 ∈ Flow.forcedBreakOffsets (Flow.mk "body" None [3])).
  { apply list_elem_of_here. }
  destruct (forcedBreakOffsets_have_forced_values _ _ _ _ _ Hreach Hflow Hin)
    as (v & Hv & Hvf).
  exists v. split; [exact Hreach|]. split; [exact Hflow|].
  split; [exact Hin|]. split; [exact Hv|exact Hvf].
Defined.

(** ** Styler: a forced break registered for an offset stays *)

Lemma run_keeps_forced op (s s' : Styler.t) (offset : Z) :
  Styler.run op s = Some s' ->
  (exists v, Styler.breakBeforeValues s !! offset = Some v
             /\ Break.isForcedBreakValue v = true) ->
  exists v, Styler.breakBeforeValues s' !! offset = Some v
            /\ Break.isForcedBreakValue v = true.
Proof.
  intros H (v & Hv & Hvf). destruct op; simpl in H.
  - injection H as <-. simpl. eauto.
  - destruct (BoxStack.push _ _ _ _ _ _) as [[[box stack'] o']|];
      [|discriminate].
    simpl in H. injection H as <-. simpl. eauto.
  - destruct (BoxStack.encounteredTextNode _ _) as [stack'|]; [|discriminate].
    simpl in H. injection H as <-. simpl. eauto.
  - destruct (BoxStack.pop _ _ _) as [[[box stack'] o']|]; [|discriminate].
    simpl in H. injection H as <-. simpl. eauto.
  - unfold Styler.registerForcedBreakOffset in H.
    match type of H with
    | (?m ≫= _) = _ => destruct m as [flows'|]
    end; [|discriminate].
    cbn [mbind option_bind] in H. injection H as <-.
    cbn [Styler.breakBeforeValues].
    destruct (decide (offset0 = offset)) as [->|Hne].
    + rewrite lookup_insert_eq. eexists. split; [reflexivity|].
      destruct (resolve_classes
                  (default None (Styler.breakBeforeValues s !! offset))
                  breakValue) as (_ & -> & _).
      rewrite Hv. simpl. rewrite Hvf. reflexivity.
    + rewrite lookup_insert_ne by exact Hne. eauto.
Qed.

Lemma runAll_keeps_forced ops : forall (s s' : Styler.t) (offset : Z),
  Styler.runAll ops s = Some s' ->
  (exists v, Styler.breakBeforeValues s !! offset = Some v
             /\ Break.isForcedBreakValue v = true) ->
  exists v, Styler.breakBeforeValues s' !! offset = Some v
            /\ Break.isForcedBreakValue v = true.
Proof.
  induction ops as [|op ops IH]; intros s s' offset; simpl.
  - intros [= <-] H. exact H.
  - destruct (Styler.run op s) as [s1|] eqn:Hop; [|discriminate]. simpl.
    intros Hrest H. apply (IH s1 s' offset Hrest).
    apply (run_keeps_forced op s s1 offset Hop H).
Qed.

(** X19.  A forced break registered for an offset stays forced: after
    [registerForcedBreakOffset] with a forced value for an offset, and any
    further operations of the core, [breakBeforeValues] holds a forced value
    for that offset, and a chunk that [encounteredFlowElement] then creates
    at that offset starts with that forced value as its break-before. *)
Theorem registered_forced_break_reaches_chunk (s s1 s2 : Styler.t)
    (breakValue : option string) (offset : Z) (name : string)
    (ops : list Styler.Operation) (flowName : string) (elem : nat)
    (priority : Z) (linger : option Z) (exclusive repeated last : bool) :
  Styler.registerForcedBreakOffset breakValue offset name s = Some s1 ->
  Break.isForcedBreakValue breakValue = true ->
  Styler.runAll ops s1 = Some s2 ->
  exists v chunk,
    Styler.breakBeforeValues s2 !! offset = Some v
    /\ Break.isForcedBreakValue v = true
    /\ Objects.chunk
         (Styler.encounteredFlowElement flowName elem offset priority linger
            exclusive repeated last s2).1
         (Styler.objects
            (Styler.encounteredFlowElement flowName elem offset priority
               linger exclusive repeated last s2).2) = Some chunk
    /\ FlowChunk.startOffset chunk = offset
    /\ FlowChunk.breakBefore chunk = v.
Proof.
  intros Hreg Hforced Hops.
  assert (H1 : exists v, Styler.breakBeforeValues s1 !! offset = Some v
                         /\ Break.isForcedBreakValue v = true).
  { unfold Styler.registerForcedBreakOffset in Hreg.
    match type of Hreg with
    | (?m ≫= _) = _ => destruct m as [flows'|]
    end; [|discriminate].
    cbn [mbind option_bind] in Hreg. injection Hreg as <-.
    cbn [Styler.breakBeforeValues]. rewrite lookup_insert_eq.
    eexists. split; [reflexivity|].
    destruct (resolve_classes
                (default None (Styler.breakBeforeValues s !! offset))
                breakValue) as (_ & -> & _).
    rewrite Hforced, orb_true_r. reflexivity. }
  destruct (runAll_keeps_forced ops s1 s2 offset Hops H1) as (v & Hv & Hvf).
  exists v. eexists. split; [exact Hv|]. split; [exact Hvf|].
  unfold Styler.encounteredFlowElement, Objects.chunk. cbn [fst snd].
  cbn [Styler.objects Objects.flowChunks].
  rewrite list_lookup_middle by reflexivity.
  split; [reflexivity|]. split; [reflexivity|].
  cbn [FlowChunk.breakBefore]. rewrite Hv.
  destruct v as [t|]; [|vm_compute in Hvf; discriminate].
  destruct (Break.falsy (Some t)) eqn:Hfalsy; [|reflexivity].
  destruct (falsy_in_no_class _ Hfalsy) as [Hno _]. congruence.
Qed.

Lemma registered_forced_break_reaches_chunk_witness :
  exists v chunk,
    Styler.breakBeforeValues
      (Styler.mk {[ "body"%string := Flow.mk "body" None [3] ]}
         {[ 3 := Some "page"%string ]} BoxStack.create exampleChunks)
      !! 3 = Some v
    /\ Break.isForcedBreakValue v = true
    /\ Objects.chunk
         (Styler.encounteredFlowElement "body" 2 3 0 None false false false
            (Styler.mk {[ "body"%string := Flow.mk "body" None [3] ]}
               {[ 3 := Some "page"%string ]} BoxStack.create exampleChunks)).1
         (Styler.objects
            (Styler.encounteredFlowElement "body" 2 3 0 None false false false
               (Styler.mk {[ "body"%string := Flow.mk "body" None [3] ]}
                  {[ 3 := Some "page"%string ]} BoxStack.create
                  exampleChunks)).2) = Some chunk
    /\ FlowChunk.startOffset chunk = 3
    /\ FlowChunk.breakBefore chunk = v.
Proof.
  apply (registered_forced_break_reaches_chunk exampleBodyStyler
           (Styler.mk {[ "body"%string := Flow.mk "body" None [3] ]}
              {[ 3 := Some "page"%string ]} BoxStack.create exampleChunks)
           (Styler.mk {[ "body"%string := Flow.mk "body" None [3] ]}
              {[ 3 := Some "page"%string ]} BoxStack.create exampleChunks)
           (Some "page"%string) 3 "body" [] "body" 2 0 None false false false).
  - vm_compute. reflexivity.
  - vm_compute. reflexivity.
  - reflexivity.
Defined.

(** ** Box.styleValue: the first call decides *)

(** X20.  The cache of [styleValue] is written once: a second call for the
    same name returns what the first call returned and leaves the box as
    it is, whatever default it passes. *)
Theorem styleValue_first_call_decides (name : string)
    (d d' : option Css.Val) (b : Box.t) :
  Box.styleValue name d' (Box.styleValue name d b).2
  = ((Box.styleValue name d b).1, (Box.styleValue name d b).2).
Proof.
  unfold Box.styleValue.
  destruct (Box.styleValues b !! name) as [cached|] eqn:Hcached; cbn [fst snd].
  - rewrite Hcached. reflexivity.
  - cbn [Box.styleValues Box.setStyleValues]. rewrite lookup_insert_eq.
    reflexivity.
Qed.

(** ** BoxStack.push under a box that is not displayed *)

Lemma everyDisplayed_false (stack : list Box.t) box :
  box ∈ stack ->
  (Box.displayValue box).1 = Some Css.ident.none ->
  (BoxStack.everyDisplayed stack).1 = false.
Proof.
  intros Hin Hnone. induction stack as [|b rest IH].
  - apply elem_of_nil in Hin. contradiction.
  - cbn [BoxStack.everyDisplayed].
    destruct (Box.displayValue b) as [display b1] eqn:Hb.
    destruct (decide (display = Some Css.ident.none)) as [->|Hd].
    + rewrite bool_decide_eq_false_2 by (intros Hn; apply Hn; reflexivity).
      reflexivity.
    + rewrite (bool_decide_eq_true_2 _ Hd).
      apply elem_of_cons in Hin as [->|Hin].
      * rewrite Hb in Hnone. simpl in Hnone. contradiction.
      * specialize (IH Hin).
        destruct (BoxStack.everyDisplayed rest) as [r rest1]. exact IH.
Qed.

(** X21.  A box pushed while some box on the stack has [display: none]
    generates no box: [hasBox()] answers [false] for it, and the push leaves
    the [atBlockStart] and [atFlowStart] flags of the stack as they were. *)
Theorem push_under_undisplayed_box style offset isRoot nfc (s : BoxStack.t)
    (o : Objects.t) (hidden box : Box.t) (s' : BoxStack.t) (o' : Objects.t) :
  hidden ∈ BoxStack.stack s ->
  (Box.displayValue hidden).1 = Some Css.ident.none ->
  BoxStack.push style offset isRoot nfc s o = Some (box, s', o') ->
  Box.hasBox box = (false, box)
  /\ BoxStack.atBlockStart s' = BoxStack.atBlockStart s
  /\ BoxStack.atFlowStart s' = BoxStack.atFlowStart s.
Proof.
  intros Hin Hnone H.
  pose proof (everyDisplayed_false _ _ Hin Hnone) as Hevery.
  unfold BoxStack.push, BoxStack.lastBox in H.
  match type of H with
  | (?m ≫= _) = _ => destruct m as [atStartStack'|]
  end; [|discriminate].
  cbn [mbind option_bind] in H.
  match type of H with
  | (?m ≫= _) = _ => destruct m as [fc|]
  end; [|discriminate].
  cbn [mbind option_bind] in H.
  destruct (isCurrentBoxDisplayed_frame s) as (_ & Habs & Hafs & _).
  assert (Hdisplayed : (BoxStack.isCurrentBoxDisplayed s).1 = false).
  { unfold BoxStack.isCurrentBoxDisplayed.
    destruct (BoxStack.everyDisplayed (BoxStack.stack s)) as [r stack1].
    exact Hevery. }
  destruct (BoxStack.isCurrentBoxDisplayed s) as [isParentBoxDisplayed s1].
  cbn [fst snd] in Habs, Hafs, Hdisplayed. subst isParentBoxDisplayed.
  match type of H with
  | (?m ≫= _) = _ => destruct m as [[box0 o1]|] eqn:Hnew
  end; [|discriminate].
  cbn [mbind option_bind] in H.
  destruct (construct_memo _ _ _ _ _ _ _ _ _ _ Hnew) as (Hhas & _).
  change (hasBoxOf style false) with false in Hhas.
  rewrite (hasBox_cached box0 false Hhas) in H.
  cbn [mbind option_bind] in H.
  rewrite (hasBox_cached box0 false Hhas) in H.
  injection H as <- <- <-. simpl.
  split; [apply (hasBox_cached box0 false Hhas)|].
  split; assumption.
Qed.

Lemma push_under_undisplayed_box_witness :
  exists hidden s1 o1 box s2 o2,
    BoxStack.push
      (CssCascade.mkElementStyle {[ "display"%string := Css.ident.none ]}
         None None) 0 true (Some 0%nat) BoxStack.create exampleChunks
    = Some (hidden, s1, o1)
    /\ BoxStack.push exampleBlockStyle 1 false None s1 o1 = Some (box, s2, o2)
    /\ Box.hasBox box = (false, box)
    /\ BoxStack.atBlockStart s2 = BoxStack.atBlockStart s1
    /\ BoxStack.atFlowStart s2 = BoxStack.atFlowStart s1.
Proof.
  destruct (BoxStack.push
              (CssCascade.mkElementStyle
                 {[ "display"%string := Css.ident.none ]} None None)
              0 true (Some 0%nat) BoxStack.create exampleChunks)
    as [[[hidden s1] o1]|] eqn:H1; [|vm_compute in H1; discriminate].
  destruct (BoxStack.push exampleBlockStyle 1 false None s1 o1)
    as [[[box s2] o2]|] eqn:H2.
  - exists hidden, s1, o1, box, s2, o2.
    split; [reflexivity|]. split; [exact H2|].
    apply (push_under_undisplayed_box exampleBlockStyle 1 false None s1 o1
             hidden box s2 o2); [| |exact H2].
    + vm_compute in H1. injection H1 as <- <- <-. apply list_elem_of_here.
    + vm_compute in H1. injection H1 as <- _ _. vm_compute. reflexivity.
  - exfalso. vm_compute in H1. injection H1 as <- <- <-.
    vm_compute in H2. discriminate.
Defined.

(** ** BoxStack: the saved flags *)

(** X22.  On every styler the operations of the core reach from a fresh
    one, [atStartStack] holds exactly one saved pair of flags for each place
    in the stack where a box belongs to another flow than the box below
    it. *)
Theorem atStartStack_counts_flow_changes (ops : list Styler.Operation)
    (s : Styler.t) :
  Styler.runAll ops exampleStyler = Some s ->
  length (BoxStack.atStartStack (Styler.boxStack s))
  = flowChanges (Box.flowName <$> BoxStack.stack (Styler.boxStack s)).
Proof.
  intros Hreach.
  pose proof (runAll_consistent ops _ _ exampleStyler_consistent Hreach)
    as (_ & Hlen & _).
  exact Hlen.
Qed.

Lemma atStartStack_counts_flow_changes_witness :
  exists s,
    Styler.runAll
      [Styler.EncounteredFlowElement "body" 0 0 0 None false false false;
       Styler.Push exampleBlockStyle 0 true (Some 0%nat);
       Styler.EncounteredFlowElement "footnote" 1 1 0 None false false false;
       Styler.Push exampleBlockStyle 1 false (Some 1%nat)] exampleStyler
    = Some s
    /\ length (BoxStack.atStartStack (Styler.boxStack s)) = 1%nat
    /\ length (BoxStack.atStartStack (Styler.boxStack s))
       = flowChanges (Box.flowName <$> BoxStack.stack (Styler.boxStack s)).
Proof.
  destruct (Styler.runAll
              [Styler.EncounteredFlowElement "body" 0 0 0 None false false
                 false;
               Styler.Push exampleBlockStyle 0 true (Some 0%nat);
               Styler.EncounteredFlowElement "footnote" 1 1 0 None false false
                 false;
               Styler.Push exampleBlockStyle 1 false (Some 1%nat)]
              exampleStyler) as [s|] eqn:Hrun;
    [|vm_compute in Hrun; discriminate].
  exists s. split; [reflexivity|]. split.
  - vm_compute in Hrun. injection Hrun as <-. reflexivity.
  - apply (atStartStack_counts_flow_changes
             [Styler.EncounteredFlowElement "body" 0 0 0 None false false
                false;
              Styler.Push exampleBlockStyle 0 true (Some 0%nat);
              Styler.EncounteredFlowElement "footnote" 1 1 0 None false false
                false;
              Styler.Push exampleBlockStyle 1 false (Some 1%nat)] s Hrun).
Defined.

(** ** display.ts: positioned boxes and ruby-internal displays *)

(** X23.  An absolutely positioned box (position [absolute] or [fixed])
    establishes a block formatting context and a containing block for
    absolutely positioned descendants, whatever its other properties; and
    unless its display is [none], its computed float is [none], its computed
    display is the blockified display and its position is kept. *)
Theorem absolutely_positioned_box (display : Css.Val)
    (position float overflow writingMode parentWritingMode : option Css.Val)
    (isRoot isFlowRoot : bool) :
  Display.isAbsolutelyPositioned position = true ->
  DisplayContext.establishesBFC (Some display) position float overflow
    writingMode parentWritingMode isFlowRoot = true
  /\ DisplayContext.establishesCBForAbsolute position = true
  /\ (display = Css.ident.none
      \/ exists c,
           Display.getComputedDislayValue (Some display) position float isRoot
           = Some c
           /\ Display.display c = Display.blockify (Some display)
           /\ Display.position c = position
           /\ Display.float c = Some Css.ident.none).
Proof.
  intros Habs. split; [|split].
  - unfold DisplayContext.establishesBFC. rewrite Habs.
    rewrite !orb_true_r. reflexivity.
  - unfold DisplayContext.establishesCBForAbsolute.
    unfold Display.isAbsolutelyPositioned in Habs.
    apply orb_true_iff in Habs as [H|H]; rewrite H;
      rewrite ?orb_true_r; reflexivity.
  - destruct (decide (display = Css.ident.none)) as [?|Hd]; [left; assumption|].
    right. unfold Display.getComputedDislayValue.
    rewrite bool_decide_eq_false_2 by congruence.
    rewrite Habs. simpl. eexists. repeat split.
Qed.

Lemma absolutely_positioned_box_witness :
  DisplayContext.establishesBFC (Some Css.ident.inline)
    (Some Css.ident.absolute) None None None None false = true
  /\ DisplayContext.establishesCBForAbsolute (Some Css.ident.absolute) = true
  /\ (Css.ident.inline = Css.ident.none
      \/ exists c,
           Display.getComputedDislayValue (Some Css.ident.inline)
             (Some Css.ident.absolute) None false = Some c
           /\ Display.display c = Display.blockify (Some Css.ident.inline)
           /\ Display.position c = Some Css.ident.absolute
           /\ Display.float c = Some Css.ident.none).
Proof.
  apply (absolutely_positioned_box Css.ident.inline (Some Css.ident.absolute)
           None None None None false false).
  vm_compute. reflexivity.
Defined.

(** X24.  A ruby-internal display (ruby-base, ruby-text and their
    containers) is not inline-level, [blockify] leaves it as it is, and a
    box with such a display is never a block, also when it is floated,
    absolutely positioned or the root. *)
Theorem ruby_internal_display_kept (name : string)
    (position float : option Css.Val) (isRoot : bool) :
  DisplayContext.isRubyInternalDisplay (Css.Ident name) = true ->
  DisplayContext.isInlineLevel (Css.Ident name) = false
  /\ Display.blockify (Some (Css.Ident name)) = Some (Css.Ident name)
  /\ Display.isBlock (Some (Css.Ident name)) position float isRoot
     = Some false.
Proof.
  unfold DisplayContext.isRubyInternalDisplay. simpl.
  rewrite bool_decide_eq_true, !elem_of_cons, elem_of_nil.
  assert (Hcases : forall n : string,
            Display.blockify (Some (Css.Ident n)) = Some (Css.Ident n) ->
            n <> "block"%string -> n <> "none"%string ->
            Display.isBlock (Some (Css.Ident n)) position float isRoot
            = Some false).
  { intros n Hblockify Hblock Hnone.
    unfold Display.isBlock, Display.getComputedDislayValue.
    rewrite Hblockify.
    rewrite (bool_decide_eq_false_2 (Some (Css.Ident n) = Some Css.ident.none))
      by (unfold Css.ident.none; congruence).
    destruct (Display.isAbsolutelyPositioned position); simpl.
    { rewrite bool_decide_eq_false_2
        by (unfold Css.ident.block; congruence). reflexivity. }
    destruct (_ || _); simpl;
      rewrite bool_decide_eq_false_2
        by (unfold Css.ident.block; congruence); reflexivity. }
  intros [->|[->|[->|[->|[]]]]];
    (split; [vm_compute; reflexivity|]);
    (split; [vm_compute; reflexivity|]);
    (apply Hcases; [vm_compute; reflexivity|discriminate|discriminate]).
Qed.

Lemma ruby_internal_display_kept_witness :
  DisplayContext.isInlineLevel (Css.Ident "ruby-text") = false
  /\ Display.blockify (Some (Css.Ident "ruby-text"))
     = Some (Css.Ident "ruby-text")
  /\ Display.isBlock (Some (Css.Ident "ruby-text")) (Some Css.ident.absolute)
       None true = Some false.
Proof.
  apply (ruby_internal_display_kept "ruby-text" (Some Css.ident.absolute) None
           true).
  vm_compute. reflexivity.
Defined.

(** ** BoxStack: what a push saves, a pop restores *)

Lemma push_shape style offset isRoot nfc (s : BoxStack.t) (o : Objects.t)
    (box : Box.t) (s' : BoxStack.t) (o' : Objects.t) :
  Forall (stacked o) (BoxStack.stack s) ->
  BoxStack.push style offset isRoot nfc s o = Some (box, s', o') ->
  exists name,
    Box.flowName <$> BoxStack.stack s'
    = (Box.flowName <$> BoxStack.stack s) ++ [name]
    /\ match nfc with
       | Some new =>
           exists chunk,
             Objects.chunk new o = Some chunk
             /\ FlowChunk.flowName chunk = name
       | None => True
       end
    /\ BoxStack.atStartStack s'
       = match last (BoxStack.stack s) with
         | Some lb =>
             if bool_decide (name <> Box.flowName lb)
             then BoxStack.atStartStack s
                    ++ [(BoxStack.atBlockStart s, BoxStack.atFlowStart s)]
             else BoxStack.atStartStack s
         | None => BoxStack.atStartStack s
         end.
Proof.
  intros Hst H. unfold BoxStack.push, BoxStack.lastBox in H.
  match type of H with
  | (?m ≫= _) = _ => destruct m as [atStartStack'|] eqn:Hsaved
  end; [|discriminate].
  cbn [mbind option_bind] in H.
  match type of H with
  | (?m ≫= _) = _ => destruct m as [fc|] eqn:Hfc
  end; [|discriminate].
  cbn [mbind option_bind] in H.
  destruct (isCurrentBoxDisplayed_frame s) as (Hframes & _).
  destruct (BoxStack.isCurrentBoxDisplayed s) as [isParentBoxDisplayed s1].
  cbn [snd] in Hframes.
  match type of H with
  | (?m ≫= _) = _ => destruct m as [[box0 o1]|] eqn:Hnew
  end; [|discriminate].
  cbn [mbind option_bind] in H.
  pose proof (hasBox_frame box0) as Hf1.
  destruct (Box.hasBox box0) as [has box1]. cbn [snd] in Hf1.
  match type of H with
  | (?m ≫= _) = _ => destruct m as [[atBlockStart' box2]|] eqn:Hblock
  end; [|discriminate].
  cbn [mbind option_bind] in H.
  assert (Hf2 : sameFrame box1 box2).
  { destruct has.
    - destruct (bool_decide (is_Some (Box.beforeBox box1))).
      + injection Hblock as _ <-. apply sameFrame_refl.
      + apply (isBlock_frame _ _ _ Hblock).
    - injection Hblock as _ <-. apply sameFrame_refl. }
  pose proof (hasBox_frame box2) as Hf3.
  destruct (Box.hasBox box2) as [has2 box3]. cbn [snd] in Hf3.
  injection H as <- <- <-. cbn [BoxStack.stack BoxStack.atStartStack].
  destruct (construct_frame _ _ _ _ _ _ _ _ _ _ Hnew)
    as (chunk & Hchunk & Hfc0 & Hfn0 & _).
  assert (Hfn : Box.flowName box3 = FlowChunk.flowName chunk).
  { destruct Hf1 as (_ & H1 & _), Hf2 as (_ & H2 & _), Hf3 as (_ & H3 & _).
    congruence. }
  exists (FlowChunk.flowName chunk). split; [|split].
  - rewrite fmap_app, (frames_names _ _ Hframes). simpl. rewrite Hfn.
    reflexivity.
  - destruct nfc as [new|]; [|exact I].
    injection Hfc as <-. eauto.
  - destruct nfc as [new|];
      destruct (last (BoxStack.stack s)) as [lb|] eqn:Hlast;
      simpl in Hsaved, Hfc.
    + injection Hfc as <-. rewrite Hchunk in Hsaved. simpl in Hsaved.
      destruct (bool_decide (FlowChunk.flowName chunk <> Box.flowName lb));
        injection Hsaved as <-; reflexivity.
    + injection Hsaved as <-. reflexivity.
    + injection Hsaved as <-. injection Hfc as <-.
      rewrite Forall_forall in Hst.
      destruct (Hst lb (last_Some_elem_of _ _ Hlast)) as ((c & Hc & Hname) & _).
      rewrite Hchunk in Hc. injection Hc as <-.
      rewrite bool_decide_eq_false_2 by (intros Hn; apply Hn; exact Hname).
      reflexivity.
    + discriminate.
Qed.

Lemma pop_shape offset (s : BoxStack.t) (o : Objects.t) (box : Box.t)
    (s' : BoxStack.t) (o' : Objects.t) :
  Forall (stacked o) (BoxStack.stack s) ->
  BoxStack.pop offset s o = Some (box, s', o') ->
  exists lastBox,
    BoxStack.stack s = BoxStack.stack s' ++ [lastBox]
    /\ match last (BoxStack.stack s') with
       | Some parent =>
           if bool_decide (Box.flowName parent = Box.flowName lastBox)
           then BoxStack.atStartStack s' = BoxStack.atStartStack s
           else exists atStart,
                  last (BoxStack.atStartStack s) = Some atStart
                  /\ BoxStack.atBlockStart s' = atStart.1
                  /\ BoxStack.atFlowStart s' = atStart.2
                  /\ BoxStack.atStartStack s'
                     = removelast (BoxStack.atStartStack s)
       | None => BoxStack.atStartStack s' = BoxStack.atStartStack s
       end.
Proof.
  intros Hst H. unfold BoxStack.pop in H.
  destruct (last (BoxStack.stack s)) as [box0|] eqn:Hlast; [|discriminate].
  cbn [mbind option_bind] in H.
  apply last_Some in Hlast as [init Hstack].
  rewrite Hstack in H, Hst. rewrite removelast_last in H.
  apply Forall_app in Hst as [_ Hbox0].
  rewrite Forall_singleton in Hbox0.
  destruct Hbox0 as (_ & Hafter0).
  match type of H with
  | (?m ≫= _) = _ => destruct m as [[box1 o1]|] eqn:Hafter
  end; [|discriminate].
  cbn [mbind option_bind] in H.
  destruct (buildAfterPseudoElementBox_frame _ _ _ _ _ _ _ Hafter Hafter0)
    as (_ & Hfn1 & _).
  match type of H with
  | (?m ≫= _) = _ => destruct m as [[box2 o2]|] eqn:Hfold
  end; [|discriminate].
  cbn [mbind option_bind] in H.
  assert (Hfn2 : Box.flowName box2 = Box.flowName box1).
  { destruct (Box.afterBox box1) as [afterBox|];
      [|injection Hfold as <- _; reflexivity].
    destruct (BoxStack.atFlowStart s);
      [|injection Hfold as <- _; reflexivity].
    destruct (Box.getBreakValue "before" afterBox) as [[breakBefore afterBox1]|];
      [|discriminate].
    cbn [mbind option_bind] in Hfold.
    destruct (Objects.chunk (Box.flowChunk box1) o1) as [chunk|];
      [|discriminate].
    cbn [mbind option_bind] in Hfold. injection Hfold as <- _. reflexivity. }
  exists box0. rewrite Hstack.
  destruct (last init) as [parent|] eqn:Hparent.
  - destruct (decide (Box.flowName parent = Box.flowName box2)) as [He|He].
    + rewrite (bool_decide_eq_true_2 _ He) in H.
      destruct (Box.hasBox box2) as [has box3].
      destruct has; injection H as _ <- _; simpl;
        (split; [reflexivity|]); rewrite Hparent;
        rewrite bool_decide_eq_true_2 by congruence; reflexivity.
    + rewrite (bool_decide_eq_false_2 _ He) in H.
      destruct (last (BoxStack.atStartStack s)) as [atStart|] eqn:Hsaved;
        [|discriminate].
      cbn [mbind option_bind] in H. injection H as _ <- _. simpl.
      split; [reflexivity|]. rewrite Hparent.
      rewrite bool_decide_eq_false_2 by congruence.
      exists atStart. repeat split.
  - injection H as _ <- _. simpl. split; [reflexivity|].
    rewrite Hparent. reflexivity.
Qed.

Lemma flowChanges_take_le (names : list string) (k : nat) :
  (flowChanges (take k names) <= flowChanges names)%nat.
Proof.
  induction names as [|x names IH] using rev_ind; [destruct k; simpl; lia|].
  destruct (decide (k <= length names)%nat) as [Hk|Hk].
  - rewrite take_app_le by exact Hk. rewrite flowChanges_snoc. lia.
  - rewrite take_ge by (rewrite length_app; simpl; lia). lia.
Qed.

Lemma prefix_snoc_shorter {A : Type} (l rest : list A) (x : A) :
  l `prefix_of` rest ++ [x] -> (length l <= length rest)%nat ->
  l `prefix_of` rest.
Proof.
  intros [k Hk] Hlen.
  destruct k as [|y k] using rev_ind.
  - rewrite app_nil_r in Hk. subst l. rewrite length_app in Hlen.
    simpl in Hlen. lia.
  - rewrite app_assoc in Hk. apply app_inj_tail in Hk as [-> _].
    apply prefix_app_r. reflexivity.
Qed.

(** While the stack stays deeper than [n], the lower [S n] boxes keep their
    flows and the pairs saved for them stay saved. *)
Lemma run_above (n : nat) (lower : list string) (saved : list (bool * bool))
    op (t t' : Styler.t) :
  length saved = flowChanges lower ->
  consistent t ->
  take (S n) (Box.flowName <$> BoxStack.stack (Styler.boxStack t)) = lower ->
  saved `prefix_of` BoxStack.atStartStack (Styler.boxStack t) ->
  (n < length (BoxStack.stack (Styler.boxStack t)))%nat ->
  Styler.run op t = Some t' ->
  (n < length (BoxStack.stack (Styler.boxStack t')))%nat ->
  take (S n) (Box.flowName <$> BoxStack.stack (Styler.boxStack t')) = lower
  /\ saved `prefix_of` BoxStack.atStartStack (Styler.boxStack t').
Proof.
  intros Hsaved (Hst & Hlen & _) Hlower Hprefix Hdeep Hrun Hdeep'.
  destruct op; simpl in Hrun.
  - injection Hrun as <-. simpl. split; assumption.
  - destruct (BoxStack.push _ _ _ _ _ _) as [[[box stack'] o']|] eqn:Hpush;
      [|discriminate].
    simpl in Hrun. injection Hrun as <-. simpl in *.
    destruct (push_shape _ _ _ _ _ _ _ _ _ Hst Hpush)
      as (name & Hnames & _ & Hass).
    split.
    + rewrite Hnames, take_app_le by (rewrite length_fmap; lia).
      exact Hlower.
    + rewrite Hass.
      destruct (last (BoxStack.stack (Styler.boxStack t))); [|exact Hprefix].
      destruct (bool_decide _); [|exact Hprefix].
      etrans; [exact Hprefix|]. apply prefix_app_r. reflexivity.
  - destruct (BoxStack.encounteredTextNode _ _) as [stack'|] eqn:Htext;
      [|discriminate].
    simpl in Hrun. injection Hrun as <-. simpl in *.
    destruct (encounteredTextNode_stack _ _ _ Htext) as [Hframes Hass].
    rewrite (frames_names _ _ Hframes), Hass. split; assumption.
  - destruct (BoxStack.pop _ _ _) as [[[box stack'] o']|] eqn:Hpop;
      [|discriminate].
    simpl in Hrun. injection Hrun as <-. simpl in *.
    destruct (pop_shape _ _ _ _ _ _ Hst Hpop) as (lastBox & Hstack & Hass).
    rewrite Hstack, fmap_app in Hlower, Hlen. simpl in Hlower, Hlen.
    rewrite take_app_le in Hlower by (rewrite length_fmap; lia).
    split; [exact Hlower|].
    rewrite flowChanges_snoc, fmap_last in Hlen.
    destruct (last (BoxStack.stack stack')) as [parent|];
      [|rewrite Hass; exact Hprefix].
    simpl in Hlen.
    destruct (decide (Box.flowName parent = Box.flowName lastBox)) as [He|He].
    + rewrite (bool_decide_eq_true_2 _ He) in Hass. rewrite Hass.
      exact Hprefix.
    + rewrite (bool_decide_eq_false_2 _ He) in Hass.
      rewrite (bool_decide_eq_true_2 _ He) in Hlen.
      destruct Hass as (atStart & Hlast & _ & _ & ->).
      apply last_Some in Hlast as [rest Hrest].
      rewrite Hrest in Hprefix, Hlen |- *. rewrite removelast_last.
      apply (prefix_snoc_shorter _ _ _ Hprefix).
      rewrite length_app in Hlen. simpl in Hlen.
      pose proof (flowChanges_take_le
                    (Box.flowName <$> BoxStack.stack stack') (S n)) as Hle.
      rewrite Hlower in Hle. lia.
  - unfold Styler.registerForcedBreakOffset in Hrun.
    match type of Hrun with
    | (?m ≫= _) = _ => destruct m as [flows'|]
    end; [|discriminate].
    cbn [mbind option_bind] in Hrun. injection Hrun as <-. simpl.
    split; assumption.
Qed.

Lemma runAbove_keeps (n : nat) (lower : list string)
    (saved : list (bool * bool)) ops : forall t t' : Styler.t,
  length saved = flowChanges lower ->
  consistent t ->
  take (S n) (Box.flowName <$> BoxStack.stack (Styler.boxStack t)) = lower ->
  saved `prefix_of` BoxStack.atStartStack (Styler.boxStack t) ->
  (n < length (BoxStack.stack (Styler.boxStack t)))%nat ->
  runAbove n ops t = Some t' ->
  consistent t'
  /\ take (S n) (Box.flowName <$> BoxStack.stack (Styler.boxStack t')) = lower
  /\ saved `prefix_of` BoxStack.atStartStack (Styler.boxStack t').
Proof.
  induction ops as [|op ops IH]; intros t t' Hsaved Hcons Hlower Hprefix Hdeep;
    simpl.
  - intros [= <-]. split; [assumption|]. split; assumption.
  - destruct (Styler.run op t) as [t1|] eqn:Hop; [|discriminate]. simpl.
    case_bool_decide as Hdeep1; [|discriminate].
    intros Hrest.
    destruct (run_above n lower saved op t t1 Hsaved Hcons Hlower Hprefix
                Hdeep Hop Hdeep1) as [Hlower1 Hprefix1].
    apply (IH t1 t' Hsaved (run_consistent op t t1 Hcons Hop) Hlower1
             Hprefix1 Hdeep1 Hrest).
Qed.

(** X25.  What the push of a flow element saves, its pop restores.  On a
    styler the operations reach from a fresh one, push a box with a chunk
    of another flow than the last box's; let any operations follow that keep
    the stack deeper than it was before the push, and end with the new box
    on top; then pop.  The [atBlockStart] and [atFlowStart] flags and the
    saved pairs in [atStartStack] are those from before the push, and the
    stack holds the same flows as before the push. *)
Theorem pop_restores_what_push_saved (ops0 ops : list Styler.Operation)
    (s s1 s2 s3 : Styler.t) (lb : Box.t) (new : nat) (chunk : FlowChunk.t)
    (style : CssCascade.ElementStyle) (offset offset' : Z) (isRoot : bool) :
  Styler.runAll ops0 exampleStyler = Some s ->
  last (BoxStack.stack (Styler.boxStack s)) = Some lb ->
  Objects.chunk new (Styler.objects s) = Some chunk ->
  FlowChunk.flowName chunk <> Box.flowName lb ->
  Styler.run (Styler.Push style offset isRoot (Some new)) s = Some s1 ->
  runAbove (length (BoxStack.stack (Styler.boxStack s))) ops s1 = Some s2 ->
  length (BoxStack.stack (Styler.boxStack s2))
  = S (length (BoxStack.stack (Styler.boxStack s))) ->
  Styler.run (Styler.Pop offset') s2 = Some s3 ->
  BoxStack.atBlockStart (Styler.boxStack s3)
  = BoxStack.atBlockStart (Styler.boxStack s)
  /\ BoxStack.atFlowStart (Styler.boxStack s3)
     = BoxStack.atFlowStart (Styler.boxStack s)
  /\ BoxStack.atStartStack (Styler.boxStack s3)
     = BoxStack.atStartStack (Styler.boxStack s)
  /\ Box.flowName <$> BoxStack.stack (Styler.boxStack s3)
     = Box.flowName <$> BoxStack.stack (Styler.boxStack s).
Proof.
  intros Hreach Hlast Hchunk Hflow Hpush Hops Hdepth Hpop.
  pose proof (runAll_consistent ops0 _ _ exampleStyler_consistent Hreach)
    as Hcons.
  pose proof (run_consistent _ _ _ Hcons Hpush) as Hcons1.
  destruct Hcons as (Hst & Hlen & _).
  set (n := length (BoxStack.stack (Styler.boxStack s))) in *.
  set (names := Box.flowName <$> BoxStack.stack (Styler.boxStack s)) in *.
  set (saved := BoxStack.atStartStack (Styler.boxStack s)) in *.
  set (pair := (BoxStack.atBlockStart (Styler.boxStack s),
                BoxStack.atFlowStart (Styler.boxStack s))).
  simpl in Hpush.
  destruct (BoxStack.push _ _ _ _ _ _) as [[[box stack1] o1]|] eqn:Hpush1;
    [|discriminate].
  simpl in Hpush. injection Hpush as <-.
  destruct (push_shape _ _ _ _ _ _ _ _ _ Hst Hpush1)
    as (name & Hnames1 & (c & Hc & Hname) & Hass1).
  rewrite Hchunk in Hc. injection Hc as <-. subst name.
  rewrite Hlast, (bool_decide_eq_true_2 _ Hflow) in Hass1.
  fold names in Hnames1. fold saved pair in Hass1.
  assert (Hn : length names = n) by (subst names n; apply length_fmap).
  assert (Hchanges : length (saved ++ [pair])
                     = flowChanges (names ++ [FlowChunk.flowName chunk])).
  { rewrite length_app, flowChanges_snoc. subst names. rewrite fmap_last, Hlast.
    simpl. rewrite bool_decide_eq_true_2 by congruence.
    simpl. lia. }
  destruct (runAbove_keeps n (names ++ [FlowChunk.flowName chunk])
              (saved ++ [pair]) ops _ s2 Hchanges Hcons1)
    as (Hcons2 & Hlower2 & Hprefix2).
  - simpl. rewrite Hnames1. apply take_ge. rewrite length_app. simpl. lia.
  - simpl. rewrite Hass1. reflexivity.
  - simpl.
    assert (Hl : length (Box.flowName <$> BoxStack.stack stack1) = S n).
    { rewrite Hnames1, length_app. simpl. lia. }
    rewrite length_fmap in Hl. lia.
  - exact Hops.
  - destruct Hcons2 as (Hst2 & Hlen2 & _).
    rewrite take_ge in Hlower2 by (rewrite length_fmap; lia).
    rewrite Hlower2 in Hlen2. rewrite <- Hchanges in Hlen2.
    assert (Hass2 : BoxStack.atStartStack (Styler.boxStack s2)
                    = saved ++ [pair]).
    { destruct Hprefix2 as [k Hk]. rewrite Hk, length_app in Hlen2.
      destruct k; [rewrite app_nil_r in Hk; exact Hk|simpl in Hlen2; lia]. }
    simpl in Hpop.
    destruct (BoxStack.pop _ _ _) as [[[box3 stack3] o3]|] eqn:Hpop3;
      [|discriminate].
    simpl in Hpop. injection Hpop as <-. simpl.
    destruct (pop_shape _ _ _ _ _ _ Hst2 Hpop3) as (top & Hstack & Hass3).
    rewrite Hstack, fmap_app in Hlower2. simpl in Hlower2.
    apply app_inj_tail in Hlower2 as [Hnames3 Htop].
    assert (Hparent : last (Box.flowName <$> BoxStack.stack stack3)
                      = Some (Box.flowName lb)).
    { rewrite Hnames3. subst names. rewrite fmap_last, Hlast. reflexivity. }
    rewrite fmap_last in Hparent.
    destruct (last (BoxStack.stack stack3)) as [parent|]; [|discriminate].
    simpl in Hparent. injection Hparent as Hparent.
    rewrite bool_decide_eq_false_2 in Hass3 by congruence.
    destruct Hass3 as (atStart & Hsavedlast & Habs & Hafs & Hass3).
    rewrite Hass2, last_snoc in Hsavedlast. injection Hsavedlast as <-.
    rewrite Hass2, removelast_last in Hass3.
    repeat split; assumption.
Qed.

Lemma pop_restores_what_push_saved_witness :
  exists s s1 s2 s3,
    Styler.runAll
      [Styler.EncounteredFlowElement "body" 0 0 0 None false false false;
       Styler.Push exampleBlockStyle 0 true (Some 0%nat);
       Styler.EncounteredFlowElement "footnote" 1 1 0 None false false false]
      exampleStyler = Some s
    /\ Styler.run (Styler.Push exampleBlockStyle 1 false (Some 1%nat)) s
       = Some s1
    /\ runAbove 1
         [Styler.EncounteredTextNode false;
          Styler.Push exampleBlockStyle 2 false None;
          Styler.Pop 3] s1 = Some s2
    /\ Styler.run (Styler.Pop 3) s2 = Some s3
    /\ BoxStack.atBlockStart (Styler.boxStack s3)
       = BoxStack.atBlockStart (Styler.boxStack s)
    /\ BoxStack.atFlowStart (Styler.boxStack s3)
       = BoxStack.atFlowStart (Styler.boxStack s)
    /\ BoxStack.atStartStack (Styler.boxStack s3)
       = BoxStack.atStartStack (Styler.boxStack s)
    /\ Box.flowName <$> BoxStack.stack (Styler.boxStack s3)
       = Box.flowName <$> BoxStack.stack (Styler.boxStack s).
Proof.
  eassert (H0 : Styler.runAll
                  [Styler.EncounteredFlowElement "body" 0 0 0 None false false
                     false;
                   Styler.Push exampleBlockStyle 0 true (Some 0%nat);
                   Styler.EncounteredFlowElement "footnote" 1 1 0 None false
                     false false] exampleStyler = Some _).
  { vm_compute. reflexivity. }
  match type of H0 with
  | _ = Some ?s =>
      eassert (H1 : Styler.run
                      (Styler.Push exampleBlockStyle 1 false (Some 1%nat)) s
                    = Some _)
  end.
  { vm_compute. reflexivity. }
  match type of H1 with
  | _ = Some ?s1 =>
      eassert (H2 : runAbove 1
                      [Styler.EncounteredTextNode false;
                       Styler.Push exampleBlockStyle 2 false None;
                       Styler.Pop 3] s1 = Some _)
  end.
  { vm_compute. reflexivity. }
  match type of H2 with
  | _ = Some ?s2 =>
      eassert (H3 : Styler.run (Styler.Pop 3) s2 = Some _)
  end.
  { vm_compute. reflexivity. }
  eexists _, _, _, _.
  split; [exact H0|]. split; [exact H1|]. split; [exact H2|].
  split; [exact H3|].
  eapply (pop_restores_what_push_saved _ _ _ _ _ _ _ 1 _ exampleBlockStyle 1 3
            false H0).
  - vm_compute. reflexivity.
  - vm_compute. reflexivity.
  - vm_compute. discriminate.
  - exact H1.
  - exact H2.
  - vm_compute. reflexivity.
  - exact H3.
Defined.

(** ** SlipMap: fixedBySlipped is monotone *)

(** X26.  On a map built by [addStuckRange] first and then any calls whose
    arguments never decrease, [fixedBySlipped] is monotone: for slipped
    offsets [s1 <= s2 <= getMaxSlipped()] both calls return, and
    [fixedBySlipped(s1) <= fixedBySlipped(s2)]. *)
Theorem fixedBySlipped_monotone (g0 : Z) (calls : list Call) (s1 s2 : Z) :
  nonDecreasingFrom g0 calls ->
  s1 <= s2 ->
  s2 <= getMaxSlipped (built (AddStuckRange g0 :: calls)) ->
  exists f1 f2,
    fixedBySlipped s1 (built (AddStuckRange g0 :: calls)) = Some f1
    /\ fixedBySlipped s2 (built (AddStuckRange g0 :: calls)) = Some f2
    /\ f1 <= f2.
Proof.
  intros Hcalls H12 Hmax.
  destruct (built_ordered g0 calls Hcalls) as [Hne Hord].
  set (map := built (AddStuckRange g0 :: calls)) in *.
  destruct (ordered_searches map s2 (getMaxFixed map) Hne Hord Hmax
              ltac:(lia))
    as (f2 & _ & Hf2 & _ & _ & Hf2max & Hback2).
  destruct (ordered_searches map s1 f2 Hne Hord ltac:(lia) Hf2max)
    as (f1 & s' & Hf1 & Hs' & Hiff & _ & _).
  exists f1, f2. split; [exact Hf1|]. split; [exact Hf2|].
  apply Hiff. rewrite Hback2 in Hs'. injection Hs' as <-. exact H12.
Qed.

Lemma fixedBySlipped_monotone_witness :
  exists f1 f2,
    fixedBySlipped 1
      (built [AddStuckRange 0; AddStuckRange 1; AddSlippedRange 3;
              AddStuckRange 4]) = Some f1
    /\ fixedBySlipped 2
         (built [AddStuckRange 0; AddStuckRange 1; AddSlippedRange 3;
                 AddStuckRange 4]) = Some f2
    /\ f1 <= f2.
Proof.
  apply (fixedBySlipped_monotone 0
           [AddStuckRange 1; AddSlippedRange 3; AddStuckRange 4] 1 2).
  - simpl. lia.
  - lia.
  - vm_compute. discriminate.
Defined.

(** ** Box: the constructor and the break-before of the chunk *)

Lemma sameParams_refl (b : Box.t) : sameParams b b.
Proof. repeat split. Qed.

Lemma sameParams_trans (b1 b2 b3 : Box.t) :
  sameParams b1 b2 -> sameParams b2 b3 -> sameParams b1 b3.
Proof. intros (? & ? & ?) (? & ? & ?). repeat split; congruence. Qed.

Lemma styleValue_params name d (b : Box.t) :
  sameParams b (Box.styleValue name d b).2.
Proof. rewrite styleValue_eq. repeat split. Qed.

Lemma hasBox_params (b : Box.t) : sameParams b (Box.hasBox b).2.
Proof.
  unfold Box.hasBox, Box.displayValue.
  destruct (Box.hasBoxValue b); [apply sameParams_refl|].
  destruct (Box.isParentBoxDisplayed b); [|repeat split].
  rewrite styleValue_eq. repeat split.
Qed.

Lemma isBlock_params (b b' : Box.t) v :
  Box.isBlock b = Some (v, b') -> sameParams b b'.
Proof.
  destruct (Box.isBlockValue b) as [w|] eqn:Hcache.
  - rewrite (isBlock_cached b w Hcache). intros [= <- <-].
    apply sameParams_refl.
  - rewrite (isBlock_computed b Hcache). cbv zeta.
    destruct (Display.isBlock _ _ _ _) as [w|]; [|discriminate].
    simpl. intros [= <- <-]. repeat split.
Qed.

Lemma getBreakValue_params edge (b b' : Box.t) r :
  Box.getBreakValue edge b = Some (r, b') -> sameParams b b'.
Proof.
  unfold Box.getBreakValue. intros H.
  destruct (Box.isBlock b) as [[block b1]|] eqn:Hblock; [|discriminate].
  simpl in H. pose proof (isBlock_params b b1 block Hblock) as Hp1.
  destruct block.
  - pose proof (styleValue_params ("break-" +:+ edge) None b1) as Hp2.
    destruct (Box.styleValue ("break-" +:+ edge) None b1) as [val b2].
    simpl in *. injection H as _ <-.
    eapply sameParams_trans; eassumption.
  - injection H as _ <-. exact Hp1.
Qed.

(** The box the constructor returns sits where the constructor was told. *)
Lemma construct_params style offset isRoot fc abs afs ipd (o : Objects.t)
    (b : Box.t) (o' : Objects.t) :
  Box.construct style offset isRoot fc abs afs ipd o = Some (b, o') ->
  Box.offset b = offset /\ Box.atBlockStart b = abs /\ Box.atFlowStart b = afs.
Proof.
  intros H.
  destruct (construct_inv _ _ _ _ _ _ _ _ _ _ H)
    as (chunk & this2 & o2 & own & this3 & Hinv).
  cbv zeta in Hinv. destruct Hinv as (_ & Hmid & Hown & Hb & _).
  match type of Hmid with
  | context [Box.hasBox ?x] => set (this0 := x) in *
  end.
  assert (H12 : sameParams (Box.hasBox this0).2 this2).
  { destruct Hmid as [[-> _]|(beforeStyle & block & this1' & beforeBox
                               & _ & Hblock & _ & Hthis2)].
    - apply sameParams_refl.
    - pose proof (isBlock_params _ _ _ Hblock) as Hp1.
      destruct Hthis2 as [->|(before' & breakBefore' & ->)]; [exact Hp1|].
      eapply sameParams_trans; [exact Hp1|]. repeat split. }
  assert (Hp : sameParams this0 b).
  { eapply sameParams_trans; [apply hasBox_params|].
    eapply sameParams_trans; [exact H12|].
    subst b. eapply sameParams_trans;
      [apply (getBreakValue_params _ _ _ _ Hown)|repeat split]. }
  destruct Hp as (Hoff & Habs & Hafs).
  rewrite Hoff, Habs, Hafs. repeat split.
Qed.

(** The last step of the constructor: the chunks are those the [::before]
    box left, with the box's break-before folded into its chunk exactly
    when the box is at flow start and its break-before is forced. *)
Lemma construct_end style offset isRoot fc abs afs ipd (o : Objects.t)
    (b : Box.t) (o' : Objects.t) :
  Box.construct style offset isRoot fc abs afs ipd o = Some (b, o') ->
  exists o2,
    let o1 := Objects.mk (Objects.flowChunks o) (S (Objects.boxesCreated o)) in
    (o2 = o1
     \/ exists beforeStyle block beforeBox,
          CssCascade.pseudoBefore style = Some beforeStyle
          /\ Box.construct beforeStyle offset false fc block afs true o1
             = Some (beforeBox, o2))
    /\ if afs && Break.isForcedBreakValue (Box.breakBefore b)
       then exists chunk0,
              Objects.chunk fc o2 = Some chunk0
              /\ o' = Objects.writeBreakBefore fc
                        (Break.resolveEffectiveBreakValue
                           (FlowChunk.breakBefore chunk0) (Box.breakBefore b))
                        o2
       else o' = o2.
Proof.
  intros H. destruct (construct_params _ _ _ _ _ _ _ _ _ _ H) as (_ & _ & Hafs).
  destruct style as [decls before after].
  cbn [Box.construct Objects.allocateBox] in H.
  match type of H with
  | (Objects.chunk fc ?x ≫= _) = _ =>
      change (Objects.chunk fc x) with (Objects.chunk fc o) in H
  end.
  destruct (Objects.chunk fc o) as [chunk|] eqn:Hchunk; [|discriminate].
  cbn [mbind option_bind] in H.
  match type of H with
  | context [Box.hasBox ?x] => set (this0 := x) in *
  end.
  destruct (Box.hasBox this0) as [has this1] eqn:Hhas.
  match type of H with
  | (?mid ≫= _) = _ => destruct mid as [[this2 o2]|] eqn:Hmid
  end; [|discriminate].
  cbn [mbind option_bind] in H.
  destruct (Box.getBreakValue "before" this2) as [[own this3]|] eqn:Hown;
    [|discriminate].
  cbn [mbind option_bind] in H.
  exists o2. cbv zeta. split.
  - destruct has; [|injection Hmid as _ <-; left; reflexivity].
    cbn [CssCascade.pseudoBefore] in Hmid.
    destruct before as [beforeStyle|];
      [|injection Hmid as _ <-; left; reflexivity].
    destruct (Box.isBlock this1) as [[block this1']|] eqn:Hblock;
      [|discriminate].
    cbn [mbind option_bind] in Hmid.
    destruct (Box.construct beforeStyle offset false fc block afs true _)
      as [[beforeBox ob]|] eqn:Hbefore; [|discriminate].
    cbn [mbind option_bind] in Hmid.
    destruct (Box.styleValue "content" None beforeBox)
      as [beforeContent beforeBox0].
    right. exists beforeStyle, block, beforeBox.
    split; [reflexivity|].
    destruct (Vtree.nonTrivialContent beforeContent);
      injection Hmid as _ <-; exact Hbefore.
  - match type of H with
    | (if ?c then _ else _) = _ => destruct c eqn:Hcond
    end.
    + destruct (Objects.chunk fc o2) as [chunk0|] eqn:Hchunk0; [|discriminate].
      cbn [mbind option_bind] in H. injection H as <- <-.
      rewrite <- Hafs. rewrite Hcond.
      exists chunk0. split; reflexivity.
    + injection H as <- <-. rewrite <- Hafs. rewrite Hcond. reflexivity.
Qed.

Lemma construct_off_flow_start style : forall offset isRoot fc abs ipd
    (o : Objects.t) (b : Box.t) (o' : Objects.t),
  Box.construct style offset isRoot fc abs false ipd o = Some (b, o') ->
  Objects.flowChunks o' = Objects.flowChunks o.
Proof.
  induction style as [decls before after IH] using ElementStyle_before_ind.
  intros offset isRoot fc abs ipd o b o' H.
  destruct (construct_end _ _ _ _ _ _ _ _ _ _ H) as (o2 & Ho2 & Hend).
  cbv zeta in Ho2. simpl in Hend. subst o'.
  destruct Ho2 as [->|(beforeStyle & block & beforeBox & Hbefore & Hnew)].
  - reflexivity.
  - simpl in Hbefore. subst before.
    rewrite (IH _ _ _ _ _ _ _ _ Hnew). reflexivity.
Qed.

(** X27.  The constructor of a box writes to its chunk only at flow start:
    a box that is not at flow start leaves every chunk as it is (also
    through its [::before] box), and after the construction of a box at flow
    start whose break-before is forced, the break-before of its chunk is
    forced. *)
Theorem construct_folds_forced_break_into_chunk style offset isRoot fc abs
    afs ipd (o : Objects.t) (b : Box.t) (o' : Objects.t) :
  Box.construct style offset isRoot fc abs afs ipd o = Some (b, o') ->
  (afs = false -> Objects.flowChunks o' = Objects.flowChunks o)
  /\ (afs = true ->
      Break.isForcedBreakValue (Box.breakBefore b) = true ->
      exists chunk',
        Objects.chunk fc o' = Some chunk'
        /\ Break.isForcedBreakValue (FlowChunk.breakBefore chunk') = true).
Proof.
  intros H. split.
  - intros ->. apply (construct_off_flow_start _ _ _ _ _ _ _ _ _ H).
  - intros -> Hforced.
    destruct (construct_end _ _ _ _ _ _ _ _ _ _ H) as (o2 & _ & Hend).
    rewrite Hforced in Hend. simpl in Hend.
    destruct Hend as (chunk0 & Hchunk0 & ->).
    unfold Objects.chunk, Objects.writeBreakBefore in *. simpl.
    rewrite list_lookup_alter_eq, Hchunk0. simpl.
    eexists. split; [reflexivity|]. simpl.
    destruct (resolve_classes (FlowChunk.breakBefore chunk0)
                (Box.breakBefore b)) as (_ & -> & _).
    rewrite Hforced. apply orb_true_r.
Qed.

Lemma construct_folds_forced_break_into_chunk_witness :
  exists b o',
    Box.construct examplePageStyle 0 true 0 true true true exampleChunks
    = Some (b, o')
    /\ Break.isForcedBreakValue (Box.breakBefore b) = true
    /\ (true = false ->
        Objects.flowChunks o' = Objects.flowChunks exampleChunks)
    /\ (true = true ->
        Break.isForcedBreakValue (Box.breakBefore b) = true ->
        exists chunk',
          Objects.chunk 0 o' = Some chunk'
          /\ Break.isForcedBreakValue (FlowChunk.breakBefore chunk') = true).
Proof.
  eassert (H : Box.construct examplePageStyle 0 true 0 true true true
                 exampleChunks = Some (_, _)).
  { vm_compute. reflexivity. }
  eexists _, _. split; [exact H|]. split; [vm_compute; reflexivity|].
  apply (construct_folds_forced_break_into_chunk _ _ _ _ _ _ _ _ _ _ H).
Defined.

(** ** BoxStack.nearestBlockStartOffset above the root box *)

Lemma walkAncestors_returns flow ancestors : forall below,
  Exists (fun a => Box.isRoot a = true) ancestors ->
  exists off,
    walkAncestors boundaryOfSource flow below ancestors = Some off
    /\ (off = Box.offset below
        \/ exists a, a ∈ ancestors /\ off = Box.offset a).
Proof.
  induction ancestors as [|a rest IH]; intros below Hroot.
  - apply Exists_nil in Hroot. contradiction.
  - cbn [walkAncestors].
    destruct (bool_decide (Box.flowName a <> flow)).
    { eexists. split; [reflexivity|]. left. reflexivity. }
    destruct (Box.atBlockStart a); simpl.
    2:{ eexists. split; [reflexivity|]. right. exists a.
        split; [apply list_elem_of_here|reflexivity]. }
    destruct (Box.isRoot a) eqn:Ha.
    { eexists. split; [reflexivity|]. right. exists a.
      split; [apply list_elem_of_here|reflexivity]. }
    apply Exists_cons in Hroot as [Hroot|Hroot]; [congruence|].
    destruct (IH a Hroot) as (off & Hoff & Hwhere).
    exists off. split; [exact Hoff|]. right.
    destruct Hwhere as [->|(a' & Hin & ->)].
    + exists a. split; [apply list_elem_of_here|reflexivity].
    + exists a'. split; [apply list_elem_of_further; exact Hin|reflexivity].
Qed.

(** X28.  Above the root box the walk always ends: when one of the boxes
    [nearestBlockStartOffset(box)] walks through (the stack, without [box]
    itself if it is the last box) is the root box, the call returns, and
    what it returns is the offset of [box] or of one of those boxes. *)
Theorem nearestBlockStartOffset_above_root (box root : Box.t)
    (s : BoxStack.t) :
  root ∈ ancestorsOf box s ->
  Box.isRoot root = true ->
  exists off,
    BoxStack.nearestBlockStartOffset box s = Some off
    /\ (off = Box.offset box
        \/ exists a, a ∈ ancestorsOf box s /\ off = Box.offset a).
Proof.
  intros Hin Hroot. rewrite nearestBlockStartOffset_ancestors.
  unfold nearestByRule.
  destruct (Box.atBlockStart box); simpl.
  - apply walkAncestors_returns. apply Exists_exists. eauto.
  - eexists. split; [reflexivity|]. left. reflexivity.
Qed.

Lemma nearestBlockStartOffset_above_root_witness :
  exists off,
    BoxStack.nearestBlockStartOffset exampleChildBox
      (BoxStack.mk [exampleRootBox; exampleChildBox] true false []) = Some off
    /\ (off = Box.offset exampleChildBox
        \/ exists a,
             a ∈ ancestorsOf exampleChildBox
                   (BoxStack.mk [exampleRootBox; exampleChildBox] true false
                      [])
             /\ off = Box.offset a).
Proof.
  apply (nearestBlockStartOffset_above_root exampleChildBox exampleRootBox
           (BoxStack.mk [exampleRootBox; exampleChildBox] true false [])).
  - change (exampleRootBox ∈ [exampleRootBox]). apply list_elem_of_here.
  - reflexivity.
Defined.
